(** * swearkiller: the subtitle-to-mute-interval pipeline

    A shallow embedding of [gui.go] (and of the command-line twin of the same
    functions): [parseSRTTime], [findSwearTimestamps], [mergeSegments],
    [generateFFmpegCommand] and [getVolumeFilter].

    Go values are modelled as follows.
    - [float64]: IEEE 754 binary64, round to nearest even, with signed zeros,
      infinities and NaN (module [F64]).
    - [string]: a sequence of bytes ([String.string]).
    - [[]Segment]: a [list Segment]; where aliasing of the backing array is
      observable a slice header over a store of arrays (module [Mem]).
    - [error]: an inductive type, results as sums. *)

From Stdlib Require Import Ascii String.
From Stdlib Require Import ZArith List Bool Lia Arith.
From Stdlib Require Import Permutation Sorted.
From Stdlib Require DecimalString DecimalPos DecimalN.
Import ListNotations.

Set Implicit Arguments.

(* ================================================================== *)
(** * IEEE 754 binary64 *)
(* ================================================================== *)

Module F64.

Local Open Scope Z_scope.

(** The smallest positive binary64 is [2^-1074]; every finite binary64 is an
    integer multiple of it.  A finite value is kept as its sign and its
    magnitude counted in that unit. *)
Definition emin_bits : Z := 1074.
Definition unit_scale : Z := 2 ^ emin_bits.
(** Magnitudes from [2^1024] on overflow to an infinity. *)
Definition overflow_threshold : Z := 2 ^ (1024 + emin_bits).

Inductive float64 : Type :=
| NaN : float64
| Inf (neg : bool) : float64
| Fin (neg : bool) (mag : Z) : float64.

(** Number of low bits a magnitude loses to fit a 53-bit significand. *)
Definition shift (n : Z) : Z := Z.max 0 (Z.log2 n - 52).

(** Round the rational [(q*d + r) / d] to an integer, ties to even. *)
Definition rne (q r d : Z) : Z :=
  if 2 * r <? d then q
  else if d <? 2 * r then q + 1
  else if Z.even q then q else q + 1.

(** Round the non-negative rational [num/den] (counted in units of
    [2^-1074]) to the nearest magnitude with a 53-bit significand. *)
Definition round_mag (num den : Z) : Z :=
  let k := shift (num / den) in
  let d := den * 2 ^ k in
  rne (num / d) (num mod d) d * 2 ^ k.

Definition mk (neg : bool) (num den : Z) : float64 :=
  let m := round_mag num den in
  if overflow_threshold <=? m then Inf neg else Fin neg m.

Definition sval (neg : bool) (mag : Z) : Z := if neg then - mag else mag.

(** A magnitude is representable when rounding leaves it alone. *)
Definition valid_mag (m : Z) : bool :=
  (0 <=? m) && (m <? overflow_threshold) && (round_mag m 1 =? m).

Definition valid (x : float64) : bool :=
  match x with
  | Fin _ m => valid_mag m
  | _ => true
  end.

Definition isNaN (x : float64) : bool :=
  match x with NaN => true | _ => false end.

Definition isFinite (x : float64) : bool :=
  match x with Fin _ _ => true | _ => false end.

(** [x + y] *)
Definition add (x y : float64) : float64 :=
  match x, y with
  | NaN, _ | _, NaN => NaN
  | Inf a, Inf b => if Bool.eqb a b then Inf a else NaN
  | Inf a, Fin _ _ => Inf a
  | Fin _ _, Inf b => Inf b
  | Fin s1 m1, Fin s2 m2 =>
      let v := sval s1 m1 + sval s2 m2 in
      if v =? 0 then Fin (s1 && s2) 0
      else mk (v <? 0) (Z.abs v) 1
  end.

(** [x / y] *)
Definition div (x y : float64) : float64 :=
  match x, y with
  | NaN, _ | _, NaN => NaN
  | Inf _, Inf _ => NaN
  | Inf a, Fin b _ => Inf (xorb a b)
  | Fin a _, Inf b => Fin (xorb a b) 0
  | Fin s1 m1, Fin s2 m2 =>
      if m2 =? 0 then (if m1 =? 0 then NaN else Inf (xorb s1 s2))
      else mk (xorb s1 s2) (m1 * unit_scale) m2
  end.

(** The conversion [float64(n)] of an integer. *)
Definition of_int (n : Z) : float64 :=
  mk (n <? 0) (Z.abs n * unit_scale) 1.

(** The constant [p/q] as the compiler rounds a decimal literal. *)
Definition of_ratio (p q : Z) : float64 :=
  mk (p <? 0) (Z.abs p * unit_scale) q.

Definition zero : float64 := Fin false 0.
Definition one : float64 := Fin false unit_scale.

(** [x < y] and [x <= y]; every comparison with NaN is false. *)
Definition ltb (x y : float64) : bool :=
  match x, y with
  | NaN, _ | _, NaN => false
  | Inf a, Inf b => a && negb b
  | Inf a, Fin _ _ => a
  | Fin _ _, Inf b => negb b
  | Fin s1 m1, Fin s2 m2 => sval s1 m1 <? sval s2 m2
  end.

Definition leb (x y : float64) : bool :=
  match x, y with
  | NaN, _ | _, NaN => false
  | Inf a, Inf b => a || negb b
  | Inf a, Fin _ _ => a
  | Fin _ _, Inf b => negb b
  | Fin s1 m1, Fin s2 m2 => sval s1 m1 <=? sval s2 m2
  end.

(** [x > y] and [x >= y] *)
Definition gtb (x y : float64) : bool := ltb y x.
Definition geb (x y : float64) : bool := leb y x.

End F64.

(* ================================================================== *)
(** * Go strings *)
(* ================================================================== *)

(** A Go string is a sequence of bytes.  The functions of [strings],
    [strconv], [unicode/utf8] and [fmt] the program calls are written out
    here after the library's sources; what the library reads from its Unicode
    tables is a parameter ([Unicode]). *)
Module GoStr.

Local Open Scope string_scope.

Definition byte_val (c : ascii) : N := N_of_ascii c.

(** The double quote and the backslash, which a string literal here does
    not spell. *)
Definition dquote_char : ascii := ascii_of_nat 34.
Definition backslash_char : ascii := ascii_of_nat 92.
Definition dquote : string := String dquote_char EmptyString.
Definition backslash : string := String backslash_char EmptyString.

Definition len (s : string) : Z := Z.of_nat (String.length s).

Fixpoint string_rev (s : string) : string :=
  match s with
  | EmptyString => EmptyString
  | String c s' => string_rev s' ++ String c EmptyString
  end.

(** [strings.HasPrefix(s, prefix)] *)
Fixpoint HasPrefix (s prefix : string) : bool :=
  match prefix, s with
  | EmptyString, _ => true
  | String p prefix', String c s' => Ascii.eqb p c && HasPrefix s' prefix'
  | String _ _, EmptyString => false
  end.

(** [strings.Index(s, substr)]: the first position, or -1. *)
Fixpoint index_from (i : Z) (s substr : string) : Z :=
  if HasPrefix s substr then i
  else match s with
       | EmptyString => -1
       | String _ s' => index_from (i + 1) s' substr
       end.

Definition Index (s substr : string) : Z := index_from 0 s substr.

(** [strings.LastIndex(s, substr)]: the last position, or -1. *)
Fixpoint last_index_from (i : Z) (s substr : string) : Z :=
  match s with
  | EmptyString => if HasPrefix s substr then i else -1
  | String _ s' =>
      let later := last_index_from (i + 1) s' substr in
      if (0 <=? later)%Z then later
      else if HasPrefix s substr then i else -1
  end.

Definition LastIndex (s substr : string) : Z := last_index_from 0 s substr.

(** [strings.Contains(s, substr)] *)
Definition Contains (s substr : string) : bool := (0 <=? Index s substr)%Z.

(** [strings.Join(elems, sep)] *)
Fixpoint Join (elems : list string) (sep : string) : string :=
  match elems with
  | [] => EmptyString
  | [e] => e
  | e :: rest => e ++ sep ++ Join rest sep
  end.

(** [strings.Replace(s, old, new, 1)] for one-byte [old] and [new]. *)
Fixpoint ReplaceFirstByte (s : string) (old new : ascii) : string :=
  match s with
  | EmptyString => EmptyString
  | String c s' =>
      if Ascii.eqb c old then String new s'
      else String c (ReplaceFirstByte s' old new)
  end.

(** A call either returns or panics. *)
Inductive outcome (A : Type) : Type :=
| Returns (a : A)
| Panics.
Arguments Panics {A}.

(** The slice expression [s[lo:hi]]; out of range bounds panic. *)
Definition slice (s : string) (lo hi : Z) : outcome string :=
  if ((0 <=? lo) && (lo <=? hi) && (hi <=? len s))%Z
  then Returns (substring (Z.to_nat lo) (Z.to_nat (hi - lo)) s)
  else Panics.

(** ** White space *)

(** [unicode.IsSpace] on an ASCII byte: tab, newline, vertical tab, form
    feed, carriage return, space. *)
Definition isAsciiSpace (c : ascii) : bool :=
  let n := byte_val c in
  ((9 <=? n) && (n <=? 13) || (n =? 32))%N.

(** The two-byte encodings of U+0085 and U+00A0. *)
Definition isSpace2 (a b : ascii) : bool :=
  ((byte_val a =? 194) && ((byte_val b =? 133) || (byte_val b =? 160)))%N.

(** The three-byte encodings of U+1680, U+2000 to U+200A, U+2028, U+2029,
    U+202F, U+205F and U+3000. *)
Definition isSpace3 (a b c : ascii) : bool :=
  let x := byte_val a in
  let y := byte_val b in
  let z := byte_val c in
  ((x =? 225) && (y =? 154) && (z =? 128)
   || (x =? 226) && (y =? 128) &&
        ((128 <=? z) && (z <=? 138) || (z =? 168) || (z =? 169) || (z =? 175))
   || (x =? 226) && (y =? 129) && (z =? 159)
   || (x =? 227) && (y =? 128) && (z =? 128))%N.

(** [strings.TrimLeftFunc(s, unicode.IsSpace)] *)
Fixpoint TrimLeftSpace (s : string) : string :=
  match s with
  | EmptyString => s
  | String a s1 =>
      if isAsciiSpace a then TrimLeftSpace s1
      else match s1 with
           | EmptyString => s
           | String b s2 =>
               if isSpace2 a b then TrimLeftSpace s2
               else match s2 with
                    | EmptyString => s
                    | String c s3 =>
                        if isSpace3 a b c then TrimLeftSpace s3 else s
                    end
           end
  end.

(** The same from the end, on the reversed string. *)
Fixpoint trim_left_rev (r : string) : string :=
  match r with
  | EmptyString => r
  | String a r1 =>
      if isAsciiSpace a then trim_left_rev r1
      else match r1 with
           | EmptyString => r
           | String b r2 =>
               if isSpace2 b a then trim_left_rev r2
               else match r2 with
                    | EmptyString => r
                    | String c r3 =>
                        if isSpace3 c b a then trim_left_rev r3 else r
                    end
           end
  end.

(** [strings.TrimRightFunc(s, unicode.IsSpace)] *)
Definition TrimRightSpace (s : string) : string :=
  string_rev (trim_left_rev (string_rev s)).

(** [strings.TrimSpace(s)] *)
Definition TrimSpace (s : string) : string :=
  TrimRightSpace (TrimLeftSpace s).

(** ** UTF-8 *)

Definition RuneError : N := 65533.

(** A continuation byte, [0x80] to [0xBF]. *)
Definition isCont (c : ascii) : bool :=
  ((128 <=? byte_val c) && (byte_val c <=? 191))%N.

(** [utf8.DecodeRuneInString(s)]: the first rune and its width in bytes;
    [(RuneError, 1)] on an invalid encoding, [(RuneError, 0)] on the empty
    string. *)
Definition DecodeRuneInString (s : string) : N * nat :=
  match s with
  | EmptyString => (RuneError, 0)
  | String c0 s1 =>
      let b0 := byte_val c0 in
      if (b0 <? 128)%N then (b0, 1)
      else if ((b0 <? 194) || (244 <? b0))%N then (RuneError, 1)
      else
        let lo := (if b0 =? 224 then 160 else if b0 =? 240 then 144 else 128)%N in
        let hi := (if b0 =? 237 then 159 else if b0 =? 244 then 143 else 191)%N in
        match s1 with
        | EmptyString => (RuneError, 1)
        | String c1 s2 =>
            let b1 := byte_val c1 in
            if ((b1 <? lo) || (hi <? b1))%N then (RuneError, 1)
            else if (b0 <? 224)%N then
              ((N.land b0 31 * 64 + N.land b1 63)%N, 2)
            else
              match s2 with
              | EmptyString => (RuneError, 1)
              | String c2 s3 =>
                  let b2 := byte_val c2 in
                  if negb (isCont c2) then (RuneError, 1)
                  else if (b0 <? 240)%N then
                    ((N.land b0 15 * 4096 + N.land b1 63 * 64 + N.land b2 63)%N, 3)
                  else
                    match s3 with
                    | EmptyString => (RuneError, 1)
                    | String c3 _ =>
                        if negb (isCont c3) then (RuneError, 1)
                        else ((N.land b0 7 * 262144 + N.land b1 63 * 4096
                               + N.land b2 63 * 64 + N.land (byte_val c3) 63)%N, 4)
                    end
              end
        end
  end.

(** [utf8.ValidRune(r)] *)
Definition ValidRune (r : N) : bool :=
  ((r <? 55296) || ((57343 <? r) && (r <=? 1114111)))%N.

(** ** What the library looks up in its Unicode tables *)

Record Unicode : Type := mkUnicode {
  (** [strconv.IsPrint] above U+00FF *)
  isPrintTable : N -> bool;
  (** [strings.Map(unicode.ToLower, s)], taken by [strings.ToLower] on a
      string that is not all ASCII *)
  mapToLower : string -> string
}.

Section WithUnicode.

Variable U : Unicode.

(** [strconv.IsPrint(r)] *)
Definition IsPrint (r : N) : bool :=
  if (r <=? 255)%N then
    if ((32 <=? r) && (r <=? 126))%N then true
    else if (161 <=? r)%N then negb (r =? 173)%N
    else false
  else isPrintTable U r.

Definition lowerhex (d : N) : ascii :=
  if (d <? 10)%N then ascii_of_N (48 + d) else ascii_of_N (87 + d).

(** The lowest [n] hexadecimal digits of [r], most significant first. *)
Fixpoint hex_digits (n : nat) (r : N) : string :=
  match n with
  | O => EmptyString
  | S n' =>
      String (lowerhex (N.land (N.shiftr r (4 * N.of_nat n')) 15))
             (hex_digits n' r)
  end.

(** [appendEscapedRune] of [strconv] for the double quote, neither ASCII-only
    nor graphic-only; [bytes] is the encoding of [r] as it stands in the
    source string, which [utf8.AppendRune] gives back for a decoded rune. *)
Definition appendEscapedRune (r : N) (bytes : string) : string :=
  if ((r =? 34) || (r =? 92))%N then backslash ++ String (ascii_of_N r) EmptyString
  else if IsPrint r then bytes
  else if (r =? 7)%N then backslash ++ "a"
  else if (r =? 8)%N then backslash ++ "b"
  else if (r =? 12)%N then backslash ++ "f"
  else if (r =? 10)%N then backslash ++ "n"
  else if (r =? 13)%N then backslash ++ "r"
  else if (r =? 9)%N then backslash ++ "t"
  else if (r =? 11)%N then backslash ++ "v"
  else if ((r <? 32) || (r =? 127))%N then backslash ++ "x" ++ hex_digits 2 r
  else
    let r' := if ValidRune r then r else RuneError in
    if (r' <? 65536)%N then backslash ++ "u" ++ hex_digits 4 r'
    else backslash ++ "U" ++ hex_digits 8 r'.

(** The loop of [appendQuotedWith]: one rune at a time; [skip] counts the
    bytes of the current rune still to pass over. *)
Fixpoint quote_loop (skip : nat) (s : string) : string :=
  match s with
  | EmptyString => EmptyString
  | String c s' =>
      match skip with
      | S k => quote_loop k s'
      | O =>
          let (r, width) := DecodeRuneInString s in
          (if Nat.eqb width 1 && (r =? RuneError)%N
           then backslash ++ "x" ++ hex_digits 2 (byte_val c)
           else appendEscapedRune r (substring 0 width s))
          ++ quote_loop (width - 1) s'
      end
  end.

(** [strconv.Quote(s)], the verb [%q] of [fmt] on a string. *)
Definition Quote (s : string) : string :=
  dquote ++ quote_loop 0 s ++ dquote.

(** ** Lower case *)

Fixpoint isASCII (s : string) : bool :=
  match s with
  | EmptyString => true
  | String c s' => (byte_val c <? 128)%N && isASCII s'
  end.

Definition lowerByte (c : ascii) : ascii :=
  if ((65 <=? byte_val c) && (byte_val c <=? 90))%N
  then ascii_of_N (byte_val c + 32) else c.

Fixpoint mapBytes (f : ascii -> ascii) (s : string) : string :=
  match s with
  | EmptyString => EmptyString
  | String c s' => String (f c) (mapBytes f s')
  end.

(** [strings.ToLower(s)] *)
Definition ToLower (s : string) : string :=
  if isASCII s then mapBytes lowerByte s else mapToLower U s.

End WithUnicode.

(** Tables for examples on ASCII text, where they are not consulted. *)
Definition no_tables : Unicode := mkUnicode (fun _ => false) (fun s => s).

(** ** Floating-point verbs *)

Definition digit_char (d : Z) : ascii := ascii_of_N (48 + Z.to_N d).

(** The decimal digits of a non-negative integer. *)
Definition int_digits (n : Z) : string :=
  DecimalString.NilEmpty.string_of_uint (N.to_uint (Z.to_N n)).

(** The last [p] decimal digits of [n], zero padded. *)
Fixpoint frac_digits (p : nat) (n : Z) : string :=
  match p with
  | O => EmptyString
  | S p' => String (digit_char ((n / 10 ^ Z.of_nat p') mod 10)) (frac_digits p' n)
  end.

(** [strconv.FormatFloat(x, 'f', prec, 64)] as [fmt] prints it for [%.3f]
    ([prec = 3]) and [%f] ([prec = 6]): the exact decimal expansion rounded
    to [prec] places, ties to even. *)
Definition FormatFloat (prec : nat) (x : F64.float64) : string :=
  match x with
  | F64.NaN => "NaN"
  | F64.Inf false => "+Inf"
  | F64.Inf true => "-Inf"
  | F64.Fin neg m =>
      let p10 := (10 ^ Z.of_nat prec)%Z in
      let n := (m * p10)%Z in
      let q := F64.rne (n / F64.unit_scale) (n mod F64.unit_scale)
                       F64.unit_scale in
      (if neg then "-" else "")
      ++ int_digits (q / p10)
      ++ match prec with
         | O => EmptyString
         | S _ => "." ++ frac_digits prec (q mod p10)
         end
  end.

End GoStr.

(* ================================================================== *)
(** * Segments and the Interval Merger *)
(* ================================================================== *)

(** [type Segment struct { Start float64; End float64 }]
    ([End] is reserved in Rocq, the field is [End_]). *)
Record Segment : Type := mkSegment {
  Start : F64.float64;
  End_ : F64.float64
}.

(** The comparison handed to [sort.Slice]:
    [segments[i].Start < segments[j].Start]. *)
Definition less (a b : Segment) : bool := F64.ltb (Start a) (Start b).

(** ** [sort.Slice]

    The library promises a permutation of the slice in which no later
    element is [less] than an earlier one, and leaves the order of equal
    elements open.  The promise needs [less] to be a strict weak order, which
    it is when no [Start] is NaN. *)
Definition sorter : Type := list Segment -> list Segment.

Definition ordered_by_start (l : list Segment) : Prop :=
  StronglySorted (fun a b => less b a = false) l.

Definition no_nan_start (l : list Segment) : Prop :=
  Forall (fun s => F64.isNaN (Start s) = false) l.

Definition sort_contract (srt : sorter) : Prop :=
  (forall l, Permutation l (srt l)) /\
  (forall l, no_nan_start l -> ordered_by_start (srt l)).

(** What the implementation of [sort.Slice] does beyond its promise, on a
    slice in which no element is [less] than an earlier one: every
    comparison it makes tells it that the two elements are in order, and it
    moves nothing.  (On up to 12 elements it runs the insertion sort below.
    On more, the pattern-defeating quicksort of Go 1.19 and later compares
    elements at increasing positions to choose a pivot, finds no pair out
    of order, and the partial insertion sort it then tries reaches the end
    of the slice without a swap.) *)
Definition keeps_order (srt : sorter) : Prop :=
  forall l, ordered_by_start l -> srt l = l.

Definition all_nan_start (l : list Segment) : Prop :=
  Forall (fun s => F64.isNaN (Start s) = true) l.

(** No element is [less] than the one in front of it. *)
Definition in_order (l : list Segment) : Prop :=
  Sorted (fun a b => less b a = false) l.

(** [b] does not merge into [a], and is not [less] than it. *)
Definition settled (a b : Segment) : Prop :=
  less b a = false /\ F64.leb (Start b) (F64.add (End_ a) F64.one) = false.

(** The insertion sort [sort.Slice] runs on short slices: element [i] moves
    left while it is [less] than its left neighbour.  The sorted prefix is
    kept reversed, nearest neighbour first. *)
Fixpoint insert_left (x : Segment) (rprefix : list Segment) : list Segment :=
  match rprefix with
  | [] => [x]
  | p :: rest => if less x p then p :: insert_left x rest else x :: rprefix
  end.

Definition insertionSort : sorter :=
  fun l => rev (fold_left (fun rprefix x => insert_left x rprefix) l []).

(** ** [mergeSegments] *)

Definition set_End (s : Segment) (e : F64.float64) : Segment :=
  mkSegment (Start s) e.

(** The loop [for i := 1; i < len(segments); i++] over the remaining
    elements, with the locals [merged] and [current]; its last statement is
    [merged = append(merged, current)]. *)
Fixpoint sweep (merged : list Segment) (current : Segment)
         (rest : list Segment) : list Segment :=
  match rest with
  | [] => merged ++ [current]
  | s :: rest' =>
      if F64.leb (Start s) (F64.add (End_ current) F64.one) then
        sweep merged
              (if F64.gtb (End_ s) (End_ current)
               then set_End current (End_ s) else current)
              rest'
      else
        sweep (merged ++ [current]) s rest'
  end.

(** [mergeSegments] on the contents of the slice.  [srt] is the effect of
    [sort.Slice]; it keeps the length, so [segments[0]] exists after it (the
    empty case of the inner match is Go's index panic and cannot be reached
    with a sorter that permutes). *)
Definition mergeSegments (srt : sorter) (segments : list Segment)
  : list Segment :=
  match segments with
  | [] => segments
  | _ :: _ =>
      match srt segments with
      | [] => []
      | first :: rest => sweep [] first rest
      end
  end.

(** The properties the Merger's output is meant to have. *)
Definition start_le_end (s : Segment) : Prop :=
  F64.leb (Start s) (End_ s) = true.

Definition valid_segment (s : Segment) : Prop :=
  F64.valid (Start s) = true /\ F64.valid (End_ s) = true.

(** [b.Start > a.End + 1.0] *)
Definition gap (a b : Segment) : Prop :=
  F64.gtb (Start b) (F64.add (End_ a) F64.one) = true.

(** [a.Start < b.Start] *)
Definition start_lt (a b : Segment) : Prop :=
  F64.ltb (Start a) (Start b) = true.

Definition seg (s_num s_den e_num e_den : Z) : Segment :=
  mkSegment (F64.of_ratio s_num s_den) (F64.of_ratio e_num e_den).

(* ================================================================== *)
(** * The Timestamp Converter *)
(* ================================================================== *)

(** Errors of the pipeline. *)
Inductive error : Type :=
| ErrOpen                          (* failed to open SRT file *)
| ErrParseTime (srtTime : string)  (* failed to parse SRT time *)
| ErrRead.                         (* error reading SRT file *)

Inductive result (A : Type) : Type :=
| Ok (a : A)
| Err (e : error).
Arguments Err {A}.

(** [time.Parse] with the layout [15:04:05.000], after the library's
    [Parse], [getnum], [skip], [parseNanoseconds] and [atoi].  The layout
    splits into the hour (one or two digits), a colon, the two-digit minute, a
    colon, the two-digit second and a fraction of exactly three digits after a
    period or comma; the value must end there. *)
Module GoTime.

Local Open Scope Z_scope.

Definition isDigit (c : ascii) : bool :=
  ((48 <=? N_of_ascii c) && (N_of_ascii c <=? 57))%N.

Definition digit (c : ascii) : Z := Z.of_N (N_of_ascii c) - 48.

(** [getnum(s, fixed)]: one or two leading digits, two when [fixed]. *)
Definition getnum (s : string) (fixed : bool) : option (Z * string) :=
  match s with
  | EmptyString => None
  | String a s1 =>
      if isDigit a then
        match s1 with
        | EmptyString => if fixed then None else Some (digit a, s1)
        | String b s2 =>
            if isDigit b then Some (digit a * 10 + digit b, s2)
            else if fixed then None else Some (digit a, s1)
        end
      else None
  end.

(** [skip(value, prefix)] for the one-byte prefix [:]. *)
Definition skip_colon (value : string) : option string :=
  match value with
  | String c rest => if Ascii.eqb c ":" then Some rest else None
  | EmptyString => None
  end.

(** [leadingInt(s)]: the value of the leading digits and the rest. *)
Fixpoint leadingInt (x : Z) (s : string) : Z * string :=
  match s with
  | String c s' => if isDigit c then leadingInt (x * 10 + digit c) s' else (x, s)
  | EmptyString => (x, s)
  end.

(** [atoi(s)]: an optional sign and digits to the end. *)
Definition atoi (s : string) : option Z :=
  let (neg, s') :=
    match s with
    | String c rest =>
        if Ascii.eqb c "-" then (true, rest)
        else if Ascii.eqb c "+" then (false, rest)
        else (false, s)
    | EmptyString => (false, s)
    end in
  match leadingInt 0 s' with
  | (q, EmptyString) => Some (if neg then - q else q)
  | (_, String _ _) => None
  end.

Inductive parse_failure : Type :=
| Malformed                     (* the value does not follow the layout *)
| OutOfRange (field : string).  (* hour, minute, second, fractional second *)

(** [parseNanoseconds(value, 4)] and the step past the four bytes. *)
Definition parse_fraction (value : string) : parse_failure + (Z * string) :=
  if (String.length value <? 4)%nat then inl Malformed
  else
    match value with
    | String c _ =>
        if Ascii.eqb c "." || Ascii.eqb c "," then
          match atoi (substring 1 3 value) with
          | None => inl Malformed
          | Some ns =>
              if ns <? 0 then inl (OutOfRange "fractional second")
              else inr (ns * 1000000,
                        substring 4 (String.length value - 4) value)
          end
        else inl Malformed
    | EmptyString => inl Malformed
    end.

(** The clock fields [Hour()], [Minute()], [Second()], [Nanosecond()] of the
    parsed time. *)
Record clock : Type := mkClock {
  Hour : Z; Minute : Z; Second : Z; Nanosecond : Z
}.

Definition Parse (value : string) : parse_failure + clock :=
  match getnum value false with
  | None => inl Malformed
  | Some (hour, value) =>
  if (hour <? 0) || (24 <=? hour) then inl (OutOfRange "hour") else
  match skip_colon value with
  | None => inl Malformed
  | Some value =>
  match getnum value true with
  | None => inl Malformed
  | Some (min, value) =>
  if (min <? 0) || (60 <=? min) then inl (OutOfRange "minute") else
  match skip_colon value with
  | None => inl Malformed
  | Some value =>
  match getnum value true with
  | None => inl Malformed
  | Some (sec, value) =>
  if (sec <? 0) || (60 <=? sec) then inl (OutOfRange "second") else
  match parse_fraction value with
  | inl e => inl e
  | inr (nsec, value) =>
  match value with
  | EmptyString => inr (mkClock hour min sec nsec)
  | String _ _ => inl Malformed   (* extra text *)
  end end end end end end end.

End GoTime.

(** [parseSRTTime(srtTime)] *)
Definition parseSRTTime (srtTime : string) : result F64.float64 :=
  let srtTime := GoStr.ReplaceFirstByte srtTime "," "." in
  match GoTime.Parse srtTime with
  | inl _ => Err (ErrParseTime srtTime)
  | inr d =>
      let seconds :=
        F64.add
          (F64.of_int (GoTime.Hour d * 3600 + GoTime.Minute d * 60
                       + GoTime.Second d))
          (F64.div (F64.of_int (GoTime.Nanosecond d)) (F64.of_int 1000000000))
      in
      Ok seconds
  end.

(* ================================================================== *)
(** * The Subtitle Block Scanner and the Interval Extractor *)
(* ================================================================== *)

(** The pattern
    [(\d{2}:\d{2}:\d{2},\d{3})\s*-->\s*(\d{2}:\d{2}:\d{2},\d{3})]:
    [\d] is an ASCII digit, [\s] one of tab, newline, form feed, carriage
    return and space.  The pattern is not anchored; the leftmost match
    counts.  After a timestamp the white space is taken greedily, which
    loses nothing since the arrow does not start with white space. *)
Module SrtPattern.

Definition isDigit (c : ascii) : bool := GoTime.isDigit c.

Definition isSpace (c : ascii) : bool :=
  let n := N_of_ascii c in
  ((n =? 9) || (n =? 10) || (n =? 12) || (n =? 13) || (n =? 32))%N.

(** [\d{2}:\d{2}:\d{2},\d{3}] at the head: the twelve bytes and the rest. *)
Definition match_timestamp (s : string) : option (string * string) :=
  match s with
  | String h1 (String h2 (String c1 (String m1 (String m2 (String c2
      (String s1 (String s2 (String cm (String f1 (String f2 (String f3
        rest))))))))))) =>
      if isDigit h1 && isDigit h2 && Ascii.eqb c1 ":"
         && isDigit m1 && isDigit m2 && Ascii.eqb c2 ":"
         && isDigit s1 && isDigit s2 && Ascii.eqb cm ","
         && isDigit f1 && isDigit f2 && isDigit f3
      then Some (substring 0 12 s, rest)
      else None
  | _ => None
  end.

Fixpoint skip_spaces (s : string) : string :=
  match s with
  | String c s' => if isSpace c then skip_spaces s' else s
  | EmptyString => s
  end.

Definition match_arrow (s : string) : option string :=
  match s with
  | String a (String b (String c rest)) =>
      if Ascii.eqb a "-" && Ascii.eqb b "-" && Ascii.eqb c ">"
      then Some rest else None
  | _ => None
  end.

(** The whole pattern at the head: the two groups. *)
Definition match_here (s : string) : option (string * string) :=
  match match_timestamp s with
  | None => None
  | Some (g1, r1) =>
      match match_arrow (skip_spaces r1) with
      | None => None
      | Some r2 =>
          match match_timestamp (skip_spaces r2) with
          | None => None
          | Some (g2, _) => Some (g1, g2)
          end
      end
  end.

(** [srtTimePattern.FindStringSubmatch(line)]: the groups [matches[1]] and
    [matches[2]] of the leftmost match ([matches] has three entries whenever
    there is a match), or nothing. *)
Fixpoint FindStringSubmatch (line : string) : option (string * string) :=
  match match_here line with
  | Some groups => Some groups
  | None =>
      match line with
      | EmptyString => None
      | String _ line' => FindStringSubmatch line'
      end
  end.

(** [srtTimePattern.MatchString(line)] *)
Definition MatchString (line : string) : bool :=
  match FindStringSubmatch line with
  | Some _ => true
  | None => false
  end.

End SrtPattern.

(** What [os.Open] and the [bufio.Scanner] deliver: the file cannot be
    opened, or the scanner yields [lines] one by one and then reports a read
    error or none. *)
Inductive source : Type :=
| Unreadable
| File (lines : list string) (read_error : bool).

(** The locals of [findSwearTimestamps], and what [app.log] (in the
    command-line program [fmt.Printf]) has been given so far. *)
Record scan : Type := mkScan {
  segments : list Segment;
  currentStart : F64.float64;
  currentEnd : F64.float64;
  inSubtitleBlock : bool;
  subtitleText : string;
  logged : list string
}.

Definition scan_init : scan :=
  mkScan [] F64.zero F64.zero false EmptyString [].

Section Extractor.

Import GoStr.
Local Open Scope string_scope.

Variable U : Unicode.
Variable swears : list string.
Variable offset : F64.float64.

(** [fmt.Sprintf("Warning: Offset %f makes segment (%f, %f) negative,
    skipping", offset, currentStart, currentEnd)] *)
Definition warning (start end_ : F64.float64) : string :=
  "Warning: Offset " ++ FormatFloat 6 offset ++ " makes segment ("
  ++ FormatFloat 6 start ++ ", " ++ FormatFloat 6 end_
  ++ ") negative, skipping".

(** The loop over [swears] at a blank line: a match with a negative adjusted
    boundary logs and does [continue], a match that is kept does [break]. *)
Fixpoint match_block (text : string) (start end_ : F64.float64)
         (terms : list string) (segs : list Segment) (log : list string)
  : list Segment * list string :=
  match terms with
  | [] => (segs, log)
  | swear :: rest =>
      let lowerSwear := ToLower U swear in
      if Contains text lowerSwear then
        let adjustedStart := F64.add start offset in
        let adjustedEnd := F64.add end_ offset in
        if F64.ltb adjustedStart F64.zero || F64.ltb adjustedEnd F64.zero
        then match_block text start end_ rest segs (log ++ [warning start end_])%list
        else ((segs ++ [mkSegment adjustedStart adjustedEnd])%list, log)
      else match_block text start end_ rest segs log
  end.

(** The loop over [swears] after the last line: the first match does
    [break], kept or not. *)
Fixpoint match_last_block (text : string) (start end_ : F64.float64)
         (terms : list string) (segs : list Segment) (log : list string)
  : list Segment * list string :=
  match terms with
  | [] => (segs, log)
  | swear :: rest =>
      let lowerSwear := ToLower U swear in
      if Contains text lowerSwear then
        let adjustedStart := F64.add start offset in
        let adjustedEnd := F64.add end_ offset in
        if F64.geb adjustedStart F64.zero && F64.geb adjustedEnd F64.zero
        then ((segs ++ [mkSegment adjustedStart adjustedEnd])%list, log)
        else (segs, (log ++ [warning start end_])%list)
      else match_last_block text start end_ rest segs log
  end.

(** One turn of [for scanner.Scan()]. *)
Definition scan_line (st : scan) (scanned : string) : result scan :=
  let line := TrimSpace scanned in
  if String.eqb line "" then
    if inSubtitleBlock st then
      let text := ToLower U (subtitleText st) in
      let (segs, log) :=
        match_block text (currentStart st) (currentEnd st) swears
                    (segments st) (logged st) in
      Ok (mkScan segs (currentStart st) (currentEnd st) false EmptyString log)
    else Ok st
  else if SrtPattern.MatchString line && negb (inSubtitleBlock st) then
    match SrtPattern.FindStringSubmatch line with
    | None => Ok st
    | Some (m1, m2) =>
        match parseSRTTime m1 with
        | Err e => Err e
        | Ok start =>
            match parseSRTTime m2 with
            | Err e => Err e
            | Ok end_ =>
                Ok (mkScan (segments st) start end_ true
                           (subtitleText st) (logged st))
            end
        end
    end
  else if inSubtitleBlock st then
    Ok (mkScan (segments st) (currentStart st) (currentEnd st) true
               (subtitleText st ++ (line ++ " ")) (logged st))
  else Ok st.

(** The loop; an error returns at once, with what was logged before. *)
Fixpoint scan_lines (st : scan) (lines : list string)
  : (error * list string) + scan :=
  match lines with
  | [] => inr st
  | l :: rest =>
      match scan_line st l with
      | Err e => inl (e, logged st)
      | Ok st' => scan_lines st' rest
      end
  end.

(** The block still open after the last line. *)
Definition finish (st : scan) : list Segment * list string :=
  if inSubtitleBlock st then
    let text := ToLower U (subtitleText st) in
    match_last_block text (currentStart st) (currentEnd st) swears
                     (segments st) (logged st)
  else (segments st, logged st).

(** [findSwearTimestamps(srtPath, swears, offset)]: the returned pair as a
    [result], and the lines logged. *)
Definition findSwearTimestamps (srt : source)
  : result (list Segment) * list string :=
  match srt with
  | Unreadable => (Err ErrOpen, [])
  | File lines read_error =>
      match scan_lines scan_init lines with
      | inl (e, log) => (Err e, log)
      | inr st =>
          if read_error then (Err ErrRead, logged st)
          else let (segs, log) := finish st in (Ok segs, log)
      end
  end.

(** The Vocabulary Matcher's decision on a lower-cased block text. *)
Definition matches (text : string) : bool :=
  existsb (fun swear => Contains text (ToLower U swear)) swears.

End Extractor.

(** The boundaries of the current block are finite numbers. *)
Definition finite_times (st : scan) : Prop :=
  F64.isFinite (currentStart st) = true /\ F64.isFinite (currentEnd st) = true.

(* ================================================================== *)
(** * The Mute Directive Generator *)
(* ================================================================== *)

Section Generator.

Import GoStr.
Local Open Scope string_scope.

Variable U : Unicode.

(** [fmt.Sprintf("between(t,%.3f,%.3f)", seg.Start, seg.End)] *)
Definition between (s : Segment) : string :=
  "between(t," ++ FormatFloat 3 (Start s) ++ "," ++ FormatFloat 3 (End_ s) ++ ")".

(** [generateFFmpegCommand(inputVideo, outputVideo, segments)] *)
Definition generateFFmpegCommand (inputVideo outputVideo : string)
           (segments : list Segment) : string :=
  match segments with
  | [] =>
      "No segments to mute. Copying input to output: ffmpeg -i "
      ++ Quote U inputVideo ++ " -c copy " ++ Quote U outputVideo
  | _ :: _ =>
      let enableConditions := map between segments in
      let enableExpr := Join enableConditions "+" in
      let filter := "volume=enable='" ++ enableExpr ++ "':volume=0" in
      "ffmpeg -i " ++ Quote U inputVideo ++ " -af " ++ Quote U filter
      ++ " -c:v copy -c:a aac " ++ Quote U outputVideo
  end.

End Generator.

(** [getVolumeFilter()] on the value of [app.lastCommand]. *)
Definition getVolumeFilter (lastCommand : string) : GoStr.outcome string :=
  let cmdStr := lastCommand in
  let start := GoStr.Index cmdStr "between(" in
  let end_ := GoStr.LastIndex cmdStr ")" in
  if ((start =? -1) || (end_ =? -1))%Z then GoStr.Returns EmptyString
  else GoStr.slice cmdStr start (end_ + 1).

(* ================================================================== *)
(** * Shapes of strings the claims speak of *)
(* ================================================================== *)

Module Shape.

Import GoStr.

(** A byte [%q] copies as it is: printable ASCII other than the double
    quote and the backslash. *)
Definition plain_char (c : ascii) : bool :=
  let n := byte_val c in
  ((32 <=? n) && (n <=? 126) && negb (n =? 34) && negb (n =? 92))%N.

Fixpoint all_plain (s : string) : bool :=
  match s with
  | EmptyString => true
  | String c s' => plain_char c && all_plain s'
  end.

Fixpoint is_digits (s : string) : bool :=
  match s with
  | EmptyString => true
  | String c s' => GoTime.isDigit c && is_digits s'
  end.

(** An optional minus sign, digits, a period and exactly three digits. *)
Definition three_decimals (s : string) : Prop :=
  exists sign int frac,
    s = (sign ++ int ++ "." ++ frac)%string /\
    (sign = EmptyString \/ sign = "-"%string) /\
    int <> EmptyString /\
    is_digits int = true /\
    is_digits frac = true /\
    String.length frac = 3.

(** How a [float64] that is not finite prints. *)
Definition non_finite_text (s : string) : Prop :=
  s = "NaN"%string \/ s = "+Inf"%string \/ s = "-Inf"%string.

(** A printable ASCII byte, space to tilde. *)
Definition printable_char (c : ascii) : bool :=
  ((32 <=? byte_val c) && (byte_val c <=? 126))%N.

Fixpoint all_printable (s : string) : bool :=
  match s with
  | EmptyString => true
  | String c s' => printable_char c && all_printable s'
  end.

(** The bytes of [s] with a backslash in front of every double quote and
    every backslash. *)
Fixpoint escape_quotes (s : string) : string :=
  match s with
  | EmptyString => EmptyString
  | String c s' =>
      if ((byte_val c =? 34) || (byte_val c =? 92))%N
      then String backslash_char (String c (escape_quotes s'))
      else String c (escape_quotes s')
  end.

(** The predicate of one interval, as the specification writes it:
    [between(t,<start>,<end>)]. *)
Definition range_predicate (s : Segment) : string :=
  ("between(t," ++ FormatFloat 3 (Start s) ++ ","
   ++ FormatFloat 3 (End_ s) ++ ")")%string.

(** The specification's [<expr>], written without [strings.Join]: the
    predicate of the first interval, then for every further interval in the
    given order a [+] and its predicate. *)
Definition enable_expression (segments : list Segment) : string :=
  match segments with
  | [] => EmptyString
  | s :: rest =>
      fold_left (fun expr s' => (expr ++ "+" ++ range_predicate s')%string)
                rest (range_predicate s)
  end.

End Shape.

(* ================================================================== *)
(** * Slices over shared backing arrays *)
(* ================================================================== *)

(** A Go slice is a header (array, offset, length) over a backing array that
    other headers may share.  [sort.Slice] swaps elements of that array in
    place; [append] to the nil slice [merged] allocates an array nobody else
    holds.  Capacity plays no part in [mergeSegments] and is left out. *)
Module Mem.

Definition addr : Type := nat.

Record slice : Type := mkSlice {
  array : addr;
  offset : nat;
  len : nat
}.

(** The store: backing array number [a] is element [a]. *)
Definition store : Type := list (list Segment).

Definition backing (st : store) (a : addr) : list Segment := nth a st [].

Definition elements (st : store) (sl : slice) : list Segment :=
  firstn (len sl) (skipn (offset sl) (backing st (array sl))).

Fixpoint update (st : store) (a : addr) (arr : list Segment) : store :=
  match st, a with
  | [], _ => []
  | _ :: tl, O => arr :: tl
  | x :: tl, S a' => x :: update tl a' arr
  end.

(** Write [l] over the window of [sl]. *)
Definition overwrite (st : store) (sl : slice) (l : list Segment) : store :=
  let arr := backing st (array sl) in
  update st (array sl)
         (firstn (offset sl) arr ++ l ++ skipn (offset sl + len sl) arr).

Definition in_bounds (st : store) (sl : slice) : Prop :=
  array sl < length st /\ offset sl + len sl <= length (backing st (array sl)).

(** State passing over the store. *)
Definition M (A : Type) : Type := store -> A * store.

Definition ret {A : Type} (a : A) : M A := fun st => (a, st).

Definition bind {A B : Type} (m : M A) (k : A -> M B) : M B :=
  fun st => let (a, st') := m st in k a st'.

Notation "x <- m ;; k" := (bind m (fun x => k))
  (at level 61, m at next level, right associativity).
Notation "m ;;; k" := (bind m (fun _ => k))
  (at level 61, right associativity).

Definition load (sl : slice) : M (list Segment) :=
  fun st => (elements st sl, st).

(** [sort.Slice(segments, less)] *)
Definition sortSlice (srt : sorter) (sl : slice) : M unit :=
  fun st => (tt, overwrite st sl (srt (elements st sl))).

(** The slice [merged] once the appends are done: a new array. *)
Definition alloc (l : list Segment) : M slice :=
  fun st => (mkSlice (length st) 0 (length l), st ++ [l]).

(** [mergeSegments] on a slice header, with its effect on the store.  The loop reads
    [segments[i]] after the sort and writes only to [merged] and to the local
    copy [current], so the elements are read once. *)
Definition mergeSegments_slice (srt : sorter) (segments : slice) : M slice :=
  if Nat.eqb (len segments) 0 then ret segments
  else
    sortSlice srt segments ;;;
    elems <- load segments ;;
    match elems with
    | [] => ret segments
    | first :: rest => alloc (sweep [] first rest)
    end.

End Mem.


(* ================================================================== *)
(** * Further parts of the program *)
(* ================================================================== *)

(** Neither boundary is NaN. *)
Definition no_nan (s : Segment) : Prop :=
  F64.isNaN (Start s) = false /\ F64.isNaN (End_ s) = false.

(** [o] mutes all that [s] mutes. *)
Definition covers (o s : Segment) : Prop :=
  F64.leb (Start o) (Start s) = true /\ F64.leb (End_ s) (End_ o) = true.

(** Neither boundary is below zero. *)
Definition not_negative (s : Segment) : Prop :=
  F64.geb (Start s) F64.zero = true /\ F64.geb (End_ s) F64.zero = true.

(** The scanned lines that match the timestamp pattern. *)
Definition timestamp_lines (lines : list string) : list string :=
  filter (fun l => SrtPattern.MatchString (GoStr.TrimSpace l)) lines.

(** The vocabulary terms the Matcher finds in a lower-cased block text. *)
Definition matching_terms (U : GoStr.Unicode) (text : string)
           (terms : list string) : list string :=
  filter (fun swear => GoStr.Contains text (GoStr.ToLower U swear)) terms.

(** [s] is the block of some timestamp line of [lines], shifted by
    [offset]. *)
Definition from_timestamp_line (offset : F64.float64) (lines : list string)
           (s : Segment) : Prop :=
  exists line m1 m2 start end_,
    In line lines /\
    SrtPattern.FindStringSubmatch (GoStr.TrimSpace line) = Some (m1, m2) /\
    parseSRTTime m1 = Ok start /\ parseSRTTime m2 = Ok end_ /\
    s = mkSegment (F64.add start offset) (F64.add end_ offset).

Definition bool_count (b : bool) : nat := if b then 1 else 0.

(** The timestamp [HH:MM:SS,mmm] written with two, two, two and three
    digits. *)
Definition two_digits (n : Z) : string :=
  String (GoStr.digit_char (n / 10))
         (String (GoStr.digit_char (n mod 10)) EmptyString).

Definition srt_timestamp (h m s ms : Z) : string :=
  (two_digits h ++ ":" ++ two_digits m ++ ":" ++ two_digits s ++ ","
   ++ GoStr.frac_digits 3 ms)%string.

(** The seconds the Converter computes from the clock fields. *)
Definition clock_seconds (h m s ms : Z) : F64.float64 :=
  F64.add (F64.of_int (h * 3600 + m * 60 + s))
          (F64.div (F64.of_int (ms * 1000000)) (F64.of_int 1000000000)).

(** No occurrence of [sub] starts inside [a] when [a] is followed by
    [b]. *)
Fixpoint clear_before (a b sub : string) : bool :=
  match a with
  | EmptyString => true
  | String c a' =>
      negb (GoStr.HasPrefix (a ++ b)%string sub) && clear_before a' b sub
  end.

(** The byte [x] occurs in [s]. *)
Fixpoint has_byte (x : ascii) (s : string) : bool :=
  match s with
  | EmptyString => false
  | String c s' => Ascii.eqb c x || has_byte x s'
  end.

(** ** More float64 operations *)

Module F64Ops.

Import F64.
Local Open Scope Z_scope.

(** [-x] *)
Definition neg (x : float64) : float64 :=
  match x with
  | NaN => NaN
  | Inf s => Inf (negb s)
  | Fin s m => Fin (negb s) m
  end.

(** [x - y] *)
Definition sub (x y : float64) : float64 := add x (neg y).

(** [x * y]; the product of two magnitudes counts units of [2^-2148]. *)
Definition mul (x y : float64) : float64 :=
  match x, y with
  | NaN, _ | _, NaN => NaN
  | Inf a, Inf b => Inf (xorb a b)
  | Inf a, Fin b m => if m =? 0 then NaN else Inf (xorb a b)
  | Fin a m, Inf b => if m =? 0 then NaN else Inf (xorb a b)
  | Fin s1 m1, Fin s2 m2 => mk (xorb s1 s2) (m1 * m2) unit_scale
  end.

End F64Ops.

(** ** Progress lines of FFmpeg *)

(** [strings.CutPrefix] *)
Fixpoint CutPrefix (s prefix : string) : option string :=
  match prefix, s with
  | EmptyString, _ => Some s
  | String p prefix', String c s' =>
      if Ascii.eqb p c then CutPrefix s' prefix' else None
  | String _ _, EmptyString => None
  end.

(** The longest prefix of ASCII digits. *)
Fixpoint digits_prefix (s : string) : string :=
  match s with
  | String c s' =>
      if GoTime.isDigit c then String c (digits_prefix s') else EmptyString
  | EmptyString => EmptyString
  end.

(** A match of [out_time_us=(\d+)] at the start of [s]: the digits. *)
Definition match_out_time_us (s : string) : option string :=
  match CutPrefix s "out_time_us=" with
  | Some rest =>
      match digits_prefix rest with
      | EmptyString => None
      | String c ds => Some (String c ds)
      end
  | None => None
  end.

(** [timeRegex.FindStringSubmatch(line)]: the group of the leftmost
    match. *)
Fixpoint find_out_time_us (line : string) : option string :=
  match match_out_time_us line with
  | Some ds => Some ds
  | None =>
      match line with
      | EmptyString => None
      | String _ rest => find_out_time_us rest
      end
  end.

(** [strconv.ParseInt(s, 10, 64)]; [None] is a syntax or a range error. *)
Definition ParseInt (s : string) : option Z :=
  match s with
  | EmptyString => None
  | String c rest =>
      let (neg, s') :=
        if Ascii.eqb c "+" then (false, rest)
        else if Ascii.eqb c "-" then (true, rest)
        else (false, s) in
      match s' with
      | EmptyString => None
      | String _ _ =>
          if Shape.is_digits s' then
            let un := fst (GoTime.leadingInt 0 s') in
            if neg then (if (2 ^ 63 <? un)%Z then None else Some (- un)%Z)
            else (if (2 ^ 63 <=? un)%Z then None else Some un)
          else None
      end
  end.

(** [parseFFmpegProgress(line)] *)
Definition parseFFmpegProgress (line : string) : F64.float64 * bool :=
  if GoStr.Contains line "out_time_us=" then
    match find_out_time_us line with
    | Some digits =>
        match ParseInt digits with
        | Some microseconds =>
            let seconds :=
              F64.div (F64.of_int microseconds) (F64.of_int 1000000) in
            (seconds, true)
        | None => (F64.zero, false)
        end
    | None => (F64.zero, false)
    end
  else (F64.zero, false).

(** What the progress reader of [executeFFmpeg] computes from a progress
    time: [percentage], [progressValue] and [remainingTime] as they are
    shown. *)
Definition progress_update (currentTime duration : F64.float64)
  : F64.float64 * F64.float64 * F64.float64 :=
  let percentage := F64Ops.mul (F64.div currentTime duration) (F64.of_int 100) in
  let percentage :=
    if F64.gtb percentage (F64.of_int 100) then F64.of_int 100 else percentage in
  let progressValue := F64.div percentage (F64.of_int 100) in
  let progressValue :=
    if F64.gtb progressValue F64.one then F64.one else progressValue in
  let remainingTime := F64Ops.sub duration currentTime in
  let remainingTime :=
    if F64.ltb remainingTime F64.zero then F64.zero else remainingTime in
  (percentage, progressValue, remainingTime).

(** ** File names

    [path/filepath] on a system whose separator is the slash and that has
    no volume names. *)

Module Filepath.

Definition isPathSeparator (c : ascii) : bool := Ascii.eqb c "/".

(** The loop that strips trailing slashes, on the reversed path. *)
Fixpoint strip_trailing (r : string) : string :=
  match r with
  | String c r' => if isPathSeparator c then strip_trailing r' else r
  | EmptyString => r
  end.

(** The loop that looks for the last separator, from the end: [r] is what
    is left of the reversed path, [acc] the bytes passed. *)
Fixpoint last_element (r acc : string) : string :=
  match r with
  | String c r' => if isPathSeparator c then acc else last_element r' (String c acc)
  | EmptyString => acc
  end.

(** [filepath.Base(path)] *)
Definition Base (path : string) : string :=
  match path with
  | EmptyString => "."
  | String _ _ =>
      match last_element (strip_trailing (GoStr.string_rev path)) EmptyString with
      | EmptyString => "/"
      | String c e => String c e
      end
  end.

(** The loop of [Ext], from the end: [path[i:]] at the first dot, nothing
    at a separator or at the start. *)
Fixpoint ext_scan (r acc : string) : string :=
  match r with
  | String c r' =>
      if isPathSeparator c then EmptyString
      else if Ascii.eqb c "." then String c acc
      else ext_scan r' (String c acc)
  | EmptyString => EmptyString
  end.

(** [filepath.Ext(path)] *)
Definition Ext (path : string) : string :=
  ext_scan (GoStr.string_rev path) EmptyString.

(** Bytes that are neither dots nor separators. *)
Fixpoint plain_name (s : string) : bool :=
  match s with
  | EmptyString => true
  | String c s' =>
      negb (Ascii.eqb c ".") && negb (isPathSeparator c) && plain_name s'
  end.

End Filepath.

(** [strings.HasSuffix(s, suffix)] *)
Definition HasSuffix (s suffix : string) : bool :=
  GoStr.HasPrefix (GoStr.string_rev s) (GoStr.string_rev suffix).

(** [strings.TrimSuffix(s, suffix)] *)
Definition TrimSuffix (s suffix : string) : string :=
  if HasSuffix s suffix
  then substring 0 (String.length s - String.length suffix) s
  else s.

Section AutoOutput.

(** [filepath.Dir] and [filepath.Join] are left to the library. *)
Variable Dir : string -> string.
Variable Join : string -> string -> string.

(** [generateAutoOutputPath()] on [app.videoPath], the text of
    [app.outputLabel] ([None] for a nil label) and [app.outputPath];
    returns the new [app.outputPath] and label text. *)
Definition generateAutoOutputPath (videoPath : string)
           (outputLabel : option string) (outputPath : string)
  : string * option string :=
  match outputLabel with
  | None => (outputPath, outputLabel)
  | Some _ =>
      if String.eqb videoPath "" then (outputPath, outputLabel)
      else
        let dir := Dir videoPath in
        let filename := Filepath.Base videoPath in
        let ext := Filepath.Ext filename in
        let nameWithoutExt := TrimSuffix filename ext in
        let cleanFilename := (nameWithoutExt ++ "-CLEAN.mp4")%string in
        (Join dir cleanFilename, Some ("Output: " ++ cleanFilename)%string)
  end.

End AutoOutput.

(** ** The vocabulary file *)

Inductive swears_error : Type :=
| ErrOpenSwears    (* failed to open swear file *)
| ErrReadSwears.   (* error reading swear file *)

(** [readSwearsFromFile(filePath)] on the file at [filePath]: the lines
    the scanner gives, and whether it stops on an error. *)
Definition readSwearsFromFile (file : source)
  : swears_error + list string :=
  match file with
  | Unreadable => inl ErrOpenSwears
  | File lines read_error =>
      let swears :=
        fold_left
          (fun swears scanned =>
             let swear := GoStr.TrimSpace scanned in
             if String.eqb swear "" then swears else (swears ++ [swear])%list)
          lines [] in
      if read_error then inl ErrReadSwears else inr swears
  end.

(** [s] begins with a white space character. *)
Definition starts_with_space (s : string) : bool :=
  match s with
  | EmptyString => false
  | String a s1 =>
      GoStr.isAsciiSpace a ||
      match s1 with
      | EmptyString => false
      | String b s2 =>
          GoStr.isSpace2 a b ||
          match s2 with
          | EmptyString => false
          | String c _ => GoStr.isSpace3 a b c
          end
      end
  end.

(** [s] ends with a white space character. *)
Definition ends_with_space (s : string) : bool :=
  match GoStr.string_rev s with
  | EmptyString => false
  | String a r1 =>
      GoStr.isAsciiSpace a ||
      match r1 with
      | EmptyString => false
      | String b r2 =>
          GoStr.isSpace2 b a ||
          match r2 with
          | EmptyString => false
          | String c _ => GoStr.isSpace3 c b a
          end
      end
  end.

(** ** Running the command *)

(** The number of newline bytes of [s]. *)
Fixpoint count_newlines (s : string) : Z :=
  match s with
  | EmptyString => 0
  | String c s' =>
      ((if Ascii.eqb c (ascii_of_nat 10) then 1 else 0) + count_newlines s')%Z
  end.

(** What [executeFFmpeg] reads and writes of the application: the paths
    and the last command, whether the progress spinner and the two buttons
    exist, the log area (its text and cursor row), whether the spinner is
    shown and whether the buttons are enabled.  The log area exists. *)
Record App : Type := mkApp {
  videoPath : string;
  outputPath : string;
  lastCommand : string;
  widgets : bool;
  logText : string;
  cursorRow : Z;
  progressBarShown : bool;
  processBtnEnabled : bool;
  executeBtnEnabled : bool
}.

(** [app.log(message)] *)
Definition log (app : App) (message : string) : App :=
  let current := logText app in
  let current :=
    if negb (String.eqb current "")
    then (current ++ String (ascii_of_nat 10) "")%string else current in
  let text := (current ++ message)%string in
  mkApp (videoPath app) (outputPath app) (lastCommand app) (widgets app)
        text (count_newlines text + 1)
        (progressBarShown app) (processBtnEnabled app) (executeBtnEnabled app).

Section Execute.

(** [os.IsNotExist] on the error of [os.Stat(path)], and [filepath.Dir]. *)
Variable notExist : string -> bool.
Variable Dir : string -> string.

(** [executeFFmpeg()] up to the line that logs the arguments: the
    application as it is when the function returns before that line, with
    [None], or as it is once [Running: ...] is logged, with [Some args],
    the arguments built there.  What the source does after that line is not
    part of this: it probes the duration, shows the progress widgets and
    starts a goroutine that hands [progressArgs args] to [exec.Command],
    and each of these steps can still keep FFmpeg from running.  [Some args]
    says that the arguments were built and logged, not that FFmpeg was
    started.  A panic of [getVolumeFilter] is a panic of
    [executeFFmpeg]. *)
Definition executeFFmpeg (app : App)
  : GoStr.outcome (App * option (list string)) :=
  if negb (widgets app) then
    GoStr.Returns (log app "Error: UI components not initialized", None)
  else if String.eqb (lastCommand app) "" then
    GoStr.Returns (log app "Error: No FFmpeg command to execute", None)
  else
    let app := log app (String (ascii_of_nat 10) "=== Executing FFmpeg Command ===") in
    let app := log app "Starting video processing..." in
    let app :=
      mkApp (videoPath app) (outputPath app) (lastCommand app) (widgets app)
            (logText app) (cursorRow app) true false false in
    if notExist (videoPath app) then
      GoStr.Returns
        (log app ("Error: Input video file does not exist: " ++ videoPath app),
         None)
    else
      let outputDir := Dir (outputPath app) in
      if notExist outputDir then
        GoStr.Returns
          (log app ("Error: Output directory does not exist: " ++ outputDir),
           None)
      else
        match getVolumeFilter (lastCommand app) with
        | GoStr.Panics => GoStr.Panics
        | GoStr.Returns volumeFilter =>
            if String.eqb volumeFilter "" then
              GoStr.Returns
                (log app "Error: Could not generate volume filter", None)
            else
              let args :=
                ["-i"; videoPath app;
                 "-af"; "volume=enable='" ++ volumeFilter ++ "':volume=0";
                 "-c:v"; "copy";
                 "-c:a"; "aac";
                 "-y";
                 outputPath app]%string in
              let app :=
                log app ("Running: ffmpeg " ++ GoStr.Join args " ") in
              GoStr.Returns (app, Some args)
        end.

End Execute.

(** The list the goroutine of [executeFFmpeg] builds for
    [exec.Command("ffmpeg", progressArgs...)]: [args[:len(args)-1]], then
    [-progress] and [pipe:1], then [args[len(args)-1]].  On an empty [args]
    the slice expression panics. *)
Definition progressArgs (args : list string) : GoStr.outcome (list string) :=
  match args with
  | [] => GoStr.Panics
  | _ :: _ =>
      GoStr.Returns
        (firstn (length args - 1) args
         ++ ["-progress"; "pipe:1"]%string
         ++ [nth (length args - 1) args EmptyString])%list
  end.

(* ================================================================== *)
(** * Facts about binary64 *)
(* ================================================================== *)

Module F64Facts.
Import F64.
Local Open Scope Z_scope.

Lemma unit_scale_pos : 0 < unit_scale.
Proof. unfold unit_scale, emin_bits. apply Z.pow_pos_nonneg; lia. Qed.

Lemma shift_nonneg n : 0 <= shift n.
Proof. unfold shift; lia. Qed.

Lemma shift_mono a b : 0 <= a <= b -> shift a <= shift b.
Proof.
  intros H. unfold shift.
  assert (Z.log2 a <= Z.log2 b) by (apply Z.log2_le_mono; lia). lia.
Qed.

Lemma rne_bounds q r d : q <= rne q r d <= q + 1.
Proof.
  unfold rne.
  destruct (2 * r <? d); [lia|].
  destruct (d <? 2 * r); [lia|].
  destruct (Z.even q); lia.
Qed.

Lemma rne_exact q d : 0 < d -> rne q 0 d = q.
Proof.
  intros Hd. unfold rne.
  destruct (Z.ltb_spec (2 * 0) d); lia.
Qed.

Lemma rne_mono d a b :
  0 < d -> a <= b ->
  rne (a / d) (a mod d) d <= rne (b / d) (b mod d) d.
Proof.
  intros Hd Hab.
  assert (Hq : a / d <= b / d) by (apply Z.div_le_mono; lia).
  destruct (Z.eq_dec (a / d) (b / d)) as [E|NE].
  - assert (Hr : a mod d <= b mod d).
    { pose proof (Z.div_mod a d ltac:(lia)).
      pose proof (Z.div_mod b d ltac:(lia)).
      rewrite E in *. nia. }
    rewrite E. unfold rne.
    destruct (Z.ltb_spec (2 * (a mod d)) d);
      destruct (Z.ltb_spec (2 * (b mod d)) d);
      destruct (Z.ltb_spec d (2 * (a mod d)));
      destruct (Z.ltb_spec d (2 * (b mod d)));
      destruct (Z.even (b / d)); lia.
  - pose proof (rne_bounds (a / d) (a mod d) d).
    pose proof (rne_bounds (b / d) (b mod d) d). lia.
Qed.

Lemma round_mag_int n :
  round_mag n 1 =
  rne (n / 2 ^ shift n) (n mod 2 ^ shift n) (2 ^ shift n) * 2 ^ shift n.
Proof.
  unfold round_mag. rewrite Z.div_1_r, Z.mul_1_l. reflexivity.
Qed.

Lemma round_mag_nonneg num den : 0 <= num -> 0 < den -> 0 <= round_mag num den.
Proof.
  intros Hn Hd. unfold round_mag.
  set (k := shift (num / den)).
  assert (0 < 2 ^ k) by (apply Z.pow_pos_nonneg; [lia | apply shift_nonneg]).
  assert (0 < den * 2 ^ k) by nia.
  pose proof (rne_bounds (num / (den * 2 ^ k)) (num mod (den * 2 ^ k)) (den * 2 ^ k)).
  assert (0 <= num / (den * 2 ^ k)) by (apply Z.div_pos; lia).
  nia.
Qed.

Lemma round_mag_mono a b :
  0 <= a <= b -> round_mag a 1 <= round_mag b 1.
Proof.
  intros Hab. rewrite !round_mag_int.
  pose proof (shift_mono Hab) as Hk.
  pose proof (shift_nonneg a) as Hka.
  set (ka := shift a) in *. set (kb := shift b) in *.
  assert (Hpa : 0 < 2 ^ ka) by (apply Z.pow_pos_nonneg; lia).
  assert (Hpb : 0 < 2 ^ kb) by (apply Z.pow_pos_nonneg; lia).
  destruct (Z.eq_dec ka kb) as [E|NE].
  - rewrite <- E.
    pose proof (@rne_mono (2 ^ ka) a b Hpa ltac:(lia)). nia.
  - assert (Hlt : ka + 1 <= kb) by lia.
    (* [a] lies below [2^(53+ka)], [b] at or above [2^(52+kb)] *)
    assert (Ha : a < 2 ^ 53 * 2 ^ ka).
    { rewrite <- Z.pow_add_r by lia.
      destruct (Z.eq_dec a 0) as [->|].
      - apply Z.pow_pos_nonneg; lia.
      - apply Z.log2_lt_pow2; [lia|]. subst ka. unfold shift. lia. }
    assert (Hb : 2 ^ 52 * 2 ^ kb <= b).
    { rewrite <- Z.pow_add_r by lia.
      assert (Hlb : kb = Z.log2 b - 52) by (subst kb ka; unfold shift in *; lia).
      assert (0 < b).
      { destruct (Z.eq_dec b 0) as [->|]; [|lia].
        subst kb ka. unfold shift in *. simpl in *. lia. }
      replace (52 + kb) with (Z.log2 b) by lia.
      apply Z.log2_spec; lia. }
    assert (Hqa : a / 2 ^ ka < 2 ^ 53)
      by (apply Z.div_lt_upper_bound; lia).
    assert (Hqb : 2 ^ 52 <= b / 2 ^ kb)
      by (apply Z.div_le_lower_bound; lia).
    pose proof (rne_bounds (a / 2 ^ ka) (a mod 2 ^ ka) (2 ^ ka)).
    pose proof (rne_bounds (b / 2 ^ kb) (b mod 2 ^ kb) (2 ^ kb)).
    assert (Hstep : 2 ^ 53 * 2 ^ ka <= 2 ^ 52 * 2 ^ kb).
    { replace kb with ((kb - ka - 1) + (ka + 1)) by lia.
      rewrite (Z.pow_add_r 2 (kb - ka - 1)) by lia.
      rewrite (Z.pow_add_r 2 ka 1) by lia.
      assert (0 < 2 ^ (kb - ka - 1)) by (apply Z.pow_pos_nonneg; lia).
      change (2 ^ 53) with (2 ^ 52 * 2). change (2 ^ 1) with 2.
      nia. }
    assert (rne (a / 2 ^ ka) (a mod 2 ^ ka) (2 ^ ka) * 2 ^ ka <= 2 ^ 53 * 2 ^ ka) by nia.
    assert (2 ^ 52 * 2 ^ kb <= rne (b / 2 ^ kb) (b mod 2 ^ kb) (2 ^ kb) * 2 ^ kb) by nia.
    lia.
Qed.

(** ** The order on non-NaN values *)

Lemma leb_not_nan x y : leb x y = true -> isNaN x = false /\ isNaN y = false.
Proof. destruct x, y; simpl; intros; try discriminate; auto. Qed.

Lemma ltb_not_nan x y : ltb x y = true -> isNaN x = false /\ isNaN y = false.
Proof. destruct x, y; simpl; intros; try discriminate; auto. Qed.

Ltac order_cases :=
  repeat match goal with
         | x : float64 |- _ => destruct x
         | b : bool |- _ => destruct b
         end;
  unfold sval in *; simpl in *;
  repeat match goal with
         | H : (_ <=? _) = true |- _ => apply Z.leb_le in H
         | H : (_ <=? _) = false |- _ => apply Z.leb_gt in H
         | H : (_ <? _) = true |- _ => apply Z.ltb_lt in H
         | H : (_ <? _) = false |- _ => apply Z.ltb_ge in H
         end;
  try discriminate; try reflexivity;
  try (apply Z.leb_le; lia); try (apply Z.ltb_lt; lia);
  try (apply Z.leb_gt; lia); try (apply Z.ltb_ge; lia).

Lemma leb_refl x : isNaN x = false -> leb x x = true.
Proof. intros. order_cases. Qed.

Lemma leb_trans x y z : leb x y = true -> leb y z = true -> leb x z = true.
Proof. intros. order_cases. Qed.

Lemma ltb_leb x y : ltb x y = true -> leb x y = true.
Proof. intros. order_cases. Qed.

Lemma ltb_leb_trans x y z : ltb x y = true -> leb y z = true -> ltb x z = true.
Proof. intros. order_cases. Qed.

Lemma leb_ltb_trans x y z : leb x y = true -> ltb y z = true -> ltb x z = true.
Proof. intros. order_cases. Qed.

Lemma ltb_trans x y z : ltb x y = true -> ltb y z = true -> ltb x z = true.
Proof. intros. order_cases. Qed.

Lemma ltb_irrefl x : ltb x x = false.
Proof. order_cases. Qed.

(** On non-NaN values [!(x <= y)] is [y < x]. *)
Lemma leb_false_ltb x y :
  isNaN x = false -> isNaN y = false -> leb x y = false -> ltb y x = true.
Proof. intros. order_cases. Qed.

Lemma ltb_false_leb x y :
  isNaN x = false -> isNaN y = false -> ltb x y = false -> leb y x = true.
Proof. intros. order_cases. Qed.

Lemma ltb_true_leb_false x y : ltb x y = true -> leb y x = false.
Proof. intros. order_cases. Qed.

Lemma leb_true_ltb_false x y : leb x y = true -> ltb y x = false.
Proof. intros. order_cases. Qed.

(** ** Adding one never decreases a value *)

Lemma valid_mag_spec m :
  valid_mag m = true -> 0 <= m /\ m < overflow_threshold /\ round_mag m 1 = m.
Proof.
  unfold valid_mag. intros H.
  apply andb_true_iff in H as [H H3]. apply andb_true_iff in H as [H1 H2].
  apply Z.leb_le in H1. apply Z.ltb_lt in H2. apply Z.eqb_eq in H3. auto.
Qed.

Lemma mk_pos_ge m n :
  0 <= m -> Z.le m (round_mag n 1) -> leb (Fin false m) (mk false n 1) = true.
Proof.
  intros Hm Hle. unfold mk; cbv zeta.
  destruct (overflow_threshold <=? round_mag n 1); simpl; [reflexivity|].
  apply Z.leb_le. lia.
Qed.

Lemma add_one_ge x :
  valid x = true -> isNaN x = false -> leb x (add x one) = true.
Proof.
  destruct x as [|s|s m]; simpl; intros Hv Hn; try discriminate.
  - destruct s; reflexivity.
  - apply valid_mag_spec in Hv as (H0 & Hov & Hfix).
    pose proof unit_scale_pos as Hu.
    destruct s; unfold sval; cbv beta iota.
    + (* negative *)
      destruct (Z.eqb_spec (- m + unit_scale) 0) as [E|NE].
      * simpl. apply Z.leb_le. lia.
      * destruct (Z.ltb_spec (- m + unit_scale) 0) as [L|G].
        -- unfold mk; cbv zeta.
           assert (Hr : round_mag (Z.abs (- m + unit_scale)) 1 <= m).
           { rewrite <- Hfix at 2. apply round_mag_mono. lia. }
           assert (Hr0 : 0 <= round_mag (Z.abs (- m + unit_scale)) 1)
             by (apply round_mag_nonneg; lia).
           destruct (Z.leb_spec overflow_threshold
                       (round_mag (Z.abs (- m + unit_scale)) 1)); [lia|].
           simpl. apply Z.leb_le. lia.
        -- unfold mk; cbv zeta.
           assert (Hr0 : 0 <= round_mag (Z.abs (- m + unit_scale)) 1)
             by (apply round_mag_nonneg; lia).
           destruct (overflow_threshold <=? round_mag (Z.abs (- m + unit_scale)) 1);
             simpl; [reflexivity|]. apply Z.leb_le. lia.
    + (* non-negative *)
      destruct (Z.eqb_spec (m + unit_scale) 0) as [E|NE]; [lia|].
      destruct (Z.ltb_spec (m + unit_scale) 0) as [L|G]; [lia|].
      apply mk_pos_ge; [lia|].
      rewrite <- Hfix at 1. apply round_mag_mono. lia.
Qed.

(** ** Small values stay finite *)

Lemma round_mag_upper num den :
  0 <= num -> 0 < den -> round_mag num den <= 2 * (num / den) + 1.
Proof.
  intros Hn Hd. unfold round_mag.
  set (q0 := num / den).
  assert (Hq0 : 0 <= q0) by (apply Z.div_pos; lia).
  pose proof (shift_nonneg q0) as Hk.
  set (k := shift q0) in *.
  assert (Hp : 0 < 2 ^ k) by (apply Z.pow_pos_nonneg; lia).
  pose proof (rne_bounds (num / (den * 2 ^ k)) (num mod (den * 2 ^ k))
                         (den * 2 ^ k)) as Hr.
  assert (Hdd : num / (den * 2 ^ k) = q0 / 2 ^ k)
    by (unfold q0; rewrite Z.div_div by lia; reflexivity).
  rewrite Hdd in *.
  assert (Hfl : q0 / 2 ^ k * 2 ^ k <= q0).
  { pose proof (Z.mul_div_le q0 (2 ^ k) Hp). lia. }
  assert (Hpk : 2 ^ k <= q0 + 1).
  { destruct (Z.eq_dec k 0) as [->|Hnz]; [simpl; lia|].
    assert (Hlog : k = Z.log2 q0 - 52) by (subst k; unfold shift in *; lia).
    assert (0 < q0).
    { destruct (Z.eq_dec q0 0) as [E|]; [|lia].
      rewrite E in Hlog. simpl in Hlog. lia. }
    assert (2 ^ k <= 2 ^ Z.log2 q0) by (apply Z.pow_le_mono_r; lia).
    pose proof (Z.log2_spec q0 ltac:(lia)). lia. }
  nia.
Qed.

Lemma overflow_threshold_eq : overflow_threshold = 2 ^ 1024 * unit_scale.
Proof.
  unfold overflow_threshold, unit_scale, emin_bits.
  rewrite Z.pow_add_r by lia. reflexivity.
Qed.

Lemma below_overflow b :
  b < 2 ^ 40 * unit_scale -> b < overflow_threshold.
Proof.
  intros H. rewrite overflow_threshold_eq.
  pose proof unit_scale_pos.
  assert (2 ^ 40 * unit_scale <= 2 ^ 1024 * unit_scale).
  { apply Z.mul_le_mono_nonneg_r; [lia|]. apply Z.pow_le_mono_r; lia. }
  lia.
Qed.

Lemma mk_small s num den B :
  0 <= num -> 0 < den -> num / den <= B ->
  2 * B + 1 < 2 ^ 40 * unit_scale ->
  exists m, mk s num den = Fin s m /\ 0 <= m <= 2 * B + 1.
Proof.
  intros Hn Hd HB Hov.
  pose proof (round_mag_upper Hn Hd) as Hup.
  pose proof (round_mag_nonneg Hn Hd) as Hlo.
  exists (round_mag num den). split; [|lia].
  unfold mk; cbv zeta.
  destruct (Z.leb_spec overflow_threshold (round_mag num den)) as [Hle|]; [|reflexivity].
  assert (round_mag num den < overflow_threshold) by (apply below_overflow; lia).
  lia.
Qed.

Lemma of_int_small n :
  0 <= n < 2 ^ 32 ->
  exists m, of_int n = Fin false m /\ 0 <= m <= 2 * (n * unit_scale) + 1.
Proof.
  intros Hn. pose proof unit_scale_pos as Hu. unfold of_int.
  destruct (Z.ltb_spec n 0); [lia|].
  rewrite Z.abs_eq by lia.
  assert (Hb : n * unit_scale <= 2 ^ 32 * unit_scale)
    by (apply Z.mul_le_mono_nonneg_r; lia).
  apply mk_small.
  - lia.
  - lia.
  - rewrite Z.div_1_r. lia.
  - change (2 ^ 40) with (2 ^ 32 * 256). lia.
Qed.

Lemma add_finite_not_nan x y :
  isFinite x = true -> isNaN y = false -> isNaN (add x y) = false.
Proof.
  destruct x as [| |s1 m1]; try discriminate.
  destruct y as [|b|s2 m2]; try discriminate; intros _ _; simpl; [reflexivity|].
  destruct (_ =? 0); [reflexivity|].
  unfold mk. destruct (_ <=? _); reflexivity.
Qed.

Lemma not_nan_sign x :
  isNaN x = false -> geb x zero = true \/ ltb x zero = true.
Proof.
  intros H. unfold geb.
  destruct (ltb x zero) eqn:E; [right; reflexivity|left].
  apply ltb_false_leb; [exact H|reflexivity|exact E].
Qed.

End F64Facts.

(* ================================================================== *)
(** * The Interval Merger *)
(* ================================================================== *)

Section SweepFacts.
Import F64 F64Facts.

(** The sweep as a list builder: the closed-out intervals in front, the
    running one last. *)
Fixpoint sweep_from (current : Segment) (rest : list Segment) : list Segment :=
  match rest with
  | [] => [current]
  | s :: rest' =>
      if leb (Start s) (add (End_ current) one) then
        sweep_from (if gtb (End_ s) (End_ current)
                    then set_End current (End_ s) else current) rest'
      else current :: sweep_from s rest'
  end.

Lemma sweep_acc merged current rest :
  sweep merged current rest = merged ++ sweep_from current rest.
Proof.
  revert merged current.
  induction rest as [|s rest IH]; intros merged current; simpl.
  - reflexivity.
  - destruct (leb (Start s) (add (End_ current) one)).
    + apply IH.
    + rewrite IH, <- app_assoc. reflexivity.
Qed.

Lemma sweep_from_head current rest :
  exists c tl, sweep_from current rest = c :: tl /\ Start c = Start current.
Proof.
  revert current.
  induction rest as [|s rest IH]; intros current; simpl.
  - eauto.
  - destruct (leb (Start s) (add (End_ current) one)).
    + destruct (IH (if gtb (End_ s) (End_ current)
                    then set_End current (End_ s) else current))
        as (c & tl & E & Hc).
      exists c, tl. split; [exact E|].
      rewrite Hc. destruct (gtb (End_ s) (End_ current)); reflexivity.
    + eauto.
Qed.

Lemma add_one_not_nan x : isNaN x = false -> isNaN (add x one) = false.
Proof.
  destruct x as [|s|s m]; simpl; intros H; try discriminate; try reflexivity.
  destruct (_ =? 0)%Z; [reflexivity|].
  unfold mk. destruct (_ <=? _)%Z; reflexivity.
Qed.

Lemma start_le_end_not_nan s :
  start_le_end s -> isNaN (Start s) = false /\ isNaN (End_ s) = false.
Proof. apply leb_not_nan. Qed.

(** Merging keeps [Start <= End]: the end of [current] only grows. *)
Lemma merge_step_le current s :
  start_le_end current -> start_le_end s ->
  start_le_end (if gtb (End_ s) (End_ current)
                then set_End current (End_ s) else current).
Proof.
  intros Hc Hs. unfold gtb.
  destruct (ltb (End_ current) (End_ s)) eqn:E; [|exact Hc].
  unfold start_le_end, set_End; simpl.
  eapply leb_trans; [exact Hc|]. apply ltb_leb, E.
Qed.

Lemma merge_step_valid current s :
  valid_segment current -> valid_segment s ->
  valid_segment (if gtb (End_ s) (End_ current)
                 then set_End current (End_ s) else current).
Proof.
  intros [Hc1 Hc2] [Hs1 Hs2].
  destruct (gtb (End_ s) (End_ current)); split; simpl; assumption.
Qed.

Lemma sweep_from_le current rest :
  start_le_end current -> Forall start_le_end rest ->
  Forall start_le_end (sweep_from current rest).
Proof.
  revert current.
  induction rest as [|s rest IH]; intros current Hc Hr; simpl.
  - constructor; [exact Hc|constructor].
  - inversion Hr as [|? ? Hs Hr']; subst.
    destruct (leb (Start s) (add (End_ current) one)).
    + apply IH; [apply merge_step_le|]; assumption.
    + constructor; [exact Hc|]. apply IH; assumption.
Qed.

Lemma sweep_from_valid current rest :
  valid_segment current -> Forall valid_segment rest ->
  Forall valid_segment (sweep_from current rest).
Proof.
  revert current.
  induction rest as [|s rest IH]; intros current Hc Hr; simpl.
  - constructor; [exact Hc|constructor].
  - inversion Hr as [|? ? Hs Hr']; subst.
    destruct (leb (Start s) (add (End_ current) one)).
    + apply IH; [apply merge_step_valid|]; assumption.
    + constructor; [exact Hc|]. apply IH; assumption.
Qed.

(** Consecutive output intervals are more than a second apart. *)
Lemma sweep_from_gap current rest :
  start_le_end current -> Forall start_le_end rest ->
  Sorted gap (sweep_from current rest).
Proof.
  revert current.
  induction rest as [|s rest IH]; intros current Hc Hr; simpl.
  - repeat constructor.
  - inversion Hr as [|? ? Hs Hr']; subst.
    destruct (leb (Start s) (add (End_ current) one)) eqn:E.
    + apply IH; [apply merge_step_le|]; assumption.
    + constructor; [apply IH; assumption|].
      destruct (sweep_from_head s rest) as (c & tl & Eq & Hst).
      rewrite Eq. constructor. unfold gap, gtb. rewrite Hst.
      apply leb_false_ltb; [| |exact E].
      * apply (start_le_end_not_nan Hs).
      * apply add_one_not_nan, (start_le_end_not_nan Hc).
Qed.

(** With [Start <= End] everywhere, a gap makes the starts increase. *)
Lemma gap_start_lt a b :
  valid_segment a -> start_le_end a -> gap a b -> start_lt a b.
Proof.
  intros [_ Hv] Hle Hg. unfold start_lt, gap, gtb in *.
  eapply leb_ltb_trans; [|exact Hg].
  eapply leb_trans; [exact Hle|].
  apply add_one_ge; [exact Hv|]. apply (start_le_end_not_nan Hle).
Qed.

Lemma gaps_strictly_ordered l :
  Forall valid_segment l -> Forall start_le_end l ->
  Sorted gap l -> StronglySorted start_lt l.
Proof.
  induction l as [|a l IH]; intros Hv Hle Hg.
  - constructor.
  - inversion Hv as [|? ? Hva Hvl]; subst.
    inversion Hle as [|? ? Hla Hll]; subst.
    inversion Hg as [|? ? Hgl Hhd]; subst.
    specialize (IH Hvl Hll Hgl).
    constructor; [exact IH|].
    destruct l as [|b l]; [constructor|].
    inversion Hhd as [|? ? Hab]; subst.
    pose proof (gap_start_lt Hva Hla Hab) as Hlt.
    constructor; [exact Hlt|].
    inversion IH as [|? ? _ Hall]; subst.
    eapply Forall_impl; [|exact Hall].
    intros c Hbc. unfold start_lt in *. eapply ltb_trans; eassumption.
Qed.

(** An output with gaps is swept to itself. *)
Lemma sweep_from_fixed current rest :
  Sorted gap (current :: rest) -> sweep_from current rest = current :: rest.
Proof.
  revert current.
  induction rest as [|s rest IH]; intros current Hg; simpl.
  - reflexivity.
  - inversion Hg as [|? ? Hs Hhd]; subst.
    inversion Hhd as [|? ? Hab]; subst.
    unfold gap, gtb in Hab. rewrite (ltb_true_leb_false _ _ Hab).
    f_equal. apply IH, Hs.
Qed.

End SweepFacts.

Section SortFacts.
Import F64 F64Facts.

(** A list whose starts strictly increase has one ordered arrangement. *)
Lemma strictly_ordered_unique l l' :
  StronglySorted start_lt l -> Permutation l l' -> ordered_by_start l' ->
  l' = l.
Proof.
  revert l'.
  induction l as [|a l IH]; intros l' Hs Hp Ho.
  - apply Permutation_nil in Hp. exact Hp.
  - destruct l' as [|b l'].
    { apply Permutation_sym, Permutation_nil in Hp. discriminate. }
    inversion Hs as [|? ? Hsl Hall]; subst.
    inversion Ho as [|? ? Hol Hall']; subst.
    assert (Hab : b = a).
    { assert (Hin : In b (a :: l))
        by (eapply Permutation_in; [apply Permutation_sym, Hp|left; reflexivity]).
      destruct Hin as [E|Hin]; [symmetry; exact E|].
      assert (Hin' : In a (b :: l'))
        by (eapply Permutation_in; [exact Hp|left; reflexivity]).
      destruct Hin' as [E|Hin']; [exact E|].
      rewrite Forall_forall in Hall, Hall'.
      specialize (Hall _ Hin). specialize (Hall' _ Hin').
      unfold start_lt in Hall. unfold less in Hall'. congruence. }
    subst b. f_equal. apply IH; [exact Hsl| |exact Hol].
    eapply Permutation_cons_inv, Hp.
Qed.

Lemma insert_left_perm x rp : Permutation (x :: rp) (insert_left x rp).
Proof.
  induction rp as [|p rp IH]; simpl.
  - reflexivity.
  - destruct (less x p); [|reflexivity].
    rewrite perm_swap. constructor. exact IH.
Qed.

Lemma insertionSort_perm l : Permutation l (insertionSort l).
Proof.
  unfold insertionSort.
  assert (G : forall acc,
             Permutation (rev acc ++ l)
               (rev (fold_left (fun rp x => insert_left x rp) l acc))).
  { induction l as [|x l IH]; intros acc; simpl.
    - rewrite app_nil_r. reflexivity.
    - rewrite <- IH.
      transitivity (rev (x :: acc) ++ l).
      + simpl. rewrite <- app_assoc. reflexivity.
      + apply Permutation_app_tail.
        rewrite <- !Permutation_rev. apply insert_left_perm. }
  apply (G []).
Qed.

(** The reversed prefix is ordered when no element is [less] than one
    further on (that is, earlier in the slice). *)
Definition rev_ordered (rp : list Segment) : Prop :=
  StronglySorted (fun a b => less a b = false) rp.

Lemma insert_left_ordered x rp :
  isNaN (Start x) = false -> no_nan_start rp ->
  rev_ordered rp -> rev_ordered (insert_left x rp).
Proof.
  intros Hx Hn Hs.
  induction rp as [|p rp IH]; simpl.
  - repeat constructor.
  - inversion Hs as [|? ? Hsr Hall]; subst.
    inversion Hn as [|? ? Hp Hnr]; subst.
    destruct (less x p) eqn:E.
    + constructor; [apply IH; assumption|].
      (* [p] is not less than [x] nor than the rest *)
      assert (Hin : forall y, In y (insert_left x rp) -> less p y = false).
      { intros y Hy.
        apply (Permutation_in _ (Permutation_sym (insert_left_perm x rp))) in Hy.
        destruct Hy as [<-|Hy].
        - unfold less in *. apply leb_true_ltb_false, ltb_leb, E.
        - rewrite Forall_forall in Hall. apply Hall, Hy. }
      apply Forall_forall. exact Hin.
    + constructor; [exact Hs|].
      constructor; [exact E|].
      (* [x >= p >= every later element] *)
      apply Forall_forall. intros y Hy.
      rewrite Forall_forall in Hall, Hnr.
      specialize (Hall _ Hy). specialize (Hnr _ Hy).
      unfold less in *.
      apply leb_true_ltb_false.
      apply leb_trans with (y := Start p).
      * apply ltb_false_leb; assumption.
      * apply ltb_false_leb; assumption.
Qed.

Lemma strongly_sorted_app (R : Segment -> Segment -> Prop) l x :
  StronglySorted R l -> Forall (fun y => R y x) l -> StronglySorted R (l ++ [x]).
Proof.
  induction l as [|a l IH]; intros Hs Hall; simpl.
  - repeat constructor.
  - inversion Hs; subst. inversion Hall; subst.
    constructor; [apply IH; assumption|].
    apply Forall_app. split; [assumption|]. repeat constructor. assumption.
Qed.

Lemma rev_ordered_rev rp : rev_ordered rp -> ordered_by_start (rev rp).
Proof.
  induction rp as [|a rp IH]; intros Hs; simpl.
  - constructor.
  - inversion Hs as [|? ? Hsr Hall]; subst.
    apply strongly_sorted_app; [apply IH, Hsr|].
    apply Forall_rev. exact Hall.
Qed.

Lemma insertionSort_ordered l : no_nan_start l -> ordered_by_start (insertionSort l).
Proof.
  intros Hn. unfold insertionSort. apply rev_ordered_rev.
  assert (G : forall acc, no_nan_start acc -> rev_ordered acc ->
              rev_ordered (fold_left (fun rp x => insert_left x rp) l acc)).
  { induction l as [|x l IH]; intros acc Ha Hs; simpl.
    - exact Hs.
    - inversion Hn as [|? ? Hx Hl]; subst.
      apply IH; [exact Hl| |apply insert_left_ordered; assumption].
      unfold no_nan_start.
      eapply Permutation_Forall; [apply insert_left_perm|].
      constructor; assumption. }
  apply G; constructor.
Qed.

Lemma insertionSort_contract : sort_contract insertionSort.
Proof.
  split; [apply insertionSort_perm|apply insertionSort_ordered].
Qed.

End SortFacts.

(** ** The insertion sort and the sweep on any slice *)

Section InsertionFacts.
Import F64 F64Facts.

Lemma less_asym x y : less x y = true -> less y x = false.
Proof. unfold less. intros H. apply leb_true_ltb_false, ltb_leb, H. Qed.

(** The reversed prefix, nearest neighbour first. *)
Definition rev_in_order (rp : list Segment) : Prop :=
  Sorted (fun a b => less a b = false) rp.

Lemma insert_left_in_order x rp :
  rev_in_order rp -> rev_in_order (insert_left x rp).
Proof.
  intros Hs. induction rp as [|p rp IH]; cbn [insert_left].
  - repeat constructor.
  - inversion Hs as [|? ? Hsr Hhd]; subst.
    destruct (less x p) eqn:E.
    + constructor; [apply IH, Hsr|].
      destruct rp as [|q rp]; cbn [insert_left].
      * constructor. apply less_asym, E.
      * inversion Hhd as [|? ? Hpq]; subst.
        destruct (less x q); constructor; [exact Hpq|apply less_asym, E].
    + constructor; [exact Hs|]. constructor. exact E.
Qed.

Lemma sorted_snoc (R : Segment -> Segment -> Prop) l x :
  Sorted R l -> (forall y, last l x = y -> l <> [] -> R y x) ->
  Sorted R (l ++ [x]).
Proof.
  intros Hs Hl. induction l as [|a l IH]; cbn [app].
  - repeat constructor.
  - inversion Hs as [|? ? Hsl Hhd]; subst.
    constructor.
    + apply IH; [exact Hsl|].
      intros y Hy Hne. apply Hl; [|discriminate].
      destruct l; [contradiction|exact Hy].
    + destruct l as [|b l]; cbn [app].
      * constructor. apply Hl; [reflexivity|discriminate].
      * inversion Hhd; subst. constructor. assumption.
Qed.

Lemma last_rev_cons (a : Segment) l d : last (rev (a :: l)) d = a.
Proof. cbn [rev]. apply last_last. Qed.

Lemma rev_in_order_rev rp : rev_in_order rp -> in_order (rev rp).
Proof.
  intros Hs. induction rp as [|a rp IH]; [constructor|].
  inversion Hs as [|? ? Hsr Hhd]; subst.
  cbn [rev]. apply sorted_snoc; [apply IH, Hsr|].
  intros y Hy Hne.
  destruct rp as [|b rp]; [contradiction Hne; reflexivity|].
  rewrite last_rev_cons in Hy. subst y.
  inversion Hhd; subst. assumption.
Qed.

(** Insertion sort leaves no element [less] than the one in front of it,
    whatever the slice holds. *)
Lemma insertionSort_in_order l : in_order (insertionSort l).
Proof.
  unfold insertionSort. apply rev_in_order_rev.
  assert (G : forall acc, rev_in_order acc ->
              rev_in_order (fold_left (fun rp x => insert_left x rp) l acc)).
  { induction l as [|x l IH]; intros acc Ha; cbn [fold_left]; [exact Ha|].
    apply IH, insert_left_in_order, Ha. }
  apply G. constructor.
Qed.

Lemma sorted_middle (R : Segment -> Segment -> Prop) l1 a b l2 :
  Sorted R (l1 ++ a :: b :: l2) -> R a b.
Proof.
  induction l1 as [|x l1 IH]; cbn [app]; intros H.
  - inversion H as [|? ? _ Hhd]; subst. inversion Hhd; subst. assumption.
  - inversion H; subst. apply IH. assumption.
Qed.

(** On a slice in which no element is [less] than the one in front of it
    insertion sort swaps nothing. *)
Lemma insertionSort_keeps l : in_order l -> insertionSort l = l.
Proof.
  intros Hl. unfold insertionSort.
  assert (G : forall l acc, in_order (rev acc ++ l) ->
              fold_left (fun rp x => insert_left x rp) l acc = (rev l ++ acc)%list).
  { clear. induction l as [|x l IH]; intros acc H; cbn [fold_left]; [reflexivity|].
    assert (E : insert_left x acc = x :: acc).
    { destruct acc as [|p acc]; [reflexivity|].
      cbn [insert_left]. cbn [rev] in H. rewrite <- app_assoc in H.
      cbn [app] in H. apply sorted_middle in H. rewrite H. reflexivity. }
    rewrite E, IH.
    - cbn [rev]. rewrite <- app_assoc. reflexivity.
    - cbn [rev]. rewrite <- app_assoc. exact H. }
  rewrite (G l []); [|exact Hl].
  rewrite app_nil_r. apply rev_involutive.
Qed.

Lemma insertionSort_keeps_order : keeps_order insertionSort.
Proof. intros l Hl. apply insertionSort_keeps, StronglySorted_Sorted, Hl. Qed.

(** Without a NaN [Start], order between neighbours is order between all. *)
Lemma in_order_ordered l : no_nan_start l -> in_order l -> ordered_by_start l.
Proof.
  intros Hn Ho. induction Ho as [|a l Hs IH Hhd]; [constructor|].
  inversion Hn as [|? ? Ha Hl]; subst.
  specialize (IH Hl).
  constructor; [exact IH|].
  destruct Hhd as [|b l' Hab]; [constructor|].
  inversion IH as [|? ? _ Hall]; subst.
  inversion Hl as [|? ? Hb Hl']; subst.
  constructor; [exact Hab|].
  apply Forall_forall. intros y Hy.
  rewrite Forall_forall in Hall, Hl'.
  specialize (Hall _ Hy). specialize (Hl' _ Hy).
  unfold less in *.
  apply leb_true_ltb_false.
  apply leb_trans with (y := Start b); apply ltb_false_leb; assumption.
Qed.

Lemma less_nan_l a b : isNaN (Start a) = true -> less a b = false.
Proof. unfold less. destruct (Start a); try discriminate. reflexivity. Qed.

(** With every [Start] NaN nothing is [less] than anything, and the sweep
    merges nothing. *)
Lemma all_nan_ordered l : all_nan_start l -> ordered_by_start l.
Proof.
  intros H. induction H as [|a l Ha Hl IH]; [constructor|].
  constructor; [exact IH|].
  apply Forall_forall. intros y Hy.
  unfold all_nan_start in Hl. rewrite Forall_forall in Hl.
  apply less_nan_l, Hl, Hy.
Qed.

Lemma sweep_from_all_nan current rest :
  all_nan_start rest -> sweep_from current rest = current :: rest.
Proof.
  revert current.
  induction rest as [|s rest IH]; intros current H; cbn [sweep_from].
  - reflexivity.
  - inversion H as [|? ? Hs Hr]; subst.
    assert (E : leb (Start s) (add (End_ current) one) = false)
      by (destruct (Start s); try discriminate; reflexivity).
    rewrite E. f_equal. apply IH, Hr.
Qed.

Lemma nan_or_leb_refl x : isNaN x = true \/ leb x x = true.
Proof.
  destruct (isNaN x) eqn:E; [left; reflexivity|right; apply leb_refl, E].
Qed.

(** The sweep over a slice in order: consecutive intervals of the result are
    [settled].  [last] is the element the sweep has just passed. *)
Lemma sweep_from_settled rest current last :
  isNaN (Start current) = true \/ leb (Start current) (Start last) = true ->
  in_order (last :: rest) ->
  Sorted settled (sweep_from current rest).
Proof.
  revert current last.
  induction rest as [|s rest IH]; intros current last Hc Ho; cbn [sweep_from].
  - repeat constructor.
  - inversion Ho as [|? ? Hso Hhd]; subst.
    inversion Hhd as [|? ? Hsl]; subst. unfold less in Hsl.
    destruct (leb (Start s) (add (End_ current) one)) eqn:E.
    + apply (IH _ s); [|exact Hso].
      assert (Est : Start (if gtb (End_ s) (End_ current)
                           then set_End current (End_ s) else current)
                    = Start current)
        by (destruct (gtb (End_ s) (End_ current)); reflexivity).
      rewrite Est.
      destruct Hc as [Hc|Hc]; [left; exact Hc|right].
      destruct (leb_not_nan _ _ E) as [Hs _].
      destruct (leb_not_nan _ _ Hc) as [_ Hl].
      apply leb_trans with (y := Start last); [exact Hc|].
      apply ltb_false_leb; assumption.
    + constructor.
      * apply (IH _ s); [apply nan_or_leb_refl|exact Hso].
      * destruct (sweep_from_head s rest) as (c & tl & -> & Hhc).
        constructor. unfold settled, less. rewrite Hhc.
        split; [|exact E].
        destruct Hc as [Hc|Hc].
        -- destruct (Start current); try discriminate.
           destruct (Start s); reflexivity.
        -- destruct (isNaN (Start s)) eqn:En.
           ++ destruct (Start s); try discriminate. reflexivity.
           ++ destruct (leb_not_nan _ _ Hc) as [_ Hl].
              apply leb_true_ltb_false.
              apply leb_trans with (y := Start last); [exact Hc|].
              apply ltb_false_leb; assumption.
Qed.

Lemma settled_in_order l : Sorted settled l -> in_order l.
Proof.
  intros H. induction H as [|a l Hs IH Hhd]; [constructor|].
  constructor; [exact IH|].
  destruct Hhd as [|b l' [Hab _]]; constructor. exact Hab.
Qed.

(** The sweep changes nothing where consecutive intervals are [settled]. *)
Lemma sweep_from_settled_fixed current rest :
  Sorted settled (current :: rest) -> sweep_from current rest = current :: rest.
Proof.
  revert current.
  induction rest as [|s rest IH]; intros current Hg; cbn [sweep_from].
  - reflexivity.
  - inversion Hg as [|? ? Hs Hhd]; subst.
    inversion Hhd as [|? ? [_ Hab]]; subst.
    rewrite Hab. f_equal. apply IH, Hs.
Qed.

(** Merging again a result of the sweep over a slice in order, with a
    sort that leaves the result as it is. *)
Lemma merge_of_sweep (srt : sorter) first rest :
  in_order (first :: rest) ->
  srt (sweep_from first rest) = sweep_from first rest ->
  mergeSegments srt (sweep_from first rest) = sweep_from first rest.
Proof.
  intros Ho Hsrt.
  pose proof (@sweep_from_settled rest first first (nan_or_leb_refl _) Ho) as Hs.
  destruct (sweep_from_head first rest) as (c & tl & E & _).
  rewrite E in *. unfold mergeSegments. rewrite Hsrt, sweep_acc.
  cbn [app]. apply sweep_from_settled_fixed, Hs.
Qed.

Lemma sweep_from_starts current rest :
  Forall (fun s => isNaN (Start s) = false) (current :: rest) ->
  Forall (fun s => isNaN (Start s) = false) (sweep_from current rest).
Proof.
  revert current.
  induction rest as [|s rest IH]; intros current H; cbn [sweep_from].
  - exact H.
  - inversion H as [|? ? Hc Hr]; subst. inversion Hr as [|? ? Hs Hr']; subst.
    destruct (leb (Start s) (add (End_ current) one)).
    + apply IH. constructor; [|exact Hr'].
      destruct (gtb (End_ s) (End_ current)); exact Hc.
    + constructor; [exact Hc|]. apply IH. exact Hr.
Qed.

End InsertionFacts.

Section MergerTheorems.
Import F64 F64Facts.

Lemma mergeSegments_cases (srt : sorter) (segments : list Segment) :
  (forall l, Permutation l (srt l)) ->
  (segments = [] /\ mergeSegments srt segments = []) \/
  exists first rest,
    Permutation segments (first :: rest) /\
    mergeSegments srt segments = sweep_from first rest.
Proof.
  intros Hperm.
  destruct segments as [|s0 tl]; [left; split; reflexivity|].
  right. unfold mergeSegments.
  pose proof (Hperm (s0 :: tl)) as Hp.
  destruct (srt (s0 :: tl)) as [|first rest].
  - apply Permutation_sym, Permutation_nil in Hp. discriminate.
  - exists first, rest. split; [exact Hp|]. apply sweep_acc.
Qed.

(** C4, amended: on intervals with [Start <= End] the Merger returns
    intervals with [Start <= End], in strictly increasing order of [Start],
    consecutive ones [a], [b] with [b.Start > a.End + 1.0]; the empty slice
    is returned as it is. *)
Theorem mergeSegments_output_shape (srt : sorter) (segments : list Segment) :
  sort_contract srt ->
  Forall valid_segment segments ->
  Forall start_le_end segments ->
  Forall start_le_end (mergeSegments srt segments) /\
  StronglySorted start_lt (mergeSegments srt segments) /\
  Sorted gap (mergeSegments srt segments) /\
  mergeSegments srt [] = [].
Proof.
  intros [Hperm _] Hv Hle.
  assert (Hout : Forall valid_segment (mergeSegments srt segments) /\
                 Forall start_le_end (mergeSegments srt segments) /\
                 Sorted gap (mergeSegments srt segments)).
  { destruct (@mergeSegments_cases srt segments Hperm)
      as [[_ ->]|(first & rest & Hp & ->)].
    - repeat constructor.
    - apply (Permutation_Forall Hp) in Hv, Hle.
      inversion Hv; subst. inversion Hle; subst.
      repeat split.
      + apply sweep_from_valid; assumption.
      + apply sweep_from_le; assumption.
      + apply sweep_from_gap; assumption. }
  destruct Hout as (Hov & Hole & Hog).
  repeat split; try assumption.
  apply gaps_strictly_ordered; assumption.
Qed.

(** The sorted slice and the sweep over it. *)
Lemma mergeSegments_sweeps_sorted (srt : sorter) (segments : list Segment) :
  (forall l, Permutation l (srt l)) -> segments <> [] ->
  exists first rest,
    srt segments = first :: rest /\
    mergeSegments srt segments = sweep_from first rest.
Proof.
  intros Hperm Hne.
  destruct segments as [|s0 tl]; [contradiction|].
  unfold mergeSegments.
  pose proof (Hperm (s0 :: tl)) as Hp.
  destruct (srt (s0 :: tl)) as [|first rest].
  - apply Permutation_sym, Permutation_nil in Hp. discriminate.
  - exists first, rest. split; [reflexivity|apply sweep_acc].
Qed.

(** Merging the list again when every [Start] is NaN. *)
Lemma mergeSegments_all_nan (srt : sorter) (segments : list Segment) :
  keeps_order srt -> all_nan_start segments ->
  mergeSegments srt segments = segments.
Proof.
  intros Hkeep Hnan.
  destruct segments as [|s0 tl]; [reflexivity|].
  unfold mergeSegments. rewrite (Hkeep _ (all_nan_ordered Hnan)).
  rewrite sweep_acc. cbn [app].
  inversion Hnan; subst. apply sweep_from_all_nan. assumption.
Qed.


End MergerTheorems.

Section MergerExamples.
Import F64 F64Facts.

(** The merge example of the specification:
    [(1.0,2.0), (2.5,3.0), (10.0,11.0)] gives [(1.0,3.0), (10.0,11.0)]. *)
Definition merge_example : list Segment :=
  [seg 1 1 2 1; seg 25 10 3 1; seg 10 1 11 1].

Example mergeSegments_example :
  mergeSegments insertionSort merge_example = [seg 1 1 3 1; seg 10 1 11 1].
Proof. vm_compute. reflexivity. Qed.

Lemma merge_example_valid : Forall valid_segment merge_example.
Proof. repeat (constructor; try (split; vm_compute; reflexivity)). Qed.

Lemma merge_example_le : Forall start_le_end merge_example.
Proof. repeat (constructor; try (vm_compute; reflexivity)). Qed.

Lemma mergeSegments_output_shape_witness :
  Forall start_le_end (mergeSegments insertionSort merge_example) /\
  StronglySorted start_lt (mergeSegments insertionSort merge_example) /\
  Sorted gap (mergeSegments insertionSort merge_example) /\
  mergeSegments insertionSort [] = [].
Proof.
  apply (@mergeSegments_output_shape insertionSort merge_example).
  - exact insertionSort_contract.
  - exact merge_example_valid.
  - exact merge_example_le.
Defined.

(** C4 as stated fails: an interval that ends before it starts goes through
    the Merger as it is. *)
Lemma mergeSegments_keeps_reversed_interval :
  mergeSegments insertionSort [seg 5 1 3 1] = [seg 5 1 3 1] /\
  ~ Forall start_le_end (mergeSegments insertionSort [seg 5 1 3 1]).
Proof.
  split; [reflexivity|].
  intros H. inversion H as [|? ? Hle _]; subst.
  vm_compute in Hle. discriminate.
Qed.

(** Two intervals that end before they start, with the same start: the
    Merger keeps both. *)
Definition reversed_pair : list Segment := [seg 5 1 3 1; seg 5 1 2 1].

Example reversed_pair_merged :
  mergeSegments insertionSort reversed_pair = reversed_pair.
Proof. vm_compute. reflexivity. Qed.

(** An interval with NaN boundaries between two others, the later one
    starting before the earlier: nothing is [less] than its neighbour, and
    nothing merges. *)
Definition nan_between : list Segment :=
  [seg 5 1 3 1; mkSegment NaN NaN; seg 3 1 4 1].

Example nan_between_merged :
  mergeSegments insertionSort nan_between = nan_between.
Proof. vm_compute. reflexivity. Qed.

Definition nan_pair : list Segment :=
  [mkSegment NaN NaN; mkSegment NaN (of_int 1)].

Lemma reversed_pair_no_nan : no_nan_start reversed_pair.
Proof. repeat (constructor; try (vm_compute; reflexivity)). Qed.

Lemma nan_pair_all_nan : all_nan_start nan_pair.
Proof. repeat (constructor; try reflexivity). Qed.


End MergerExamples.

(* ================================================================== *)
(** * The Merger and the caller's slice *)
(* ================================================================== *)

Section MemFacts.
Import Mem.

Lemma length_update st a arr : length (update st a arr) = length st.
Proof.
  revert a. induction st as [|x st IH]; intros [|a]; simpl; auto.
Qed.

Lemma backing_update_same st a arr :
  a < length st -> backing (update st a arr) a = arr.
Proof.
  unfold backing. revert a.
  induction st as [|x st IH]; intros [|a] H; simpl in *; try lia; auto.
  apply IH. lia.
Qed.

Lemma backing_update_other st a b arr :
  a <> b -> backing (update st a arr) b = backing st b.
Proof.
  unfold backing. revert a b.
  induction st as [|x st IH]; intros [|a] [|b] H; simpl; auto; try congruence.
Qed.

Lemma backing_app_old st l a :
  a < length st -> backing (st ++ [l]) a = backing st a.
Proof. intros H. unfold backing. apply app_nth1. exact H. Qed.

Lemma backing_app_new st l : backing (st ++ [l]) (length st) = l.
Proof.
  unfold backing. rewrite app_nth2 by lia. rewrite Nat.sub_diag. reflexivity.
Qed.

Lemma length_elements st sl :
  in_bounds st sl -> length (elements st sl) = len sl.
Proof.
  intros [_ H]. unfold elements.
  rewrite length_firstn, length_skipn. lia.
Qed.

Lemma elements_overwrite st sl l :
  in_bounds st sl -> length l = len sl ->
  elements (overwrite st sl l) sl = l.
Proof.
  intros [Ha Hb] Hl. unfold elements, overwrite.
  rewrite backing_update_same by exact Ha.
  set (arr := backing st (array sl)) in *.
  assert (Hf : length (firstn (offset sl) arr) = offset sl)
    by (rewrite length_firstn; lia).
  rewrite skipn_app, Hf, Nat.sub_diag. simpl.
  rewrite skipn_all2 by lia. simpl.
  rewrite firstn_app, <- Hl, Nat.sub_diag, firstn_all. simpl.
  apply app_nil_r.
Qed.

Lemma elements_alloc st l :
  elements (st ++ [l]) (mkSlice (length st) 0 (length l)) = l.
Proof.
  unfold elements; simpl. rewrite backing_app_new. apply firstn_all.
Qed.

Lemma elements_app_old st l sl :
  array sl < length st -> elements (st ++ [l]) sl = elements st sl.
Proof.
  intros H. unfold elements. rewrite backing_app_old by exact H. reflexivity.
Qed.


Definition callers_store : store := [[seg 10 1 11 1; seg 1 1 2 1]].
Definition callers_slice : slice := mkSlice 0 0 2.

Lemma callers_slice_in_bounds : in_bounds callers_store callers_slice.
Proof. split; simpl; lia. Qed.



End MemFacts.

(* ================================================================== *)
(** * The Mute Directive Generator: what it prints *)
(* ================================================================== *)

Section StringFacts.
Import GoStr Shape.
Local Open Scope string_scope.

Lemma append_nil_r (s : string) : s ++ "" = s.
Proof. induction s; simpl; congruence. Qed.

Lemma append_assoc (a b c : string) : (a ++ b) ++ c = a ++ (b ++ c).
Proof. induction a; simpl; congruence. Qed.

Lemma length_append (a b : string) :
  String.length (a ++ b) = String.length a + String.length b.
Proof. induction a; simpl; auto. Qed.

Lemma all_plain_app (a b : string) :
  all_plain (a ++ b) = all_plain a && all_plain b.
Proof.
  induction a as [|c a IH]; simpl; [reflexivity|].
  rewrite IH. apply andb_assoc.
Qed.

Lemma is_digits_app (a b : string) :
  is_digits (a ++ b) = is_digits a && is_digits b.
Proof.
  induction a as [|c a IH]; simpl; [reflexivity|].
  rewrite IH. apply andb_assoc.
Qed.

Lemma plain_char_spec c :
  plain_char c = true ->
  (32 <= byte_val c <= 126 /\ byte_val c <> 34 /\ byte_val c <> 92)%N.
Proof.
  unfold plain_char. intros H.
  repeat (apply andb_true_iff in H as [H ?]).
  repeat match goal with
         | H : negb _ = true |- _ => apply negb_true_iff in H
         | H : (_ <=? _)%N = true |- _ => apply N.leb_le in H
         | H : (_ =? _)%N = false |- _ => apply N.eqb_neq in H
         end.
  auto.
Qed.

Lemma substring_0_0 (s : string) : substring 0 0 s = "".
Proof. destruct s; reflexivity. Qed.

Section Quoting.
Variable U : Unicode.

Lemma decode_ascii c s :
  (byte_val c < 128)%N -> DecodeRuneInString (String c s) = (byte_val c, 1).
Proof.
  intros H. unfold DecodeRuneInString.
  destruct (N.ltb_spec (byte_val c) 128); [reflexivity|lia].
Qed.

Lemma appendEscapedRune_plain c :
  plain_char c = true ->
  appendEscapedRune U (byte_val c) (String c "") = String c "".
Proof.
  intros H. apply plain_char_spec in H as (Hr & H34 & H92).
  unfold appendEscapedRune, IsPrint.
  destruct (N.eqb_spec (byte_val c) 34); [contradiction|].
  destruct (N.eqb_spec (byte_val c) 92); [contradiction|].
  cbn [orb].
  destruct (N.leb_spec (byte_val c) 255); [|lia].
  destruct (N.leb_spec 32 (byte_val c)); [|lia].
  destruct (N.leb_spec (byte_val c) 126); [|lia].
  reflexivity.
Qed.

(** [%q] copies plain bytes. *)
Lemma quote_loop_plain s : all_plain s = true -> quote_loop U 0 s = s.
Proof.
  induction s as [|c s IH]; simpl; intros H; [reflexivity|].
  apply andb_true_iff in H as [Hc Hs].
  pose proof (plain_char_spec _ Hc) as (Hr & _ & _).
  assert (Hd : DecodeRuneInString (String c s) = (byte_val c, 1))
    by (apply decode_ascii; lia).
  unfold DecodeRuneInString in Hd. rewrite Hd.
  assert (Hne : (byte_val c =? RuneError)%N = false)
    by (apply N.eqb_neq; unfold RuneError; lia).
  rewrite Hne. simpl.
  rewrite substring_0_0, appendEscapedRune_plain by exact Hc.
  simpl. rewrite IH by exact Hs. reflexivity.
Qed.

Lemma Quote_plain s :
  all_plain s = true -> Quote U s = dquote ++ s ++ dquote.
Proof. intros H. unfold Quote. rewrite quote_loop_plain by exact H. reflexivity. Qed.

End Quoting.

Section QuotingMore.
Variable U : Unicode.

Lemma appendEscapedRune_printable c :
  printable_char c = true ->
  appendEscapedRune U (byte_val c) (String c "")
  = if ((byte_val c =? 34) || (byte_val c =? 92))%N
    then backslash ++ String c "" else String c "".
Proof.
  intros H. unfold printable_char in H.
  apply andb_true_iff in H as [H1 H2]. apply N.leb_le in H1, H2.
  unfold appendEscapedRune, IsPrint.
  destruct ((byte_val c =? 34) || (byte_val c =? 92))%N.
  - unfold byte_val. rewrite ascii_N_embedding. reflexivity.
  - destruct (N.leb_spec (byte_val c) 255); [|lia].
    destruct (N.leb_spec 32 (byte_val c)); [|lia].
    destruct (N.leb_spec (byte_val c) 126); [|lia].
    reflexivity.
Qed.

(** [%q] on printable ASCII: only the double quote and the backslash get
    an escape. *)
Lemma quote_loop_printable s :
  all_printable s = true -> quote_loop U 0 s = escape_quotes s.
Proof.
  induction s as [|c s IH]; intros H; [reflexivity|].
  cbn [all_printable] in H. apply andb_true_iff in H as [Hc Hs].
  pose proof Hc as Hc'. unfold printable_char in Hc'.
  apply andb_true_iff in Hc' as [H1 H2]. apply N.leb_le in H1, H2.
  cbn [quote_loop escape_quotes].
  rewrite (@decode_ascii c s) by lia.
  assert (Hne : (byte_val c =? RuneError)%N = false)
    by (apply N.eqb_neq; unfold RuneError; lia).
  rewrite Hne. cbn [Nat.eqb andb Nat.sub].
  change (substring 0 1 (String c s)) with (String c (substring 0 0 s)).
  rewrite substring_0_0, (@appendEscapedRune_printable c Hc), (IH Hs).
  destruct ((byte_val c =? 34) || (byte_val c =? 92))%N; reflexivity.
Qed.

Lemma Quote_printable s :
  all_printable s = true -> Quote U s = dquote ++ escape_quotes s ++ dquote.
Proof.
  intros H. unfold Quote. rewrite (@quote_loop_printable s H). reflexivity.
Qed.

End QuotingMore.

(** ** Digits *)

Lemma string_of_uint_digits u :
  all_plain (DecimalString.NilEmpty.string_of_uint u) = true /\
  is_digits (DecimalString.NilEmpty.string_of_uint u) = true.
Proof. induction u; simpl; tauto. Qed.

Lemma int_digits_plain n : all_plain (int_digits n) = true.
Proof. apply string_of_uint_digits. Qed.

Lemma int_digits_digits n : is_digits (int_digits n) = true.
Proof. apply string_of_uint_digits. Qed.

Lemma int_digits_nonempty n : int_digits n <> "".
Proof.
  unfold int_digits.
  assert (H : N.to_uint (Z.to_N n) <> Decimal.Nil).
  { destruct (Z.to_N n); simpl; [discriminate|].
    apply DecimalPos.Unsigned.to_uint_nonnil. }
  destruct (N.to_uint (Z.to_N n)); simpl; congruence.
Qed.

Lemma digit_char_cases d :
  (0 <= d <= 9)%Z ->
  plain_char (digit_char d) = true /\ GoTime.isDigit (digit_char d) = true.
Proof.
  intros H.
  assert (C : (d = 0 \/ d = 1 \/ d = 2 \/ d = 3 \/ d = 4 \/ d = 5 \/ d = 6
               \/ d = 7 \/ d = 8 \/ d = 9)%Z) by lia.
  repeat (destruct C as [->|C]; [split; reflexivity|]).
  subst. split; reflexivity.
Qed.

Lemma frac_digits_shape p n :
  all_plain (frac_digits p n) = true /\
  is_digits (frac_digits p n) = true /\
  String.length (frac_digits p n) = p.
Proof.
  induction p as [|p IH]; simpl; [auto|].
  destruct IH as (H1 & H2 & H3).
  destruct (@digit_char_cases ((n / 10 ^ Z.of_nat p) mod 10)) as [Hp Hd].
  { pose proof (Z.mod_pos_bound (n / 10 ^ Z.of_nat p) 10). lia. }
  rewrite Hp, Hd, H1, H2, H3. auto.
Qed.

Lemma FormatFloat_plain p x : all_plain (FormatFloat p x) = true.
Proof.
  destruct x as [|[|]|neg m]; try reflexivity.
  unfold FormatFloat. cbv zeta.
  set (q := F64.rne _ _ _).
  rewrite !all_plain_app, int_digits_plain.
  assert (Hs : all_plain (if neg then "-" else "") = true)
    by (destruct neg; reflexivity).
  rewrite Hs. cbn [andb].
  destruct p as [|p]; [reflexivity|].
  rewrite all_plain_app.
  destruct (frac_digits_shape (S p) (q mod 10 ^ Z.of_nat (S p))) as (H & _ & _).
  rewrite H. reflexivity.
Qed.

(** A finite value printed with [%.3f] has exactly three fraction digits. *)
Lemma FormatFloat_three_decimals x :
  F64.isFinite x = true -> three_decimals (FormatFloat 3 x).
Proof.
  destruct x as [| |neg m]; try discriminate. intros _.
  unfold FormatFloat, three_decimals.
  set (q := F64.rne _ _ _).
  exists (if neg then "-" else ""), (int_digits (q / 10 ^ Z.of_nat 3)),
         (frac_digits 3 (q mod 10 ^ Z.of_nat 3)).
  repeat split.
  - destruct neg; [right|left]; reflexivity.
  - apply int_digits_nonempty.
  - apply int_digits_digits.
  - apply (frac_digits_shape 3).
Qed.

End StringFacts.

Section GeneratorTheorems.
Import GoStr Shape.
Local Open Scope string_scope.

Variable U : Unicode.

Lemma Join_plain (elems : list string) (sep : string) :
  all_plain sep = true ->
  Forall (fun e => all_plain e = true) elems ->
  all_plain (Join elems sep) = true.
Proof.
  intros Hsep H. induction H as [|e l He Hl IH]; [reflexivity|].
  destruct l as [|e' l]; [exact He|].
  change (Join (e :: e' :: l) sep) with (e ++ sep ++ Join (e' :: l) sep).
  rewrite !all_plain_app, He, Hsep, IH. reflexivity.
Qed.

Lemma between_plain s : all_plain (between s) = true.
Proof.
  unfold between. rewrite !all_plain_app, !FormatFloat_plain. reflexivity.
Qed.

Lemma filter_plain (segments : list Segment) :
  all_plain ("volume=enable='" ++ Join (map between segments) "+"
             ++ "':volume=0") = true.
Proof.
  rewrite !all_plain_app, Join_plain; [reflexivity|reflexivity|].
  apply Forall_forall. intros e He.
  apply in_map_iff in He as (s & <- & _). apply between_plain.
Qed.

(** C1, amended: for an empty interval set the Generator returns the text
    [No segments to mute. Copying input to output: ] followed by the
    copy-only command, the identifiers as [%q] prints them.  An identifier of
    printable ASCII bytes other than the double quote and the backslash
    stands between double quotes as it is; in an identifier of printable
    ASCII bytes every double quote and every backslash gets a backslash in
    front, and the other bytes stand as they are. *)
Theorem generateFFmpegCommand_copy_only (inputVideo outputVideo : string) :
  generateFFmpegCommand U inputVideo outputVideo []
  = "No segments to mute. Copying input to output: ffmpeg -i "
    ++ Quote U inputVideo ++ " -c copy " ++ Quote U outputVideo
  /\
  (all_plain inputVideo = true -> all_plain outputVideo = true ->
   generateFFmpegCommand U inputVideo outputVideo []
   = "No segments to mute. Copying input to output: ffmpeg -i "
     ++ dquote ++ inputVideo ++ dquote ++ " -c copy "
     ++ dquote ++ outputVideo ++ dquote)
  /\
  (all_printable inputVideo = true -> all_printable outputVideo = true ->
   generateFFmpegCommand U inputVideo outputVideo []
   = "No segments to mute. Copying input to output: ffmpeg -i "
     ++ dquote ++ escape_quotes inputVideo ++ dquote ++ " -c copy "
     ++ dquote ++ escape_quotes outputVideo ++ dquote).
Proof.
  split; [reflexivity|]. split.
  - intros Hi Ho. unfold generateFFmpegCommand.
    rewrite !Quote_plain by assumption.
    rewrite !append_assoc. reflexivity.
  - intros Hi Ho. unfold generateFFmpegCommand.
    rewrite (@Quote_printable U _ Hi), (@Quote_printable U _ Ho).
    rewrite !append_assoc. reflexivity.
Qed.

Lemma Join_plus_head a b (l : list string) :
  Join ((a ++ "+" ++ b) :: l) "+" = a ++ "+" ++ Join (b :: l) "+".
Proof.
  destruct l as [|c l]; [reflexivity|].
  change (Join ((a ++ "+" ++ b) :: c :: l) "+")
    with ((a ++ "+" ++ b) ++ "+" ++ Join (c :: l) "+").
  change (Join (b :: c :: l) "+") with (b ++ "+" ++ Join (c :: l) "+").
  rewrite !append_assoc. reflexivity.
Qed.

(** [strings.Join] of the predicates is the expression of the
    specification. *)
Lemma Join_enable_expression segments :
  Join (map between segments) "+" = enable_expression segments.
Proof.
  destruct segments as [|s rest]; [reflexivity|].
  cbn [enable_expression map].
  change (between s) with (range_predicate s).
  generalize (range_predicate s). clear s.
  induction rest as [|s rest IH]; intros p; [reflexivity|].
  cbn [fold_left map]. rewrite <- IH.
  change (between s) with (range_predicate s).
  change (Join (p :: range_predicate s :: map between rest) "+")
    with (p ++ "+" ++ Join (range_predicate s :: map between rest) "+").
  symmetry. apply Join_plus_head.
Qed.

Lemma FormatFloat_not_finite x :
  F64.isFinite x = false -> non_finite_text (FormatFloat 3 x).
Proof.
  destruct x as [|[|]|]; try discriminate; intros _; unfold non_finite_text;
    cbn [FormatFloat]; auto.
Qed.

Lemma plus_inf_not_three_decimals : ~ three_decimals "+Inf".
Proof.
  intros (sign & int & frac & E & Hsign & Hne & Hd & _).
  destruct Hsign as [-> | ->]; [|discriminate].
  destruct int as [|c int]; [contradiction|].
  cbn [String.append] in E. injection E as <- _.
  discriminate.
Qed.

(** C2, amended: for a non-empty interval set the Generator returns the
    filtered command: the predicates [between(t,<start>,<end>)] of the
    intervals in the given order with a [+] between them, inside
    [volume=enable='...':volume=0] between double quotes; every finite
    boundary has exactly three fraction digits, a boundary that is not
    finite is printed as [NaN], [+Inf] or [-Inf]; the identifiers stand as
    [%q] prints them, as they are between double quotes when they are made
    of printable ASCII bytes other than the double quote and the backslash;
    equal arguments give the same string. *)
Theorem generateFFmpegCommand_filtered
        (inputVideo outputVideo : string) (segments : list Segment) :
  segments <> [] ->
  generateFFmpegCommand U inputVideo outputVideo segments
  = "ffmpeg -i " ++ Quote U inputVideo
    ++ " -af " ++ dquote ++ "volume=enable='"
    ++ enable_expression segments
    ++ "':volume=0" ++ dquote
    ++ " -c:v copy -c:a aac " ++ Quote U outputVideo
  /\
  (forall s, In s segments ->
     (F64.isFinite (Start s) = true -> three_decimals (FormatFloat 3 (Start s))) /\
     (F64.isFinite (End_ s) = true -> three_decimals (FormatFloat 3 (End_ s))) /\
     (F64.isFinite (Start s) = false -> non_finite_text (FormatFloat 3 (Start s))) /\
     (F64.isFinite (End_ s) = false -> non_finite_text (FormatFloat 3 (End_ s))))
  /\
  (all_plain inputVideo = true -> Quote U inputVideo = dquote ++ inputVideo ++ dquote)
  /\
  (all_plain outputVideo = true -> Quote U outputVideo = dquote ++ outputVideo ++ dquote)
  /\
  (forall inputVideo' outputVideo' segments',
     inputVideo' = inputVideo -> outputVideo' = outputVideo ->
     segments' = segments ->
     generateFFmpegCommand U inputVideo' outputVideo' segments'
     = generateFFmpegCommand U inputVideo outputVideo segments).
Proof.
  intros Hne. split; [|split; [|split; [|split]]].
  - destruct segments as [|s0 tl]; [contradiction|].
    rewrite <- Join_enable_expression.
    unfold generateFFmpegCommand.
    rewrite (@Quote_plain U _ (filter_plain (s0 :: tl))).
    rewrite !append_assoc. reflexivity.
  - intros s _. repeat split.
    + apply FormatFloat_three_decimals.
    + apply FormatFloat_three_decimals.
    + apply FormatFloat_not_finite.
    + apply FormatFloat_not_finite.
  - apply Quote_plain.
  - apply Quote_plain.
  - intros ? ? ? -> -> ->. reflexivity.
Qed.

End GeneratorTheorems.

Section GeneratorExamples.
Import GoStr Shape.
Local Open Scope string_scope.

Lemma generateFFmpegCommand_copy_only_witness :
  generateFFmpegCommand no_tables "in.mp4" "out.mp4" []
  = "No segments to mute. Copying input to output: ffmpeg -i "
    ++ dquote ++ "in.mp4" ++ dquote ++ " -c copy "
    ++ dquote ++ "out.mp4" ++ dquote
  /\
  generateFFmpegCommand no_tables "in.mp4" ("a" ++ dquote ++ "b.mp4") []
  = "No segments to mute. Copying input to output: ffmpeg -i "
    ++ dquote ++ "in.mp4" ++ dquote ++ " -c copy "
    ++ dquote ++ "a" ++ backslash ++ dquote ++ "b.mp4" ++ dquote.
Proof.
  split.
  - destruct (generateFFmpegCommand_copy_only no_tables "in.mp4" "out.mp4")
      as (_ & Hplain & _).
    exact (Hplain eq_refl eq_refl).
  - destruct (generateFFmpegCommand_copy_only no_tables "in.mp4"
                ("a" ++ dquote ++ "b.mp4"))
      as (_ & _ & Hprintable).
    exact (Hprintable eq_refl eq_refl).
Defined.

(** C1 as stated fails: the returned string starts with a sentence, not
    with [ffmpeg]; and an identifier with a double quote in it is escaped. *)
Lemma generateFFmpegCommand_empty_is_not_bare_command :
  generateFFmpegCommand no_tables "in.mp4" "out.mp4" []
  <> "ffmpeg -i " ++ dquote ++ "in.mp4" ++ dquote ++ " -c copy "
     ++ dquote ++ "out.mp4" ++ dquote
  /\
  generateFFmpegCommand no_tables "in.mp4" ("a" ++ dquote ++ "b.mp4") []
  = "No segments to mute. Copying input to output: ffmpeg -i "
    ++ dquote ++ "in.mp4" ++ dquote ++ " -c copy "
    ++ dquote ++ "a" ++ backslash ++ dquote ++ "b.mp4" ++ dquote.
Proof. split; [vm_compute; discriminate|vm_compute; reflexivity]. Qed.

Definition one_to_two : list Segment := [seg 1 1 2 1].

Lemma one_to_two_nonempty : one_to_two <> [].
Proof. discriminate. Qed.

Example generateFFmpegCommand_example :
  generateFFmpegCommand no_tables "in.mp4" "out.mp4" merge_example
  = "ffmpeg -i " ++ dquote ++ "in.mp4" ++ dquote ++ " -af " ++ dquote
    ++ "volume=enable='between(t,1.000,2.000)+between(t,2.500,3.000)+between(t,10.000,11.000)':volume=0"
    ++ dquote ++ " -c:v copy -c:a aac " ++ dquote ++ "out.mp4" ++ dquote.
Proof. vm_compute. reflexivity. Qed.

Lemma generateFFmpegCommand_filtered_witness :
  generateFFmpegCommand no_tables "in.mp4" "out.mp4" merge_example
  = "ffmpeg -i " ++ dquote ++ "in.mp4" ++ dquote ++ " -af " ++ dquote
    ++ "volume=enable='between(t,1.000,2.000)+between(t,2.500,3.000)+between(t,10.000,11.000)':volume=0"
    ++ dquote ++ " -c:v copy -c:a aac " ++ dquote ++ "out.mp4" ++ dquote
  /\ three_decimals (FormatFloat 3 (Start (seg 25 10 3 1)))
  /\ three_decimals (FormatFloat 3 (End_ (seg 25 10 3 1)))
  /\ Quote no_tables "in.mp4" = dquote ++ "in.mp4" ++ dquote
  /\ Quote no_tables "out.mp4" = dquote ++ "out.mp4" ++ dquote.
Proof.
  destruct (@generateFFmpegCommand_filtered
              no_tables "in.mp4" "out.mp4" merge_example ltac:(discriminate))
    as (Hcmd & Hseg & Hin & Hout & _).
  destruct (Hseg (seg 25 10 3 1) (or_intror (or_introl eq_refl)))
    as (Hs & He & _ & _).
  split; [vm_compute in Hcmd; vm_compute; exact Hcmd|].
  split; [apply Hs; vm_compute; reflexivity|].
  split; [apply He; vm_compute; reflexivity|].
  split; [apply Hin; reflexivity|apply Hout; reflexivity].
Defined.

(** ** [getVolumeFilter] *)

Example getVolumeFilter_example :
  getVolumeFilter (generateFFmpegCommand no_tables "in.mp4" "out.mp4" merge_example)
  = Returns (Join (map between merge_example) "+").
Proof. vm_compute. reflexivity. Qed.

(** C7 fails where an identifier holds a parenthesis: with the video
    [Nobody (2021).mkv] and the output name the program derives from it, the
    text cut out of the command runs on to the parenthesis in the output
    name. *)
Theorem getVolumeFilter_parenthesis_in_name :
  let cmd := generateFFmpegCommand no_tables "Nobody (2021).mkv"
                                   "Nobody (2021)-CLEAN.mp4" one_to_two in
  Join (map between one_to_two) "+" = "between(t,1.000,2.000)" /\
  getVolumeFilter cmd
  = Returns ("between(t,1.000,2.000)':volume=0" ++ dquote
             ++ " -c:v copy -c:a aac " ++ dquote ++ "Nobody (2021)") /\
  getVolumeFilter cmd <> Returns (Join (map between one_to_two) "+").
Proof.
  split; [vm_compute; reflexivity|].
  split; [vm_compute; reflexivity|vm_compute; discriminate].
Qed.

End GeneratorExamples.

(* ================================================================== *)
(** * The Timestamp Converter: what it returns *)
(* ================================================================== *)

Section ConverterFacts.
Import F64 F64Facts.
Local Open Scope Z_scope.

Lemma isDigit_digit c : GoTime.isDigit c = true -> 0 <= GoTime.digit c <= 9.
Proof.
  unfold GoTime.isDigit, GoTime.digit. intros H.
  apply andb_true_iff in H as [H1 H2].
  apply N.leb_le in H1, H2. lia.
Qed.

Lemma leadingInt_bound s x :
  0 <= x ->
  x <= fst (GoTime.leadingInt x s) < (x + 1) * 10 ^ Z.of_nat (String.length s).
Proof.
  revert x. induction s as [|c s IH]; intros x Hx.
  - simpl. lia.
  - cbn [GoTime.leadingInt String.length].
    assert (Hp : 0 < 10 ^ Z.of_nat (String.length s)) by (apply Z.pow_pos_nonneg; lia).
    replace (10 ^ Z.of_nat (S (String.length s)))
      with (10 * 10 ^ Z.of_nat (String.length s))
      by (rewrite Nat2Z.inj_succ, Z.pow_succ_r by lia; reflexivity).
    destruct (GoTime.isDigit c) eqn:Ed.
    + pose proof (isDigit_digit _ Ed) as Hd.
      specialize (IH (x * 10 + GoTime.digit c) ltac:(lia)).
      set (P := 10 ^ Z.of_nat (String.length s)) in *.
      set (q := fst (GoTime.leadingInt (x * 10 + GoTime.digit c) s)) in *.
      assert ((x * 10 + GoTime.digit c + 1) * P <= (x + 1) * (10 * P)) by nia.
      lia.
    + cbn [fst].
      set (P := 10 ^ Z.of_nat (String.length s)) in *.
      assert (x + 1 <= (x + 1) * (10 * P)) by nia.
      lia.
Qed.

Lemma length_substring n m s : (String.length (substring n m s) <= m)%nat.
Proof.
  revert n m. induction s as [|c s IH]; intros [|n] [|m]; simpl; try lia.
  - specialize (IH 0%nat m). lia.
  - apply IH.
  - apply IH.
Qed.

Lemma atoi_bound s z :
  GoTime.atoi s = Some z -> Z.abs z < 10 ^ Z.of_nat (String.length s).
Proof.
  unfold GoTime.atoi.
  assert (G : forall neg s',
             (String.length s' <= String.length s)%nat ->
             match GoTime.leadingInt 0 s' with
             | (q, EmptyString) => Some (if neg : bool then - q else q)
             | (_, String _ _) => None
             end = Some z ->
             Z.abs z < 10 ^ Z.of_nat (String.length s)).
  { intros neg s' Hl H.
    pose proof (@leadingInt_bound s' 0 ltac:(lia)) as Hb.
    destruct (GoTime.leadingInt 0 s') as [q rem]; cbn [fst] in Hb.
    destruct rem; [|discriminate].
    assert (10 ^ Z.of_nat (String.length s') <= 10 ^ Z.of_nat (String.length s))
      by (apply Z.pow_le_mono_r; lia).
    injection H as <-. destruct neg; lia. }
  destruct s as [|c rest]; [apply (G false ""%string); simpl; lia|].
  destruct (Ascii.eqb c "-"); [apply (G true rest); simpl; lia|].
  destruct (Ascii.eqb c "+");
    [apply (G false rest)|apply (G false (String c rest))]; simpl; lia.
Qed.

Lemma parse_fraction_bound value nsec rest :
  GoTime.parse_fraction value = inr (nsec, rest) -> 0 <= nsec < 1000000000.
Proof.
  unfold GoTime.parse_fraction.
  destruct (String.length value <? 4)%nat; [discriminate|].
  destruct value as [|c v]; [discriminate|].
  destruct (Ascii.eqb c "." || Ascii.eqb c ","); [|discriminate].
  destruct (GoTime.atoi (substring 1 3 (String c v))) as [ns|] eqn:Ea; [|discriminate].
  destruct (Z.ltb_spec ns 0) as [|Hns]; [discriminate|].
  intros Heq. injection Heq as <- _.
  apply atoi_bound in Ea.
  pose proof (length_substring 1 3 (String c v)) as Hl.
  assert (10 ^ Z.of_nat (String.length (substring 1 3 (String c v))) <= 10 ^ 3)
    by (apply Z.pow_le_mono_r; lia).
  change (10 ^ 3) with 1000 in *. lia.
Qed.

Lemma Parse_bounds value d :
  GoTime.Parse value = inr d ->
  0 <= GoTime.Hour d < 24 /\ 0 <= GoTime.Minute d < 60 /\
  0 <= GoTime.Second d < 60 /\ 0 <= GoTime.Nanosecond d < 1000000000.
Proof.
  unfold GoTime.Parse.
  destruct (GoTime.getnum value false) as [[hour v1]|]; [|discriminate].
  destruct (Z.ltb_spec hour 0); [discriminate|].
  destruct (Z.leb_spec 24 hour); [discriminate|]. simpl.
  destruct (GoTime.skip_colon v1) as [v2|]; [|discriminate].
  destruct (GoTime.getnum v2 true) as [[min v3]|]; [|discriminate].
  destruct (Z.ltb_spec min 0); [discriminate|].
  destruct (Z.leb_spec 60 min); [discriminate|]. simpl.
  destruct (GoTime.skip_colon v3) as [v4|]; [|discriminate].
  destruct (GoTime.getnum v4 true) as [[sec v5]|]; [|discriminate].
  destruct (Z.ltb_spec sec 0); [discriminate|].
  destruct (Z.leb_spec 60 sec); [discriminate|]. simpl.
  destruct (GoTime.parse_fraction v5) as [e|[nsec v6]] eqn:Ef; [discriminate|].
  destruct v6; [|discriminate].
  intros Heq. injection Heq as <-. simpl.
  apply parse_fraction_bound in Ef. lia.
Qed.

Lemma of_int_billion :
  of_int 1000000000 = Fin false (1000000000 * unit_scale).
Proof. vm_compute. reflexivity. Qed.

(** The seconds of a clock time are a finite value. *)
Lemma clock_seconds_finite t ns :
  0 <= t < 86400 -> 0 <= ns < 1000000000 ->
  isFinite (add (of_int t) (div (of_int ns) (of_int 1000000000))) = true.
Proof.
  intros Ht Hns. pose proof unit_scale_pos as Hu.
  destruct (@of_int_small t ltac:(lia)) as (m1 & -> & Hm1).
  destruct (@of_int_small ns ltac:(lia)) as (mn & -> & Hmn).
  rewrite of_int_billion.
  assert (Htu : t * unit_scale <= 86400 * unit_scale)
    by (apply Z.mul_le_mono_nonneg_r; lia).
  assert (Hnu : ns * unit_scale <= 1000000000 * unit_scale)
    by (apply Z.mul_le_mono_nonneg_r; lia).
  unfold div.
  destruct (Z.eqb_spec (1000000000 * unit_scale) 0); [lia|].
  simpl xorb.
  destruct (@mk_small false (mn * unit_scale) (1000000000 * unit_scale) mn)
    as (m2 & -> & Hm2).
  - nia.
  - lia.
  - apply Z.div_le_upper_bound; [lia|]. nia.
  - change (2 ^ 40) with 1099511627776. lia.
  - unfold add, sval.
    destruct (m1 + m2 =? 0); [reflexivity|].
    destruct (Z.ltb_spec (m1 + m2) 0); [lia|].
    rewrite Z.abs_eq by lia.
    destruct (@mk_small false (m1 + m2) 1 (m1 + m2)) as (m3 & -> & _).
    + lia.
    + lia.
    + rewrite Z.div_1_r. lia.
    + change (2 ^ 40) with 1099511627776. lia.
    + reflexivity.
Qed.

Lemma parseSRTTime_finite srtTime x :
  parseSRTTime srtTime = Ok x -> isFinite x = true.
Proof.
  unfold parseSRTTime.
  destruct (GoTime.Parse _) as [e|d] eqn:Ep; [discriminate|].
  intros H. injection H as <-.
  apply Parse_bounds in Ep as (Hh & Hm & Hs & Hn).
  apply clock_seconds_finite; lia.
Qed.

End ConverterFacts.

(* ================================================================== *)
(** * The Interval Extractor *)
(* ================================================================== *)

Section ExtractorFacts.
Import GoStr F64 F64Facts.
Local Open Scope string_scope.

Variable U : Unicode.
Variable swears : list string.
Variable offset : float64.

Lemma geb_zero_not_ltb x : geb x zero = true -> ltb x zero = false.
Proof. unfold geb. apply leb_true_ltb_false. Qed.

Lemma ltb_zero_not_geb x : ltb x zero = true -> geb x zero = false.
Proof. unfold geb. apply ltb_true_leb_false. Qed.

Section OneBlock.

Variable text : string.
Variables start end_ : float64.

Lemma matches_cons t terms :
  matches U (t :: terms) text
  = Contains text (ToLower U t) || matches U terms text.
Proof. reflexivity. Qed.

Lemma match_block_cons t terms segs log :
  match_block U offset text start end_ (t :: terms) segs log
  = if Contains text (ToLower U t) then
      if ltb (add start offset) zero || ltb (add end_ offset) zero
      then match_block U offset text start end_ terms segs
                       (log ++ [warning offset start end_])%list
      else ((segs ++ [mkSegment (add start offset) (add end_ offset)])%list, log)
    else match_block U offset text start end_ terms segs log.
Proof. reflexivity. Qed.

Lemma match_last_block_cons t terms segs log :
  match_last_block U offset text start end_ (t :: terms) segs log
  = if Contains text (ToLower U t) then
      if geb (add start offset) zero && geb (add end_ offset) zero
      then ((segs ++ [mkSegment (add start offset) (add end_ offset)])%list, log)
      else (segs, (log ++ [warning offset start end_])%list)
    else match_last_block U offset text start end_ terms segs log.
Proof. reflexivity. Qed.

(** A kept match adds the shifted interval once and logs nothing. *)
Lemma match_block_kept terms segs log :
  matches U terms text = true ->
  geb (add start offset) zero = true -> geb (add end_ offset) zero = true ->
  match_block U offset text start end_ terms segs log
  = ((segs ++ [mkSegment (add start offset) (add end_ offset)])%list, log).
Proof.
  intros Hm H1 H2.
  induction terms as [|t terms IH]; [discriminate|].
  rewrite matches_cons in Hm. rewrite match_block_cons.
  destruct (Contains text (ToLower U t)).
  - rewrite (geb_zero_not_ltb _ H1), (geb_zero_not_ltb _ H2). reflexivity.
  - apply IH, Hm.
Qed.

Lemma match_last_block_kept terms segs log :
  matches U terms text = true ->
  geb (add start offset) zero = true -> geb (add end_ offset) zero = true ->
  match_last_block U offset text start end_ terms segs log
  = ((segs ++ [mkSegment (add start offset) (add end_ offset)])%list, log).
Proof.
  intros Hm H1 H2.
  induction terms as [|t terms IH]; [discriminate|].
  rewrite matches_cons in Hm. rewrite match_last_block_cons.
  destruct (Contains text (ToLower U t)).
  - rewrite H1, H2. reflexivity.
  - apply IH, Hm.
Qed.

(** A match shifted below zero adds nothing; at a blank line every matching
    term logs the warning. *)
Lemma match_block_dropped_segments terms segs log :
  ltb (add start offset) zero || ltb (add end_ offset) zero = true ->
  fst (match_block U offset text start end_ terms segs log) = segs.
Proof.
  intros Hneg. revert log.
  induction terms as [|t terms IH]; intros log; [reflexivity|].
  rewrite match_block_cons.
  destruct (Contains text (ToLower U t)); [|apply IH].
  rewrite Hneg. apply IH.
Qed.

Lemma match_block_dropped_log terms segs log :
  ltb (add start offset) zero || ltb (add end_ offset) zero = true ->
  exists n,
    snd (match_block U offset text start end_ terms segs log)
    = (log ++ repeat (warning offset start end_) n)%list /\
    (matches U terms text = true -> n <> 0%nat).
Proof.
  intros Hneg. revert log.
  induction terms as [|t terms IH]; intros log.
  - exists 0%nat. cbn [match_block snd repeat]. rewrite app_nil_r.
    split; [reflexivity|discriminate].
  - rewrite match_block_cons, matches_cons.
    destruct (Contains text (ToLower U t)).
    + rewrite Hneg.
      destruct (IH (log ++ [warning offset start end_])%list) as (n & E & _).
      exists (S n). rewrite E, <- app_assoc.
      split; [reflexivity|discriminate].
    + apply IH.
Qed.

Lemma match_last_block_dropped terms segs log :
  matches U terms text = true ->
  ltb (add start offset) zero || ltb (add end_ offset) zero = true ->
  match_last_block U offset text start end_ terms segs log
  = (segs, (log ++ [warning offset start end_])%list).
Proof.
  intros Hm Hneg.
  induction terms as [|t terms IH]; [discriminate|].
  rewrite matches_cons in Hm. rewrite match_last_block_cons.
  destruct (Contains text (ToLower U t)); [|apply IH, Hm].
  assert (Hge : geb (add start offset) zero && geb (add end_ offset) zero
                = false).
  { apply orb_true_iff in Hneg as [Hlt|Hlt];
      rewrite (ltb_zero_not_geb _ Hlt); [reflexivity|apply andb_false_r]. }
  rewrite Hge. reflexivity.
Qed.

(** Without a match nothing happens on either path. *)
Lemma match_block_none terms segs log :
  matches U terms text = false ->
  match_block U offset text start end_ terms segs log = (segs, log) /\
  match_last_block U offset text start end_ terms segs log = (segs, log).
Proof.
  intros Hm.
  induction terms as [|t terms IH]; [split; reflexivity|].
  rewrite matches_cons in Hm.
  rewrite match_block_cons, match_last_block_cons.
  destruct (Contains text (ToLower U t)); [discriminate|].
  apply IH, Hm.
Qed.

End OneBlock.

(** A matching block whose shifted boundaries are not below zero is closed
    with its interval, by a blank line and by the end of input alike. *)
Lemma kept_block_closed (st : scan) (blank : string) :
  inSubtitleBlock st = true ->
  TrimSpace blank = "" ->
  matches U swears (ToLower U (subtitleText st)) = true ->
  geb (add (currentStart st) offset) zero = true ->
  geb (add (currentEnd st) offset) zero = true ->
  scan_line U swears offset st blank
  = Ok (mkScan (segments st
                ++ [mkSegment (add (currentStart st) offset)
                              (add (currentEnd st) offset)])%list
               (currentStart st) (currentEnd st) false "" (logged st))
  /\ finish U swears offset st
     = ((segments st
         ++ [mkSegment (add (currentStart st) offset)
                       (add (currentEnd st) offset)])%list, logged st).
Proof.
  intros Hin Hblank Hm H1 H2.
  unfold scan_line, finish. rewrite Hblank, Hin.
  change (String.eqb "" "") with true. cbv iota.
  rewrite (@match_block_kept _ _ _ _ _ _ Hm H1 H2).
  rewrite (@match_last_block_kept _ _ _ _ _ _ Hm H1 H2).
  split; reflexivity.
Qed.

(** C5: for a block whose text matches, a blank line and the end of input
    both add exactly the interval [(start + offset, end + offset)] when the
    two shifted boundaries are not below zero; when one is below zero they add
    no interval and log the warning [Warning: Offset <offset> makes segment
    (<start>, <end>) negative, skipping], with the offset and the boundaries
    before the shift printed by [%f] (at a blank line once for every matching
    term, at the end of input once). *)
Theorem extractor_applies_offset (st : scan) (blank : string) :
  inSubtitleBlock st = true ->
  TrimSpace blank = "" ->
  matches U swears (ToLower U (subtitleText st)) = true ->
  let adjustedStart := add (currentStart st) offset in
  let adjustedEnd := add (currentEnd st) offset in
  let interval := mkSegment adjustedStart adjustedEnd in
  let w := "Warning: Offset " ++ FormatFloat 6 offset ++ " makes segment ("
           ++ FormatFloat 6 (currentStart st) ++ ", "
           ++ FormatFloat 6 (currentEnd st) ++ ") negative, skipping" in
  (geb adjustedStart zero = true -> geb adjustedEnd zero = true ->
   scan_line U swears offset st blank
   = Ok (mkScan (segments st ++ [interval])%list (currentStart st)
                (currentEnd st) false "" (logged st))
   /\ finish U swears offset st
      = ((segments st ++ [interval])%list, logged st))
  /\
  (ltb adjustedStart zero = true \/ ltb adjustedEnd zero = true ->
   (exists n,
      scan_line U swears offset st blank
      = Ok (mkScan (segments st) (currentStart st) (currentEnd st) false ""
                   (logged st ++ repeat w (S n))%list))
   /\ finish U swears offset st = (segments st, (logged st ++ [w])%list)).
Proof.
  intros Hin Hblank Hm. cbv zeta.
  unfold scan_line, finish. rewrite Hblank, Hin.
  change (String.eqb "" "") with true. cbv iota.
  split.
  - intros H1 H2.
    rewrite (@match_block_kept _ _ _ _ _ _ Hm H1 H2).
    rewrite (@match_last_block_kept _ _ _ _ _ _ Hm H1 H2).
    split; reflexivity.
  - intros Hneg.
    assert (Hor : ltb (add (currentStart st) offset) zero
                  || ltb (add (currentEnd st) offset) zero = true)
      by (apply orb_true_iff; exact Hneg).
    split.
    + destruct (@match_block_dropped_log (ToLower U (subtitleText st))
                  (currentStart st) (currentEnd st) swears (segments st)
                  (logged st) Hor) as (n & Elog & Hn).
      pose proof (@match_block_dropped_segments (ToLower U (subtitleText st))
                    (currentStart st) (currentEnd st) swears (segments st)
                    (logged st) Hor) as Eseg.
      destruct n as [|n]; [exfalso; apply (Hn Hm); reflexivity|].
      exists n.
      destruct (match_block U offset (ToLower U (subtitleText st))
                  (currentStart st) (currentEnd st) swears (segments st)
                  (logged st)) as [segs log].
      cbn [fst snd] in Eseg, Elog. subst. reflexivity.
    + apply match_last_block_dropped; assumption.
Qed.

(** C8: inside a block a line that matches the timestamp pattern is block
    text like any other: it is appended to the text, and the boundaries of
    the block stay. *)
Theorem timestamp_line_inside_block_is_text (st : scan) (scanned : string) :
  inSubtitleBlock st = true ->
  SrtPattern.MatchString (TrimSpace scanned) = true ->
  scan_line U swears offset st scanned
  = Ok (mkScan (segments st) (currentStart st) (currentEnd st) true
               (subtitleText st ++ (TrimSpace scanned ++ " ")) (logged st)).
Proof.
  intros Hin Hm. unfold scan_line. rewrite Hin, Hm.
  destruct (String.eqb_spec (TrimSpace scanned) "") as [E|_].
  - rewrite E in Hm. discriminate.
  - reflexivity.
Qed.

(** ** End of input *)

Lemma scan_line_finite st scanned st' :
  finite_times st -> scan_line U swears offset st scanned = Ok st' ->
  finite_times st'.
Proof.
  intros [H1 H2]. unfold scan_line.
  destruct (String.eqb (TrimSpace scanned) "").
  - destruct (inSubtitleBlock st).
    + destruct (match_block U offset _ _ _ _ _ _) as [segs log].
      intros Heq. injection Heq as <-. split; assumption.
    + intros Heq. injection Heq as <-. split; assumption.
  - destruct (SrtPattern.MatchString (TrimSpace scanned)
              && negb (inSubtitleBlock st)).
    + destruct (SrtPattern.FindStringSubmatch (TrimSpace scanned))
        as [[m1 m2]|].
      * destruct (parseSRTTime m1) as [start|] eqn:E1; [|discriminate].
        destruct (parseSRTTime m2) as [end_|] eqn:E2; [|discriminate].
        intros Heq. injection Heq as <-.
        split; cbn [currentStart currentEnd];
          eapply parseSRTTime_finite; eassumption.
      * intros Heq. injection Heq as <-. split; assumption.
    + destruct (inSubtitleBlock st); intros Heq; injection Heq as <-;
        split; assumption.
Qed.

Lemma scan_lines_finite lines st st' :
  finite_times st -> scan_lines U swears offset st lines = inr st' ->
  finite_times st'.
Proof.
  revert st. induction lines as [|l lines IH]; intros st Hf.
  - cbn [scan_lines]. intros Heq. injection Heq as <-. exact Hf.
  - cbn [scan_lines].
    destruct (scan_line U swears offset st l) as [st1|e] eqn:E; [|discriminate].
    apply IH. eapply scan_line_finite; eassumption.
Qed.

Lemma scan_lines_app l1 l2 st :
  scan_lines U swears offset st (l1 ++ l2)%list
  = match scan_lines U swears offset st l1 with
    | inl e => inl e
    | inr st' => scan_lines U swears offset st' l2
    end.
Proof.
  revert st. induction l1 as [|l l1 IH]; intros st; [reflexivity|].
  cbn [scan_lines app].
  destruct (scan_line U swears offset st l); [apply IH|reflexivity].
Qed.

(** With boundaries that are numbers, the two loops over the terms add the
    same intervals. *)
Lemma match_block_same_segments text start end_ segs log :
  isNaN (add start offset) = false -> isNaN (add end_ offset) = false ->
  fst (match_block U offset text start end_ swears segs log)
  = fst (match_last_block U offset text start end_ swears segs log).
Proof.
  intros N1 N2.
  destruct (matches U swears text) eqn:Hm.
  - destruct (not_nan_sign _ N1) as [G1|L1].
    + destruct (not_nan_sign _ N2) as [G2|L2].
      * rewrite (@match_block_kept _ _ _ _ segs log Hm G1 G2).
        rewrite (@match_last_block_kept _ _ _ _ segs log Hm G1 G2).
        reflexivity.
      * assert (Hor : ltb (add start offset) zero || ltb (add end_ offset) zero = true)
          by (rewrite L2; apply orb_true_r).
        rewrite (@match_block_dropped_segments _ _ _ swears segs log Hor).
        rewrite (@match_last_block_dropped _ _ _ _ segs log Hm Hor).
        reflexivity.
    + assert (Hor : ltb (add start offset) zero || ltb (add end_ offset) zero = true)
        by (rewrite L1; reflexivity).
      rewrite (@match_block_dropped_segments _ _ _ swears segs log Hor).
      rewrite (@match_last_block_dropped _ _ _ _ segs log Hm Hor).
      reflexivity.
  - destruct (@match_block_none text start end_ swears segs log Hm) as [-> ->].
    reflexivity.
Qed.

(** C9: the end of input closes the last block.  A block still open after
    the last line is matched against the vocabulary, and on a match with
    shifted boundaries not below zero its interval is added, as it is when a
    blank line follows; with an offset that is a number, a source without the
    closing blank line yields the intervals (or the error) of the same source
    with it. *)
Theorem end_of_input_closes_block (lines : list string) :
  (forall st,
     scan_lines U swears offset scan_init lines = inr st ->
     inSubtitleBlock st = true ->
     matches U swears (ToLower U (subtitleText st)) = true ->
     geb (add (currentStart st) offset) zero = true ->
     geb (add (currentEnd st) offset) zero = true ->
     let interval := mkSegment (add (currentStart st) offset)
                               (add (currentEnd st) offset) in
     findSwearTimestamps U swears offset (File lines false)
     = (Ok (segments st ++ [interval])%list, logged st) /\
     findSwearTimestamps U swears offset (File (lines ++ [""]) false)
     = (Ok (segments st ++ [interval])%list, logged st))
  /\
  (isNaN offset = false ->
   fst (findSwearTimestamps U swears offset (File lines false))
   = fst (findSwearTimestamps U swears offset (File (lines ++ [""]) false))).
Proof.
  split.
  - intros st Hscan Hin Hm G1 G2. cbv zeta.
    unfold findSwearTimestamps.
    rewrite scan_lines_app, Hscan. cbn [scan_lines].
    destruct (@kept_block_closed st "" Hin eq_refl Hm G1 G2) as [Eline Efin].
    rewrite Eline, Efin. split; [reflexivity|].
    unfold finish. cbn [inSubtitleBlock segments logged]. reflexivity.
  - intros Hoff. unfold findSwearTimestamps.
    rewrite scan_lines_app.
    destruct (scan_lines U swears offset scan_init lines) as [[e log]|st] eqn:Hscan;
      [reflexivity|].
    assert (Hfin : finite_times st).
    { eapply scan_lines_finite; [|exact Hscan]. split; reflexivity. }
    destruct Hfin as [F1 F2].
    pose proof (add_finite_not_nan _ _ F1 Hoff) as N1.
    pose proof (add_finite_not_nan _ _ F2 Hoff) as N2.
    cbn [scan_lines]. unfold scan_line.
    change (TrimSpace "") with "". change (String.eqb "" "") with true.
    cbv iota.
    destruct (inSubtitleBlock st) eqn:Hin.
    + pose proof (@match_block_same_segments
                    (ToLower U (subtitleText st)) (currentStart st)
                    (currentEnd st) (segments st) (logged st) N1 N2) as Hsame.
      unfold finish at 1. rewrite Hin.
      destruct (match_block U offset (ToLower U (subtitleText st))
                  (currentStart st) (currentEnd st) swears (segments st)
                  (logged st)) as [segs1 log1].
      destruct (match_last_block U offset (ToLower U (subtitleText st))
                  (currentStart st) (currentEnd st) swears (segments st)
                  (logged st)) as [segs2 log2].
      cbn [fst] in Hsame. subst segs2.
      unfold finish. cbn [inSubtitleBlock segments logged fst]. reflexivity.
    + unfold finish. rewrite Hin. reflexivity.
Qed.

End ExtractorFacts.

Section ExtractorExamples.
Import GoStr F64.
Local Open Scope string_scope.

Definition minus_half : float64 := of_ratio (-1) 2.
Definition minus_ten : float64 := of_int (-10).

(** A block from five to six seconds, still open after its text line. *)
Definition open_block_lines : list string :=
  ["1"; "00:00:05,000 --> 00:00:06,000"; "What the fuck"].

Definition open_block : scan :=
  mkScan [] (of_int 5) (of_int 6) true "What the fuck " [].

Example open_block_reached offset :
  scan_lines no_tables ["fuck"] offset scan_init open_block_lines
  = inr open_block.
Proof. vm_compute. reflexivity. Qed.

(** The examples of the specification. *)
Example extractor_example :
  findSwearTimestamps no_tables ["fuck"] minus_half
                      (File (open_block_lines ++ [""]) false)
  = (Ok [seg 45 10 55 10], []).
Proof. vm_compute. reflexivity. Qed.

Example extractor_example_discarded :
  findSwearTimestamps no_tables ["fuck"] minus_ten
                      (File (open_block_lines ++ [""]) false)
  = (Ok [],
     ["Warning: Offset -10.000000 makes segment (5.000000, 6.000000) negative, skipping"]).
Proof. vm_compute. reflexivity. Qed.

Example matcher_example :
  Contains (ToLower no_tables "Fucking awesome") (ToLower no_tables "fuck")
  = true.
Proof. reflexivity. Qed.

Lemma extractor_applies_offset_witness :
  (scan_line no_tables ["fuck"] minus_half open_block ""
   = Ok (mkScan [seg 45 10 55 10] (of_int 5) (of_int 6) false "" [])
   /\ finish no_tables ["fuck"] minus_half open_block
      = ([seg 45 10 55 10], []))
  /\
  ((exists n,
      scan_line no_tables ["fuck"] minus_ten open_block ""
      = Ok (mkScan [] (of_int 5) (of_int 6) false ""
                   (repeat "Warning: Offset -10.000000 makes segment (5.000000, 6.000000) negative, skipping"
                           (S n))))
   /\ finish no_tables ["fuck"] minus_ten open_block
      = ([], ["Warning: Offset -10.000000 makes segment (5.000000, 6.000000) negative, skipping"])).
Proof.
  split.
  - destruct (@extractor_applies_offset no_tables ["fuck"] minus_half
                open_block "" eq_refl eq_refl eq_refl) as [Hkept _].
    assert (G1 : geb (add (currentStart open_block) minus_half) zero = true)
      by (vm_compute; reflexivity).
    assert (G2 : geb (add (currentEnd open_block) minus_half) zero = true)
      by (vm_compute; reflexivity).
    pose proof (Hkept G1 G2) as H.
    vm_compute in H. vm_compute. exact H.
  - destruct (@extractor_applies_offset no_tables ["fuck"] minus_ten
                open_block "" eq_refl eq_refl eq_refl) as [_ Hdropped].
    assert (L1 : ltb (add (currentStart open_block) minus_ten) zero = true)
      by (vm_compute; reflexivity).
    destruct (Hdropped (or_introl L1)) as [[n Hn] Hfin].
    assert (W : "Warning: Offset " ++ FormatFloat 6 minus_ten
                ++ " makes segment ("
                ++ FormatFloat 6 (currentStart open_block) ++ ", "
                ++ FormatFloat 6 (currentEnd open_block)
                ++ ") negative, skipping"
                = "Warning: Offset -10.000000 makes segment (5.000000, 6.000000) negative, skipping")
      by (vm_compute; reflexivity).
    rewrite W in Hn, Hfin.
    split.
    + exists n. exact Hn.
    + exact Hfin.
Defined.

Lemma timestamp_line_inside_block_is_text_witness :
  scan_line no_tables ["fuck"] minus_half open_block
            "00:00:07,000 --> 00:00:08,000"
  = Ok (mkScan [] (of_int 5) (of_int 6) true
               "What the fuck 00:00:07,000 --> 00:00:08,000 " []).
Proof.
  exact (@timestamp_line_inside_block_is_text no_tables ["fuck"] minus_half
           open_block "00:00:07,000 --> 00:00:08,000" eq_refl eq_refl).
Defined.

(** Two blocks without the blank line between them are one block. *)
Example missing_separator_example :
  findSwearTimestamps no_tables ["fuck"] zero
    (File ["00:00:05,000 --> 00:00:06,000"; "hello";
           "00:00:07,000 --> 00:00:08,000"; "fuck"; ""] false)
  = (Ok [seg 5 1 6 1], []).
Proof. vm_compute. reflexivity. Qed.

Lemma end_of_input_closes_block_witness :
  (findSwearTimestamps no_tables ["fuck"] minus_half
                       (File open_block_lines false)
   = (Ok [seg 45 10 55 10], []) /\
   findSwearTimestamps no_tables ["fuck"] minus_half
                       (File (open_block_lines ++ [""]) false)
   = (Ok [seg 45 10 55 10], []))
  /\
  fst (findSwearTimestamps no_tables ["fuck"] minus_half
                           (File open_block_lines false))
  = fst (findSwearTimestamps no_tables ["fuck"] minus_half
                             (File (open_block_lines ++ [""]) false)).
Proof.
  destruct (@end_of_input_closes_block no_tables ["fuck"] minus_half
              open_block_lines) as [Hopen Hsame].
  assert (G1 : geb (add (currentStart open_block) minus_half) zero = true)
    by (vm_compute; reflexivity).
  assert (G2 : geb (add (currentEnd open_block) minus_half) zero = true)
    by (vm_compute; reflexivity).
  pose proof (Hopen open_block (open_block_reached minus_half)
                    eq_refl eq_refl G1 G2) as H.
  split.
  - vm_compute in H. vm_compute. exact H.
  - exact (Hsame eq_refl).
Defined.

(** ** The Timestamp Converter *)

Example parseSRTTime_example :
  parseSRTTime "00:01:23,456" = Ok (of_ratio 83456 1000).
Proof. vm_compute. reflexivity. Qed.

Example parseSRTTime_last_of_day :
  parseSRTTime "23:59:59,999" = Ok (of_ratio 86399999 1000).
Proof. vm_compute. reflexivity. Qed.

(** C3 fails from hour 24 on: the string has the lexical form of a
    timestamp, the pattern of the Scanner takes it, and the Converter
    returns an error; so it does for minute or second 60 and above. *)
Theorem parseSRTTime_rejects_hour_24 :
  SrtPattern.match_timestamp "24:00:00,000" = Some ("24:00:00,000", "") /\
  parseSRTTime "24:00:00,000" = Err (ErrParseTime "24:00:00.000") /\
  parseSRTTime "00:60:00,000" = Err (ErrParseTime "00:60:00.000") /\
  fst (findSwearTimestamps no_tables ["fuck"] zero
         (File ["24:00:00,000 --> 24:00:01,000"; "fuck"; ""] false))
  = Err (ErrParseTime "24:00:00.000").
Proof. repeat split; vm_compute; reflexivity. Qed.

(** C2 as stated fails.  The offset [Inf] is a [float64] the offset field
    accepts: the Extractor returns the interval [(+Inf, +Inf)], the Merger
    keeps it, and the Generator prints both boundaries as [+Inf], which has
    no fraction digits.  And an identifier with a double quote in it does
    not stand between the double quotes as it is. *)
Lemma generateFFmpegCommand_infinite_boundary :
  findSwearTimestamps no_tables ["fuck"] (Inf false)
                      (File (open_block_lines ++ [""]) false)
  = (Ok [mkSegment (Inf false) (Inf false)], [])
  /\
  mergeSegments insertionSort [mkSegment (Inf false) (Inf false)]
  = [mkSegment (Inf false) (Inf false)]
  /\
  generateFFmpegCommand no_tables "in.mp4" "out.mp4"
                        [mkSegment (Inf false) (Inf false)]
  = "ffmpeg -i " ++ dquote ++ "in.mp4" ++ dquote ++ " -af " ++ dquote
    ++ "volume=enable='between(t,+Inf,+Inf)':volume=0"
    ++ dquote ++ " -c:v copy -c:a aac " ++ dquote ++ "out.mp4" ++ dquote
  /\
  ~ Shape.three_decimals
      (FormatFloat 3 (Start (mkSegment (Inf false) (Inf false))))
  /\
  generateFFmpegCommand no_tables "in.mp4" ("a" ++ dquote ++ "b.mp4")
                        [mkSegment (Inf false) (Inf false)]
  = "ffmpeg -i " ++ dquote ++ "in.mp4" ++ dquote ++ " -af " ++ dquote
    ++ "volume=enable='between(t,+Inf,+Inf)':volume=0"
    ++ dquote ++ " -c:v copy -c:a aac "
    ++ dquote ++ "a" ++ backslash ++ dquote ++ "b.mp4" ++ dquote.
Proof.
  split; [vm_compute; reflexivity|].
  split; [vm_compute; reflexivity|].
  split; [vm_compute; reflexivity|].
  split; [exact plus_inf_not_three_decimals|].
  vm_compute. reflexivity.
Qed.

End ExtractorExamples.

(* ================================================================== *)
(** * More on binary64: representable results and monotone rounding *)
(* ================================================================== *)

Module F64More.
Import F64 F64Ops F64Facts.
Local Open Scope Z_scope.

(** The significand and the exponent rounding leaves: at most 53 bits, and
    all 53 of them above the subnormal range. *)
Lemma round_mag_parts num den :
  0 <= num -> 0 < den ->
  exists r,
    round_mag num den = r * 2 ^ shift (num / den) /\
    0 <= r <= 2 ^ 53 /\
    (0 < shift (num / den) -> 2 ^ 52 <= r).
Proof.
  intros Hn Hd. unfold round_mag.
  set (q0 := num / den).
  assert (Hq0 : 0 <= q0) by (apply Z.div_pos; lia).
  pose proof (shift_nonneg q0) as Hk.
  set (k := shift q0) in *.
  assert (Hp : 0 < 2 ^ k) by (apply Z.pow_pos_nonneg; lia).
  set (D := den * 2 ^ k).
  assert (HD : 0 < D) by (subst D; nia).
  exists (rne (num / D) (num mod D) D).
  pose proof (rne_bounds (num / D) (num mod D) D) as Hr.
  assert (Hdd : num / D = q0 / 2 ^ k)
    by (unfold q0, D; rewrite Z.div_div by lia; reflexivity).
  rewrite Hdd in *.
  assert (Hqk : 0 <= q0 / 2 ^ k) by (apply Z.div_pos; lia).
  split; [reflexivity|].
  assert (Hup : q0 < 2 ^ 53 * 2 ^ k).
  { rewrite <- Z.pow_add_r by lia.
    destruct (Z.eq_dec q0 0) as [E|NE].
    - rewrite E. apply Z.pow_pos_nonneg; lia.
    - apply Z.log2_lt_pow2; [lia|]. subst k. unfold shift. lia. }
  assert (Hqu : q0 / 2 ^ k < 2 ^ 53) by (apply Z.div_lt_upper_bound; lia).
  split; [lia|].
  intros Hkpos.
  assert (Hlog : k = Z.log2 q0 - 52) by (subst k; unfold shift in *; lia).
  assert (Hpos : 0 < q0).
  { destruct (Z.eq_dec q0 0) as [E|]; [|lia].
    rewrite E in Hlog. simpl in Hlog. lia. }
  assert (Hlo : 2 ^ 52 * 2 ^ k <= q0).
  { rewrite <- Z.pow_add_r by lia.
    replace (52 + k) with (Z.log2 q0) by lia.
    apply Z.log2_spec; lia. }
  assert (2 ^ 52 <= q0 / 2 ^ k) by (apply Z.div_le_lower_bound; lia).
  lia.
Qed.

(** Such a product is a fixed point of rounding. *)
Lemma round_mag_fixed r k :
  0 <= k -> 0 <= r <= 2 ^ 53 -> (0 < k -> 2 ^ 52 <= r) ->
  round_mag (r * 2 ^ k) 1 = r * 2 ^ k.
Proof.
  intros Hk Hr Hlow.
  assert (Hp : 0 < 2 ^ k) by (apply Z.pow_pos_nonneg; lia).
  rewrite round_mag_int.
  destruct (Z.eq_dec r 0) as [->|Hr0].
  { rewrite Z.mul_0_l. reflexivity. }
  destruct (Z_lt_le_dec r (2 ^ 52)) as [Hsmall|Hbig].
  - assert (k = 0) by lia. subst k.
    change (2 ^ 0) with 1. rewrite Z.mul_1_r.
    assert (Hs : shift r = 0).
    { unfold shift.
      assert (Z.log2 r < 52) by (apply Z.log2_lt_pow2; lia). lia. }
    rewrite Hs. change (2 ^ 0) with 1.
    rewrite Z.div_1_r, Z.mod_1_r, rne_exact by lia. lia.
  - destruct (Z.eq_dec r (2 ^ 53)) as [->|Hne].
    + assert (Hs : shift (2 ^ 53 * 2 ^ k) = k + 1).
      { unfold shift. rewrite <- Z.pow_add_r by lia.
        rewrite Z.log2_pow2 by lia. lia. }
      rewrite Hs.
      assert (E : 2 ^ 53 * 2 ^ k = 2 ^ 52 * 2 ^ (k + 1)).
      { rewrite (Z.pow_add_r 2 k 1) by lia. change (2 ^ 53) with (2 ^ 52 * 2).
        change (2 ^ 1) with 2. ring. }
      assert (Hp1 : 0 < 2 ^ (k + 1)) by (apply Z.pow_pos_nonneg; lia).
      rewrite E, Z.div_mul, Z.mod_mul, rne_exact by lia. reflexivity.
    + assert (Hl : Z.log2 r = 52).
      { apply Z.log2_unique; [lia|]. change (2 ^ Z.succ 52) with (2 ^ 53). lia. }
      assert (Hs : shift (r * 2 ^ k) = k).
      { unfold shift. rewrite Z.log2_mul_pow2 by lia. lia. }
      rewrite Hs, Z.div_mul, Z.mod_mul, rne_exact by lia. reflexivity.
Qed.

(** Rounding twice is rounding once. *)
Lemma round_mag_idem num den :
  0 <= num -> 0 < den ->
  round_mag (round_mag num den) 1 = round_mag num den.
Proof.
  intros Hn Hd.
  destruct (round_mag_parts Hn Hd) as (r & -> & Hr & Hlow).
  apply round_mag_fixed; [apply shift_nonneg|exact Hr|exact Hlow].
Qed.

Lemma mk_valid s num den :
  0 <= num -> 0 < den -> valid (mk s num den) = true.
Proof.
  intros Hn Hd. unfold mk; cbv zeta.
  destruct (Z.leb_spec overflow_threshold (round_mag num den)) as [H|H];
    [reflexivity|].
  cbn [valid]. unfold valid_mag.
  pose proof (round_mag_nonneg Hn Hd) as H0.
  rewrite (round_mag_idem Hn Hd), Z.eqb_refl.
  destruct (Z.leb_spec 0 (round_mag num den)); [|lia].
  destruct (Z.ltb_spec (round_mag num den) overflow_threshold); [|lia].
  reflexivity.
Qed.

(** A sum is a representable value. *)
Lemma add_valid x y : valid (add x y) = true.
Proof.
  destruct x as [|a|s1 m1], y as [|b|s2 m2]; cbn [add]; try reflexivity.
  - destruct (Bool.eqb a b); reflexivity.
  - cbv zeta. destruct (Z.eqb_spec (sval s1 m1 + sval s2 m2) 0); [reflexivity|].
    apply mk_valid; lia.
Qed.

(** Rounding is monotone, whatever the denominator. *)
Lemma round_mag_mono_den a b den :
  0 <= a <= b -> 0 < den -> round_mag a den <= round_mag b den.
Proof.
  intros Hab Hd.
  assert (Hqa : 0 <= a / den) by (apply Z.div_pos; lia).
  assert (Hq : a / den <= b / den) by (apply Z.div_le_mono; lia).
  pose proof (@shift_mono (a / den) (b / den) ltac:(lia)) as Hk.
  pose proof (shift_nonneg (a / den)) as Hka.
  destruct (Z.eq_dec (shift (a / den)) (shift (b / den))) as [E|NE].
  - unfold round_mag. rewrite <- E.
    set (k := shift (a / den)) in *.
    assert (Hp : 0 < 2 ^ k) by (apply Z.pow_pos_nonneg; lia).
    assert (HD : 0 < den * 2 ^ k) by nia.
    pose proof (@rne_mono (den * 2 ^ k) a b HD ltac:(lia)). nia.
  - destruct (@round_mag_parts a den ltac:(lia) Hd) as (ra & -> & Hra & _).
    destruct (@round_mag_parts b den ltac:(lia) Hd) as (rb & -> & Hrb & Hlow).
    set (ka := shift (a / den)) in *. set (kb := shift (b / den)) in *.
    assert (Hpa : 0 < 2 ^ ka) by (apply Z.pow_pos_nonneg; lia).
    assert (Hpb : 0 < 2 ^ kb) by (apply Z.pow_pos_nonneg; lia).
    assert (Hstep : 2 ^ 53 * 2 ^ ka <= 2 ^ 52 * 2 ^ kb).
    { replace kb with ((kb - ka - 1) + (ka + 1)) by lia.
      rewrite (Z.pow_add_r 2 (kb - ka - 1)) by lia.
      rewrite (Z.pow_add_r 2 ka 1) by lia.
      assert (0 < 2 ^ (kb - ka - 1)) by (apply Z.pow_pos_nonneg; lia).
      change (2 ^ 53) with (2 ^ 52 * 2). change (2 ^ 1) with 2.
      nia. }
    specialize (Hlow ltac:(lia)).
    assert (ra * 2 ^ ka <= 2 ^ 53 * 2 ^ ka) by nia.
    assert (2 ^ 52 * 2 ^ kb <= rb * 2 ^ kb) by nia.
    lia.
Qed.

(** [mk] keeps the order of the magnitudes. *)
Lemma mk_mono (s : bool) a b den :
  0 <= a <= b -> 0 < den ->
  (if s then leb (mk s b den) (mk s a den) else leb (mk s a den) (mk s b den)) = true.
Proof.
  intros Hab Hd.
  pose proof (round_mag_mono_den Hab Hd) as Hm.
  pose proof (@round_mag_nonneg a den ltac:(lia) Hd) as H0.
  unfold mk; cbv zeta.
  destruct (Z.leb_spec overflow_threshold (round_mag a den));
    destruct (Z.leb_spec overflow_threshold (round_mag b den));
    destruct s; cbn [leb orb negb]; try reflexivity; try lia;
    unfold sval; apply Z.leb_le; lia.
Qed.

Lemma mk_neg_le_zero n (s : bool) :
  0 <= n -> leb (mk true n 1) (Fin s 0) = true.
Proof.
  intros Hn. pose proof (@round_mag_nonneg n 1 Hn ltac:(lia)) as H0.
  unfold mk; cbv zeta. destruct (_ <=? _); cbn [leb]; [reflexivity|].
  apply Z.leb_le. destruct s; cbn [sval]; lia.
Qed.

Lemma zero_le_mk_pos n (s : bool) :
  0 <= n -> leb (Fin s 0) (mk false n 1) = true.
Proof.
  intros Hn. pose proof (@round_mag_nonneg n 1 Hn ltac:(lia)) as H0.
  unfold mk; cbv zeta. destruct (_ <=? _); cbn [leb negb]; [reflexivity|].
  apply Z.leb_le. destruct s; cbn [sval]; lia.
Qed.

Lemma zero_le_zero (s t : bool) : leb (Fin s 0) (Fin t 0) = true.
Proof. destruct s, t; reflexivity. Qed.

(** The sum of two finite values from the exact sum of their signed
    magnitudes. *)
Definition of_signed (v : Z) (s : bool) : float64 :=
  if v =? 0 then Fin s 0 else mk (v <? 0) (Z.abs v) 1.

Lemma of_signed_mono v w (s t : bool) :
  v <= w -> leb (of_signed v s) (of_signed w t) = true.
Proof.
  intros H. unfold of_signed.
  destruct (Z.eqb_spec v 0) as [Ev|Ev], (Z.eqb_spec w 0) as [Ew|Ew].
  - apply zero_le_zero.
  - destruct (Z.ltb_spec w 0); [lia|]. apply zero_le_mk_pos. lia.
  - destruct (Z.ltb_spec v 0); [|lia]. apply mk_neg_le_zero. lia.
  - destruct (Z.ltb_spec v 0), (Z.ltb_spec w 0); try lia.
    + apply (@mk_mono true (Z.abs w) (Z.abs v) 1); lia.
    + apply leb_trans with (Fin false 0);
        [apply mk_neg_le_zero|apply zero_le_mk_pos]; lia.
    + apply (@mk_mono false (Z.abs v) (Z.abs w) 1); lia.
Qed.

(** Adding the same number to both sides keeps the order. *)
Lemma add_mono x y o :
  isFinite x = true -> isFinite y = true -> isNaN o = false ->
  leb x y = true -> leb (add x o) (add y o) = true.
Proof.
  destruct x as [| |s1 m1]; try discriminate.
  destruct y as [| |s2 m2]; try discriminate.
  destruct o as [|b|s m]; try discriminate; intros _ _ _ Hle.
  - destruct b; reflexivity.
  - cbn [leb] in Hle. apply Z.leb_le in Hle.
    change (add (Fin s1 m1) (Fin s m))
      with (of_signed (sval s1 m1 + sval s m) (s1 && s)).
    change (add (Fin s2 m2) (Fin s m))
      with (of_signed (sval s2 m2 + sval s m) (s2 && s)).
    apply of_signed_mono. lia.
Qed.

(** Integers below [2^53] convert exactly. *)
Lemma of_int_exact n :
  0 <= n < 2 ^ 53 -> of_int n = Fin false (n * unit_scale).
Proof.
  intros Hn. pose proof unit_scale_pos as Hu.
  unfold of_int. destruct (Z.ltb_spec n 0); [lia|].
  rewrite Z.abs_eq by lia.
  assert (Hfix : round_mag (n * unit_scale) 1 = n * unit_scale).
  { destruct (Z.eq_dec n 0) as [->|Hn0]; [reflexivity|].
    pose proof (Z.log2_nonneg n) as Hl0.
    assert (Hl : Z.log2 n < 53) by (apply Z.log2_lt_pow2; lia).
    destruct (Z.log2_spec n ltac:(lia)) as [Hlo Hhi].
    set (l := Z.log2 n) in *.
    assert (E : n * unit_scale = (n * 2 ^ (52 - l)) * 2 ^ (1022 + l)).
    { unfold unit_scale, emin_bits.
      rewrite <- Z.mul_assoc, <- Z.pow_add_r by lia.
      replace (52 - l + (1022 + l)) with 1074 by lia. reflexivity. }
    rewrite E. apply round_mag_fixed.
    - lia.
    - assert (0 < 2 ^ (52 - l)) by (apply Z.pow_pos_nonneg; lia).
      split; [nia|].
      replace (2 ^ 53) with (2 ^ Z.succ l * 2 ^ (52 - l)).
      + nia.
      + rewrite <- Z.pow_add_r by lia. f_equal. lia.
    - intros _.
      replace (2 ^ 52) with (2 ^ l * 2 ^ (52 - l)).
      + assert (0 < 2 ^ (52 - l)) by (apply Z.pow_pos_nonneg; lia). nia.
      + rewrite <- Z.pow_add_r by lia. f_equal. lia. }
  unfold mk; cbv zeta. rewrite Hfix.
  assert (Hov : n * unit_scale < overflow_threshold).
  { rewrite overflow_threshold_eq.
    apply Z.mul_lt_mono_pos_r; [exact Hu|].
    assert (2 ^ 53 < 2 ^ 1024) by (apply Z.pow_lt_mono_r; lia). lia. }
  destruct (Z.leb_spec overflow_threshold (n * unit_scale)); [lia|reflexivity].
Qed.

End F64More.

(* ================================================================== *)
(** * More on the Interval Merger *)
(* ================================================================== *)

Section MergerCoverage.
Import F64 F64Facts.

Lemma sweep_from_boundaries current rest o :
  In o (sweep_from current rest) ->
  (exists a, In a (current :: rest) /\ Start o = Start a) /\
  (exists b, In b (current :: rest) /\ End_ o = End_ b).
Proof.
  revert current.
  induction rest as [|s rest IH]; intros current Hin.
  - cbn [sweep_from] in Hin. destruct Hin as [<-|[]].
    split; exists current; split; auto; left; reflexivity.
  - cbn [sweep_from] in Hin.
    destruct (leb (Start s) (add (End_ current) one)).
    + apply IH in Hin as [(a & Ha & Ea) (b & Hb & Eb)].
      split.
      * destruct Ha as [<-|Ha].
        -- exists current. split; [left; reflexivity|].
           rewrite Ea. destruct (gtb (End_ s) (End_ current)); reflexivity.
        -- exists a. split; [right; right; exact Ha|exact Ea].
      * destruct Hb as [<-|Hb].
        -- destruct (gtb (End_ s) (End_ current)).
           ++ exists s. split; [right; left; reflexivity|exact Eb].
           ++ exists current. split; [left; reflexivity|exact Eb].
        -- exists b. split; [right; right; exact Hb|exact Eb].
    + destruct Hin as [<-|Hin].
      * split; exists current; split; auto; left; reflexivity.
      * apply IH in Hin as [(a & Ha & Ea) (b & Hb & Eb)].
        split; [exists a|exists b]; split; auto; right; assumption.
Qed.

Lemma sweep_from_length current rest :
  length (sweep_from current rest) <= S (length rest).
Proof.
  revert current.
  induction rest as [|s rest IH]; intros current; cbn [sweep_from length].
  - lia.
  - destruct (leb (Start s) (add (End_ current) one)).
    + specialize (IH (if gtb (End_ s) (End_ current)
                      then set_End current (End_ s) else current)). lia.
    + specialize (IH s). cbn [length]. lia.
Qed.

(** X1.  The Merger invents no boundary and returns no more intervals than it
    was given: every returned interval starts where some given interval
    starts and ends where some given interval ends. *)
Theorem mergeSegments_boundaries_from_input (srt : sorter) (segments : list Segment) :
  (forall l, Permutation l (srt l)) ->
  length (mergeSegments srt segments) <= length segments /\
  forall o, In o (mergeSegments srt segments) ->
    (exists a, In a segments /\ Start o = Start a) /\
    (exists b, In b segments /\ End_ o = End_ b).
Proof.
  intros Hperm.
  destruct (@mergeSegments_cases srt segments Hperm)
    as [[-> E]|(first & rest & Hp & E)].
  - rewrite E. split; [cbn; lia|intros o []].
  - rewrite E. split.
    + rewrite (Permutation_length Hp). apply sweep_from_length.
    + intros o Ho. apply sweep_from_boundaries in Ho as [(a & Ha & Ea) (b & Hb & Eb)].
      split; [exists a|exists b]; split; auto;
        eapply Permutation_in; [apply Permutation_sym, Hp| |apply Permutation_sym, Hp|];
        assumption.
Qed.

Lemma merge_step_no_nan current s :
  no_nan current -> no_nan s ->
  no_nan (if gtb (End_ s) (End_ current)
          then set_End current (End_ s) else current).
Proof.
  intros [C1 C2] [S1 S2].
  destruct (gtb (End_ s) (End_ current)); split; assumption.
Qed.

Lemma merge_step_end_grows current s :
  no_nan current -> no_nan s ->
  let c' := if gtb (End_ s) (End_ current)
            then set_End current (End_ s) else current in
  Start c' = Start current /\
  leb (End_ current) (End_ c') = true /\ leb (End_ s) (End_ c') = true.
Proof.
  intros [C1 C2] [S1 S2]. cbv zeta. unfold gtb.
  destruct (ltb (End_ current) (End_ s)) eqn:E; cbn [set_End Start End_].
  - split; [reflexivity|]. split; [apply ltb_leb, E|apply leb_refl, S2].
  - split; [reflexivity|].
    split; [apply leb_refl, C2|apply ltb_false_leb; assumption].
Qed.

Lemma sweep_from_covers current rest :
  no_nan current -> Forall no_nan rest ->
  Forall (fun s => leb (Start current) (Start s) = true) rest ->
  ordered_by_start rest ->
  (exists o, In o (sweep_from current rest) /\
             Start o = Start current /\ leb (End_ current) (End_ o) = true) /\
  (forall s, In s rest -> exists o, In o (sweep_from current rest) /\ covers o s).
Proof.
  revert current.
  induction rest as [|s rest IH]; intros current Hc Hr Hle Hord.
  - cbn [sweep_from]. split.
    + exists current. split; [left; reflexivity|].
      split; [reflexivity|apply leb_refl, Hc].
    + intros s [].
  - inversion Hr as [|? ? Hs Hr']; subst.
    inversion Hle as [|? ? Hcs Hle']; subst.
    inversion Hord as [|? ? Hord' Hall]; subst.
    cbn [sweep_from].
    destruct (leb (Start s) (add (End_ current) one)).
    + destruct (merge_step_end_grows Hc Hs) as (Est & Eend & Esend).
      set (c' := if gtb (End_ s) (End_ current)
                 then set_End current (End_ s) else current) in *.
      destruct (IH c') as [(o & Ho & Eo & Hoe) Hcov].
      * apply merge_step_no_nan; assumption.
      * exact Hr'.
      * rewrite Est. exact Hle'.
      * exact Hord'.
      * split.
        -- exists o. split; [exact Ho|]. split; [congruence|].
           eapply leb_trans; eassumption.
        -- intros x [<-|Hx]; [|apply Hcov, Hx].
           exists o. split; [exact Ho|]. split.
           ++ rewrite Eo, Est. exact Hcs.
           ++ eapply leb_trans; eassumption.
    + destruct (IH s) as [(o & Ho & Eo & Hoe) Hcov].
      * exact Hs.
      * exact Hr'.
      * apply Forall_forall. intros x Hx.
        rewrite Forall_forall in Hall, Hr'.
        specialize (Hall _ Hx). unfold less in Hall.
        apply ltb_false_leb; [apply (Hr' _ Hx)|apply Hs|exact Hall].
      * exact Hord'.
      * split.
        -- exists current. split; [left; reflexivity|].
           split; [reflexivity|apply leb_refl, Hc].
        -- intros x [<-|Hx].
           ++ exists o. split; [right; exact Ho|]. split.
              ** rewrite Eo. apply leb_refl, Hs.
              ** exact Hoe.
           ++ destruct (Hcov _ Hx) as (o' & Ho' & Hc').
              exists o'. split; [right; exact Ho'|exact Hc'].
Qed.

(** On a sorted list the sweep covers every element. *)
Lemma sorted_sweep_covers first rest :
  Forall no_nan (first :: rest) -> ordered_by_start (first :: rest) ->
  forall s, In s (first :: rest) ->
    exists o, In o (sweep_from first rest) /\ covers o s.
Proof.
  intros Hnn Hsorted s Hs.
  inversion Hnn as [|? ? Hf Hr]; subst.
  inversion Hsorted as [|? ? Hord' Hall]; subst.
  assert (Hle : Forall (fun x => leb (Start first) (Start x) = true) rest).
  { apply Forall_forall. intros x Hx.
    rewrite Forall_forall in Hall, Hr.
    specialize (Hall _ Hx). unfold less in Hall.
    apply ltb_false_leb; [apply (Hr _ Hx)|apply Hf|exact Hall]. }
  destruct (sweep_from_covers Hf Hr Hle Hord') as [(o & Ho & Eo & Hoe) Hcov].
  destruct Hs as [<-|Hs].
  - exists o. split; [exact Ho|]. split; [|exact Hoe].
    rewrite Eo. apply leb_refl, Hf.
  - apply Hcov, Hs.
Qed.

(** X2.  The Merger loses no muted time: every given interval lies inside one
    of the returned intervals. *)
Theorem mergeSegments_covers_input (srt : sorter) (segments : list Segment) :
  sort_contract srt ->
  Forall no_nan segments ->
  forall s, In s segments ->
    exists o, In o (mergeSegments srt segments) /\ covers o s.
Proof.
  intros [Hperm Hord] Hnn s Hs.
  assert (Hne : segments <> []) by (intros ->; destruct Hs).
  destruct (mergeSegments_sweeps_sorted srt Hperm Hne)
    as (first & rest & Esrt & E).
  rewrite E.
  pose proof (Hperm segments) as Hp. rewrite Esrt in Hp.
  apply sorted_sweep_covers.
  - apply (Permutation_Forall Hp Hnn).
  - rewrite <- Esrt. apply Hord.
    eapply Forall_impl; [|exact Hnn]. intros x [Hx _]. exact Hx.
  - apply (Permutation_in _ Hp), Hs.
Qed.

End MergerCoverage.

(* ================================================================== *)
(** * More on the Interval Extractor *)
(* ================================================================== *)

Section ExtractorMore.
Import GoStr F64 F64Facts.
Local Open Scope string_scope.

Variable U : Unicode.
Variable offset : float64.

(** ** What the two loops over the vocabulary compute *)

Lemma matches_matching_terms text terms :
  matches U terms text = negb (Nat.eqb (length (matching_terms U text terms)) 0).
Proof.
  induction terms as [|t terms IH]; [reflexivity|].
  rewrite matches_cons. unfold matching_terms in *. cbn [filter].
  destruct (Contains text (ToLower U t)); [reflexivity|exact IH].
Qed.

Lemma match_block_spec text start end_ terms segs log :
  match_block U offset text start end_ terms segs log
  = if ltb (add start offset) zero || ltb (add end_ offset) zero
    then (segs, (log ++ repeat (warning offset start end_)
                               (length (matching_terms U text terms)))%list)
    else if matches U terms text
         then ((segs ++ [mkSegment (add start offset) (add end_ offset)])%list, log)
         else (segs, log).
Proof.
  revert log. induction terms as [|t terms IH]; intros log.
  - cbn [match_block matching_terms filter length repeat].
    rewrite app_nil_r. unfold matches. cbn [existsb].
    destruct (_ || _); reflexivity.
  - rewrite match_block_cons, matches_cons.
    unfold matching_terms in *. cbn [filter].
    destruct (Contains text (ToLower U t)).
    + destruct (ltb (add start offset) zero || ltb (add end_ offset) zero) eqn:En.
      * rewrite IH. cbn [length repeat]. rewrite <- app_assoc. reflexivity.
      * reflexivity.
    + rewrite IH. reflexivity.
Qed.

Lemma match_last_block_spec text start end_ terms segs log :
  match_last_block U offset text start end_ terms segs log
  = if matches U terms text
    then if geb (add start offset) zero && geb (add end_ offset) zero
         then ((segs ++ [mkSegment (add start offset) (add end_ offset)])%list, log)
         else (segs, (log ++ [warning offset start end_])%list)
    else (segs, log).
Proof.
  induction terms as [|t terms IH]; [reflexivity|].
  rewrite match_last_block_cons, matches_cons.
  destruct (Contains text (ToLower U t)); [reflexivity|exact IH].
Qed.

Lemma matching_terms_perm text terms terms' :
  Permutation terms terms' ->
  length (matching_terms U text terms) = length (matching_terms U text terms').
Proof.
  intros Hp. unfold matching_terms.
  induction Hp as [|x l l' Hp IH|x y l|l l' l'' H1 IH1 H2 IH2]; cbn [filter].
  - reflexivity.
  - destruct (Contains text (ToLower U x)); cbn [length]; congruence.
  - destruct (Contains text (ToLower U x)), (Contains text (ToLower U y));
      reflexivity.
  - congruence.
Qed.

Lemma matches_perm text terms terms' :
  Permutation terms terms' -> matches U terms text = matches U terms' text.
Proof.
  intros Hp. rewrite !matches_matching_terms.
  rewrite (matching_terms_perm text Hp). reflexivity.
Qed.

Lemma scan_line_perm swears swears' st scanned :
  Permutation swears swears' ->
  scan_line U swears offset st scanned = scan_line U swears' offset st scanned.
Proof.
  intros Hp. unfold scan_line.
  rewrite !match_block_spec.
  rewrite (matching_terms_perm _ Hp), (matches_perm _ Hp). reflexivity.
Qed.

Lemma scan_lines_perm swears swears' lines st :
  Permutation swears swears' ->
  scan_lines U swears offset st lines = scan_lines U swears' offset st lines.
Proof.
  intros Hp. revert st.
  induction lines as [|l lines IH]; intros st; [reflexivity|].
  cbn [scan_lines]. rewrite (scan_line_perm st l Hp).
  destruct (scan_line U swears' offset st l); [apply IH|reflexivity].
Qed.

(** X3.  The order of the vocabulary changes neither the intervals nor what is
    logged. *)
Theorem findSwearTimestamps_vocabulary_order swears swears' (srt : source) :
  Permutation swears swears' ->
  findSwearTimestamps U swears offset srt
  = findSwearTimestamps U swears' offset srt.
Proof.
  intros Hp. destruct srt as [|lines read_error]; [reflexivity|].
  unfold findSwearTimestamps.
  rewrite (scan_lines_perm lines scan_init Hp).
  destruct (scan_lines U swears' offset scan_init lines) as [[e log]|st];
    [reflexivity|].
  destruct read_error; [reflexivity|].
  unfold finish. rewrite !match_last_block_spec, (matches_perm _ Hp).
  reflexivity.
Qed.

(** ** Invariants of the scan *)

Section Scan.

Variable swears : list string.

Lemma scan_line_cases st scanned :
  let line := TrimSpace scanned in
  (line = "" /\ inSubtitleBlock st = true /\
   scan_line U swears offset st scanned
   = Ok (mkScan
           (fst (match_block U offset (ToLower U (subtitleText st))
                   (currentStart st) (currentEnd st) swears (segments st)
                   (logged st)))
           (currentStart st) (currentEnd st) false ""
           (snd (match_block U offset (ToLower U (subtitleText st))
                   (currentStart st) (currentEnd st) swears (segments st)
                   (logged st)))))
  \/
  (line <> "" /\ inSubtitleBlock st = false /\
   exists m1 m2,
     SrtPattern.FindStringSubmatch line = Some (m1, m2) /\
     ((exists e, scan_line U swears offset st scanned = Err e /\
                 (parseSRTTime m1 = Err e \/ parseSRTTime m2 = Err e)) \/
      (exists start end_,
         parseSRTTime m1 = Ok start /\ parseSRTTime m2 = Ok end_ /\
         scan_line U swears offset st scanned
         = Ok (mkScan (segments st) start end_ true (subtitleText st)
                      (logged st)))))
  \/
  (line <> "" /\ inSubtitleBlock st = true /\
   scan_line U swears offset st scanned
   = Ok (mkScan (segments st) (currentStart st) (currentEnd st) true
                (subtitleText st ++ (line ++ " ")) (logged st)))
  \/
  (inSubtitleBlock st = false /\
   SrtPattern.MatchString line = false /\
   scan_line U swears offset st scanned = Ok st).
Proof.
  cbv zeta. unfold scan_line.
  destruct (String.eqb_spec (TrimSpace scanned) "") as [E|NE].
  - destruct (inSubtitleBlock st) eqn:Hin.
    + left. split; [exact E|]. split; [reflexivity|].
      destruct (match_block U offset _ _ _ _ _ _); reflexivity.
    + right; right; right. split; [reflexivity|]. split; [|reflexivity].
      rewrite E. reflexivity.
  - destruct (inSubtitleBlock st) eqn:Hin.
    + right; right; left. rewrite andb_false_r. auto.
    + rewrite andb_true_r. unfold SrtPattern.MatchString.
      destruct (SrtPattern.FindStringSubmatch (TrimSpace scanned))
        as [[m1 m2]|] eqn:Ef.
      * right; left. split; [exact NE|]. split; [reflexivity|].
        exists m1, m2. split; [reflexivity|].
        destruct (parseSRTTime m1) as [start|e1] eqn:E1.
        -- destruct (parseSRTTime m2) as [end_|e2] eqn:E2.
           ++ right. exists start, end_. auto.
           ++ left. exists e2. auto.
        -- left. exists e1. auto.
      * right; right; right. auto.
Qed.

Lemma match_block_segments text start end_ segs log :
  fst (match_block U offset text start end_ swears segs log) = segs \/
  (fst (match_block U offset text start end_ swears segs log)
   = (segs ++ [mkSegment (add start offset) (add end_ offset)])%list /\
   ltb (add start offset) zero = false /\ ltb (add end_ offset) zero = false).
Proof.
  rewrite match_block_spec.
  destruct (ltb (add start offset) zero) eqn:E1; [left; reflexivity|].
  destruct (ltb (add end_ offset) zero) eqn:E2; [left; reflexivity|].
  cbn [orb]. destruct (matches U swears text); [right; auto|left; reflexivity].
Qed.

Lemma match_last_block_segments text start end_ segs log :
  fst (match_last_block U offset text start end_ swears segs log) = segs \/
  (fst (match_last_block U offset text start end_ swears segs log)
   = (segs ++ [mkSegment (add start offset) (add end_ offset)])%list /\
   ltb (add start offset) zero = false /\ ltb (add end_ offset) zero = false).
Proof.
  rewrite match_last_block_spec.
  destruct (matches U swears text); [|left; reflexivity].
  destruct (geb (add start offset) zero) eqn:E1; [|left; reflexivity].
  destruct (geb (add end_ offset) zero) eqn:E2; [|left; reflexivity].
  right. split; [reflexivity|].
  split; apply geb_zero_not_ltb; assumption.
Qed.

(** The state a scan keeps: the intervals found so far satisfy [P], which
    holds of every block that is not shifted below zero; the open block comes
    from a line already scanned. *)
Definition block_from (lines : list string) (start end_ : float64) : Prop :=
  exists line m1 m2,
    In line lines /\
    SrtPattern.FindStringSubmatch (TrimSpace line) = Some (m1, m2) /\
    parseSRTTime m1 = Ok start /\ parseSRTTime m2 = Ok end_.

Definition scan_inv (lines : list string) (st : scan) : Prop :=
  Forall (fun s => from_timestamp_line offset lines s /\
                   ltb (Start s) zero = false /\ ltb (End_ s) zero = false)
         (segments st) /\
  (inSubtitleBlock st = true ->
   block_from lines (currentStart st) (currentEnd st)) /\
  length (segments st) + bool_count (inSubtitleBlock st)
  <= length (timestamp_lines lines).

Lemma from_timestamp_line_more lines l s :
  from_timestamp_line offset lines s ->
  from_timestamp_line offset (lines ++ [l]) s.
Proof.
  intros (line & m1 & m2 & a & b & Hin & H).
  exists line, m1, m2, a, b. split; [|exact H].
  apply in_or_app. left. exact Hin.
Qed.

Lemma block_from_more lines l a b :
  block_from lines a b -> block_from (lines ++ [l]) a b.
Proof.
  intros (line & m1 & m2 & Hin & H).
  exists line, m1, m2. split; [|exact H].
  apply in_or_app. left. exact Hin.
Qed.

Lemma timestamp_lines_app lines l :
  length (timestamp_lines (lines ++ [l]))
  = length (timestamp_lines lines)
    + bool_count (SrtPattern.MatchString (TrimSpace l)).
Proof.
  unfold timestamp_lines. rewrite filter_app, length_app. cbn [filter].
  destruct (SrtPattern.MatchString (TrimSpace l)); reflexivity.
Qed.

Lemma added_segment_inv lines a b segs :
  block_from lines a b ->
  ltb (add a offset) zero = false -> ltb (add b offset) zero = false ->
  Forall (fun s => from_timestamp_line offset lines s /\
                   ltb (Start s) zero = false /\ ltb (End_ s) zero = false)
         segs ->
  Forall (fun s => from_timestamp_line offset lines s /\
                   ltb (Start s) zero = false /\ ltb (End_ s) zero = false)
         (segs ++ [mkSegment (add a offset) (add b offset)]).
Proof.
  intros (line & m1 & m2 & Hin & Hf & H1 & H2) L1 L2 Hall.
  apply Forall_app. split; [exact Hall|].
  constructor; [|constructor].
  split; [|split; assumption].
  exists line, m1, m2, a, b. auto.
Qed.

Lemma scan_line_inv lines st scanned st' :
  scan_inv lines st ->
  scan_line U swears offset st scanned = Ok st' ->
  scan_inv (lines ++ [scanned]) st'.
Proof.
  intros (Hsegs & Hblk & Hcnt) Hstep.
  assert (Hsegs' : Forall (fun s => from_timestamp_line offset (lines ++ [scanned]) s /\
                     ltb (Start s) zero = false /\ ltb (End_ s) zero = false)
                     (segments st)).
  { eapply Forall_impl; [|exact Hsegs].
    intros s (Hf & Hl). split; [apply from_timestamp_line_more, Hf|exact Hl]. }
  pose proof (timestamp_lines_app lines scanned) as Hlen.
  destruct (scan_line_cases st scanned)
    as [(Eline & Hin & E)|[(NE & Hin & m1 & m2 & Ef & Hor)
       |[(NE & Hin & E)|(Hin & Hm & E)]]].
  - (* a blank line closes the block *)
    rewrite E in Hstep. injection Hstep as <-.
    unfold scan_inv. cbn [segments inSubtitleBlock currentStart currentEnd].
    rewrite Hin in Hcnt. cbn [bool_count] in *.
    split; [|split; [discriminate|]].
    + destruct (match_block_segments (ToLower U (subtitleText st))
                  (currentStart st) (currentEnd st) (segments st) (logged st))
        as [->|(-> & L1 & L2)]; [exact Hsegs'|].
      apply added_segment_inv; try assumption.
      apply block_from_more, Hblk, Hin.
    + destruct (match_block_segments (ToLower U (subtitleText st))
                  (currentStart st) (currentEnd st) (segments st) (logged st))
        as [->|(-> & _)]; [lia|].
      rewrite length_app. cbn [length]. lia.
  - (* a timestamp line opens a block *)
    destruct Hor as [(e & E & _)|(a & b & E1 & E2 & E)];
      rewrite E in Hstep; [discriminate|].
    injection Hstep as <-.
    unfold scan_inv. cbn [segments inSubtitleBlock currentStart currentEnd].
    rewrite Hin in Hcnt. cbn [bool_count] in *.
    assert (Hm : SrtPattern.MatchString (TrimSpace scanned) = true)
      by (unfold SrtPattern.MatchString; rewrite Ef; reflexivity).
    rewrite Hm in Hlen. cbn [bool_count] in Hlen.
    split; [exact Hsegs'|]. split; [|lia].
    intros _. exists scanned, m1, m2.
    split; [apply in_or_app; right; left; reflexivity|auto].
  - (* a text line *)
    rewrite E in Hstep. injection Hstep as <-.
    unfold scan_inv. cbn [segments inSubtitleBlock currentStart currentEnd].
    rewrite Hin in Hcnt.
    split; [exact Hsegs'|]. split; [|lia].
    intros _. apply block_from_more, Hblk, Hin.
  - (* a line outside every block *)
    rewrite E in Hstep. injection Hstep as <-.
    unfold scan_inv. rewrite Hin in *.
    split; [exact Hsegs'|]. split; [discriminate|lia].
Qed.

Lemma scan_lines_inv lines done st st' :
  scan_inv done st ->
  scan_lines U swears offset st lines = inr st' ->
  scan_inv (done ++ lines) st'.
Proof.
  revert done st. induction lines as [|l lines IH]; intros done st Hinv.
  - cbn [scan_lines]. intros Heq. injection Heq as <-.
    rewrite app_nil_r. exact Hinv.
  - cbn [scan_lines].
    destruct (scan_line U swears offset st l) as [st1|e] eqn:E; [|discriminate].
    intros Hrest.
    replace (done ++ l :: lines)%list with ((done ++ [l]) ++ lines)%list
      by (rewrite <- app_assoc; reflexivity).
    eapply IH; [|exact Hrest].
    eapply scan_line_inv; eassumption.
Qed.

Lemma scan_init_inv : scan_inv [] scan_init.
Proof.
  split; [constructor|]. split; [discriminate|]. cbn. lia.
Qed.

Lemma findSwearTimestamps_ok lines read_error segs log :
  findSwearTimestamps U swears offset (File lines read_error) = (Ok segs, log) ->
  exists st,
    scan_lines U swears offset scan_init lines = inr st /\
    read_error = false /\
    finish U swears offset st = (segs, log).
Proof.
  unfold findSwearTimestamps.
  destruct (scan_lines U swears offset scan_init lines) as [[e l]|st];
    [discriminate|].
  destruct read_error; [discriminate|].
  destruct (finish U swears offset st) as [segs' log'] eqn:Ef.
  intros Heq. injection Heq as <- <-. exists st. auto.
Qed.

Lemma scan_result_intervals lines read_error segs log :
  findSwearTimestamps U swears offset (File lines read_error) = (Ok segs, log) ->
  Forall (fun s => from_timestamp_line offset lines s /\
                   ltb (Start s) zero = false /\ ltb (End_ s) zero = false)
         segs /\
  length segs <= length (timestamp_lines lines).
Proof.
  intros H. apply findSwearTimestamps_ok in H as (st & Hscan & _ & Hfin).
  pose proof (@scan_lines_inv lines [] scan_init st scan_init_inv Hscan)
    as (Hsegs & Hblk & Hcnt).
  cbn [app] in *.
  unfold finish in Hfin.
  destruct (inSubtitleBlock st) eqn:Hin.
  - cbn [bool_count] in Hcnt.
    destruct (match_last_block_segments (ToLower U (subtitleText st))
                (currentStart st) (currentEnd st) (segments st) (logged st))
      as [E|(E & L1 & L2)]; rewrite Hfin in E; cbn [fst] in E; subst segs.
    + split; [exact Hsegs|lia].
    + split; [apply added_segment_inv; auto|].
      rewrite length_app. cbn [length]. lia.
  - injection Hfin as <- <-. split; [exact Hsegs|]. cbn [bool_count] in Hcnt. lia.
Qed.

(** X4.  Every interval the Extractor returns is the block of a timestamp line
    of the source shifted by the offset, neither boundary is below zero, and
    there are no more intervals than timestamp lines. *)
Theorem findSwearTimestamps_intervals lines read_error segs log :
  findSwearTimestamps U swears offset (File lines read_error) = (Ok segs, log) ->
  Forall (fun s => from_timestamp_line offset lines s /\
                   ltb (Start s) zero = false /\ ltb (End_ s) zero = false)
         segs /\
  length segs <= length (timestamp_lines lines).
Proof. apply scan_result_intervals. Qed.

(** X5.  With an offset that is a number, every returned boundary is at or above
    zero. *)
Theorem findSwearTimestamps_not_negative lines read_error segs log :
  isNaN offset = false ->
  findSwearTimestamps U swears offset (File lines read_error) = (Ok segs, log) ->
  Forall not_negative segs.
Proof.
  intros Hoff H. apply scan_result_intervals in H as [Hall _].
  eapply Forall_impl; [|exact Hall].
  intros s ((line & m1 & m2 & a & b & _ & _ & Ha & Hb & ->) & L1 & L2).
  cbn [Start End_] in *.
  apply parseSRTTime_finite in Ha, Hb.
  split; unfold geb; apply ltb_false_leb; try assumption; try reflexivity;
    apply add_finite_not_nan; assumption.
Qed.

(** X6.  What the Extractor hands to the Merger: with an offset that is a
    number and no timestamp line whose end lies before its start, every
    interval has representable boundaries and [Start <= End]. *)
Theorem findSwearTimestamps_feeds_merger lines read_error segs log :
  isNaN offset = false ->
  (forall l m1 m2 a b,
     In l lines ->
     SrtPattern.FindStringSubmatch (TrimSpace l) = Some (m1, m2) ->
     parseSRTTime m1 = Ok a -> parseSRTTime m2 = Ok b ->
     leb a b = true) ->
  findSwearTimestamps U swears offset (File lines read_error) = (Ok segs, log) ->
  Forall valid_segment segs /\ Forall start_le_end segs.
Proof.
  intros Hoff Hord H. apply scan_result_intervals in H as [Hall _].
  split; (eapply Forall_impl; [|exact Hall]);
    intros s ((line & m1 & m2 & a & b & Hin & Hf & Ha & Hb & ->) & _ & _).
  - split; apply F64More.add_valid.
  - unfold start_le_end. cbn [Start End_].
    apply F64More.add_mono.
    + apply (@parseSRTTime_finite _ _ Ha).
    + apply (@parseSRTTime_finite _ _ Hb).
    + exact Hoff.
    + apply (Hord line m1 m2 a b Hin Hf Ha Hb).
Qed.

(** X7.  The extraction succeeds on a readable source in which the two
    timestamps of every timestamp line convert. *)
Theorem findSwearTimestamps_succeeds lines :
  (forall l m1 m2,
     In l lines ->
     SrtPattern.FindStringSubmatch (TrimSpace l) = Some (m1, m2) ->
     (exists a, parseSRTTime m1 = Ok a) /\ (exists b, parseSRTTime m2 = Ok b)) ->
  exists segs log,
    findSwearTimestamps U swears offset (File lines false) = (Ok segs, log).
Proof.
  intros Hconv. unfold findSwearTimestamps.
  assert (G : forall st, exists st',
             scan_lines U swears offset st lines = inr st').
  { induction lines as [|l rest IH]; intros st.
    - exists st. reflexivity.
    - cbn [scan_lines].
      assert (Hl : exists st1, scan_line U swears offset st l = Ok st1).
      { destruct (scan_line_cases st l)
          as [(_ & _ & E)|[(_ & _ & m1 & m2 & Ef & Hor)
             |[(_ & _ & E)|(_ & _ & E)]]]; eauto.
        destruct Hor as [(e & E & He)|(a & b & _ & _ & E)]; eauto.
        destruct (Hconv l m1 m2 (or_introl eq_refl) Ef) as [[a Ha] [b Hb]].
        destruct He as [He|He]; congruence. }
      destruct Hl as [st1 ->].
      apply IH. intros l' m1 m2 Hin. apply Hconv. right. exact Hin. }
  destruct (G scan_init) as [st ->].
  destruct (finish U swears offset st) as [segs log]. eauto.
Qed.

(** X8.  Lines in front of the first timestamp line do not count. *)
Theorem findSwearTimestamps_skips_preamble preamble lines read_error :
  Forall (fun l => SrtPattern.MatchString (TrimSpace l) = false) preamble ->
  findSwearTimestamps U swears offset (File (preamble ++ lines) read_error)
  = findSwearTimestamps U swears offset (File lines read_error).
Proof.
  intros Hpre. unfold findSwearTimestamps.
  rewrite scan_lines_app.
  assert (E : scan_lines U swears offset scan_init preamble = inr scan_init).
  { induction Hpre as [|l rest Hl Hrest IH]; [reflexivity|].
    cbn [scan_lines].
    destruct (scan_line_cases scan_init l)
      as [(_ & Hin & _)|[(_ & _ & m1 & m2 & Ef & _)
         |[(_ & Hin & _)|(_ & _ & E)]]]; try discriminate.
    - unfold SrtPattern.MatchString in Hl. rewrite Ef in Hl. discriminate.
    - rewrite E. exact IH. }
  rewrite E. reflexivity.
Qed.

Lemma add_nan_r x : add x NaN = NaN.
Proof. destruct x; reflexivity. Qed.

(** X28.  The [Start]s of the intervals the Extractor returns are all
    numbers, or (with an offset that is NaN) all NaN. *)
Theorem findSwearTimestamps_starts_alike lines read_error segs log :
  findSwearTimestamps U swears offset (File lines read_error) = (Ok segs, log) ->
  no_nan_start segs \/ all_nan_start segs.
Proof.
  intros H. apply scan_result_intervals in H as [Hall _].
  destruct (isNaN offset) eqn:Hoff; [right|left];
    (eapply Forall_impl; [|exact Hall]);
    intros s ((line & m1 & m2 & a & b & _ & _ & Ha & _ & ->) & _ & _);
    cbn [Start].
  - assert (E : offset = NaN) by (destruct offset; try discriminate; reflexivity).
    rewrite E, add_nan_r. reflexivity.
  - apply add_finite_not_nan; [apply (@parseSRTTime_finite _ _ Ha)|exact Hoff].
Qed.

(** X9.  With an offset that is NaN the two loops part ways: a matching block
    closed by a blank line is returned, with NaN boundaries, and the same
    block left open at the end of the input is dropped with a warning. *)
Theorem nan_offset_blank_line_matters (st : scan) :
  isNaN offset = true ->
  inSubtitleBlock st = true ->
  matches U swears (ToLower U (subtitleText st)) = true ->
  scan_line U swears offset st ""
  = Ok (mkScan (segments st ++ [mkSegment NaN NaN])%list
               (currentStart st) (currentEnd st) false "" (logged st)) /\
  finish U swears offset st
  = (segments st,
     (logged st ++ [warning offset (currentStart st) (currentEnd st)])%list).
Proof.
  intros Hnan Hin Hm.
  assert (E : offset = NaN) by (destruct offset; try discriminate; reflexivity).
  split.
  - unfold scan_line. change (TrimSpace "") with "".
    cbn [String.eqb]. rewrite Hin, match_block_spec, Hm.
    rewrite E, !add_nan_r. reflexivity.
  - unfold finish. rewrite Hin, match_last_block_spec, Hm.
    rewrite E, !add_nan_r. reflexivity.
Qed.

End Scan.

(** X10.  With an empty vocabulary nothing is found and nothing is logged. *)
Theorem findSwearTimestamps_empty_vocabulary (srt : source) :
  (exists e, findSwearTimestamps U [] offset srt = (Err e, [])) \/
  findSwearTimestamps U [] offset srt = (Ok [], []).
Proof.
  destruct srt as [|lines read_error]; [left; exists ErrOpen; reflexivity|].
  unfold findSwearTimestamps.
  assert (G : forall st,
             segments st = [] -> logged st = [] ->
             match scan_lines U [] offset st lines with
             | inl (_, log) => log = []
             | inr st' => segments st' = [] /\ logged st' = []
             end).
  { induction lines as [|l rest IH]; intros st Hs Hl; [cbn; auto|].
    cbn [scan_lines].
    destruct (scan_line_cases [] st l)
      as [(_ & _ & E)|[(_ & _ & m1 & m2 & _ & Hor)
         |[(_ & _ & E)|(_ & _ & E)]]].
    - rewrite E. apply IH; cbn [segments logged];
        rewrite match_block_spec; destruct (_ || _); cbn; try assumption.
      rewrite app_nil_r. exact Hl.
    - destruct Hor as [(e & E & _)|(a & b & _ & _ & E)]; rewrite E;
        [exact Hl|apply IH; assumption].
    - rewrite E. apply IH; assumption.
    - rewrite E. apply IH; assumption. }
  specialize (G scan_init eq_refl eq_refl).
  destruct (scan_lines U [] offset scan_init lines) as [[e log]|st].
  - left. exists e. subst log. reflexivity.
  - destruct G as [Hs Hl]. destruct read_error.
    + left. exists ErrRead. rewrite Hl. reflexivity.
    + right. unfold finish. rewrite Hs, Hl.
      destruct (inSubtitleBlock st); reflexivity.
Qed.

End ExtractorMore.

(* ================================================================== *)
(** * More on the Timestamp Converter *)
(* ================================================================== *)

Section ConverterMore.
Import GoStr F64 F64Facts.
Local Open Scope Z_scope.

Lemma digit_char_digit c :
  GoTime.isDigit c = true -> digit_char (GoTime.digit c) = c.
Proof.
  intros H. unfold digit_char, GoTime.digit.
  unfold GoTime.isDigit in H. apply andb_true_iff in H as [H1 H2].
  apply N.leb_le in H1, H2.
  replace (48 + Z.to_N (Z.of_N (N_of_ascii c) - 48))%N with (N_of_ascii c) by lia.
  apply ascii_N_embedding.
Qed.

Lemma digit_not_sign c :
  GoTime.isDigit c = true ->
  Ascii.eqb c "-" = false /\ Ascii.eqb c "+" = false /\
  Ascii.eqb c "," = false.
Proof.
  intros H.
  repeat split; apply Ascii.eqb_neq; intros E; subst c; discriminate.
Qed.

Lemma getnum_two a b rest fixed :
  GoTime.isDigit a = true -> GoTime.isDigit b = true ->
  GoTime.getnum (String a (String b rest)) fixed
  = Some (GoTime.digit a * 10 + GoTime.digit b, rest).
Proof. intros Ha Hb. unfold GoTime.getnum. rewrite Ha, Hb. reflexivity. Qed.

Lemma parse_fraction_three sep a b c :
  sep = "."%char \/ sep = ","%char ->
  GoTime.isDigit a = true -> GoTime.isDigit b = true ->
  GoTime.isDigit c = true ->
  GoTime.parse_fraction (String sep (String a (String b (String c EmptyString))))
  = inr (((GoTime.digit a * 10 + GoTime.digit b) * 10 + GoTime.digit c)
         * 1000000, EmptyString).
Proof.
  intros Hsep Ha Hb Hc.
  pose proof (isDigit_digit _ Ha). pose proof (isDigit_digit _ Hb).
  pose proof (isDigit_digit _ Hc).
  destruct (digit_not_sign _ Ha) as (Hm & Hp & _).
  unfold GoTime.parse_fraction.
  cbn [String.length Nat.ltb Nat.leb substring].
  assert (Hs : (Ascii.eqb sep "." || Ascii.eqb sep ",")%bool = true)
    by (destruct Hsep as [-> | ->]; reflexivity).
  rewrite Hs.
  unfold GoTime.atoi. rewrite Hm, Hp.
  cbn [GoTime.leadingInt]. rewrite Ha, Hb, Hc.
  cbn [GoTime.leadingInt].
  destruct (Z.ltb_spec (((0 * 10 + GoTime.digit a) * 10 + GoTime.digit b) * 10
                        + GoTime.digit c) 0) as [Hneg|_]; [lia|].
  reflexivity.
Qed.

(** [time.Parse] on twelve bytes of the lexical form. *)
Lemma Parse_lexical h1 h2 m1 m2 s1 s2 f1 f2 f3 sep :
  sep = "."%char \/ sep = ","%char ->
  GoTime.isDigit h1 = true -> GoTime.isDigit h2 = true ->
  GoTime.isDigit m1 = true -> GoTime.isDigit m2 = true ->
  GoTime.isDigit s1 = true -> GoTime.isDigit s2 = true ->
  GoTime.isDigit f1 = true -> GoTime.isDigit f2 = true ->
  GoTime.isDigit f3 = true ->
  let hour := GoTime.digit h1 * 10 + GoTime.digit h2 in
  let min := GoTime.digit m1 * 10 + GoTime.digit m2 in
  let sec := GoTime.digit s1 * 10 + GoTime.digit s2 in
  let ms := (GoTime.digit f1 * 10 + GoTime.digit f2) * 10 + GoTime.digit f3 in
  GoTime.Parse
    (String h1 (String h2 (String ":" (String m1 (String m2 (String ":"
      (String s1 (String s2 (String sep (String f1 (String f2 (String f3
        EmptyString))))))))))))
  = if 24 <=? hour then inl (GoTime.OutOfRange "hour")
    else if 60 <=? min then inl (GoTime.OutOfRange "minute")
    else if 60 <=? sec then inl (GoTime.OutOfRange "second")
    else inr (GoTime.mkClock hour min sec (ms * 1000000)).
Proof.
  intros Hsep H1 H2 M1 M2 S1 S2 F1 F2 F3. cbv zeta.
  pose proof (isDigit_digit _ H1). pose proof (isDigit_digit _ H2).
  pose proof (isDigit_digit _ M1). pose proof (isDigit_digit _ M2).
  pose proof (isDigit_digit _ S1). pose proof (isDigit_digit _ S2).
  unfold GoTime.Parse.
  rewrite (@getnum_two h1 h2 _ false H1 H2).
  destruct (Z.ltb_spec (GoTime.digit h1 * 10 + GoTime.digit h2) 0); [lia|].
  cbn [orb].
  destruct (24 <=? GoTime.digit h1 * 10 + GoTime.digit h2); [reflexivity|].
  cbn [GoTime.skip_colon]. change (Ascii.eqb ":" ":") with true. cbv iota.
  rewrite (@getnum_two m1 m2 _ true M1 M2).
  destruct (Z.ltb_spec (GoTime.digit m1 * 10 + GoTime.digit m2) 0); [lia|].
  cbn [orb].
  destruct (60 <=? GoTime.digit m1 * 10 + GoTime.digit m2); [reflexivity|].
  cbn [GoTime.skip_colon]. change (Ascii.eqb ":" ":") with true. cbv iota.
  rewrite (@getnum_two s1 s2 _ true S1 S2).
  destruct (Z.ltb_spec (GoTime.digit s1 * 10 + GoTime.digit s2) 0); [lia|].
  cbn [orb].
  destruct (60 <=? GoTime.digit s1 * 10 + GoTime.digit s2); [reflexivity|].
  rewrite (@parse_fraction_three sep f1 f2 f3 Hsep F1 F2 F3). reflexivity.
Qed.

Lemma digit_char_value d :
  0 <= d <= 9 ->
  GoTime.isDigit (digit_char d) = true /\ GoTime.digit (digit_char d) = d.
Proof.
  intros H.
  assert (C : d = 0 \/ d = 1 \/ d = 2 \/ d = 3 \/ d = 4 \/ d = 5 \/ d = 6
              \/ d = 7 \/ d = 8 \/ d = 9) by lia.
  repeat (destruct C as [->|C]; [split; reflexivity|]).
  subst. split; reflexivity.
Qed.

Lemma frac_digits_3 ms :
  frac_digits 3 ms
  = String (digit_char ((ms / 100) mod 10))
      (String (digit_char ((ms / 10) mod 10))
         (String (digit_char (ms mod 10)) EmptyString)).
Proof.
  cbn [frac_digits].
  change (10 ^ Z.of_nat 2) with 100. change (10 ^ Z.of_nat 1) with 10.
  change (10 ^ Z.of_nat 0) with 1. rewrite Z.div_1_r. reflexivity.
Qed.

(** The seconds of a clock time: a finite value, not below zero. *)
Lemma clock_seconds_sign h m s ms :
  0 <= h * 3600 + m * 60 + s < 86400 -> 0 <= ms < 1000 ->
  isFinite (clock_seconds h m s ms) = true /\
  geb (clock_seconds h m s ms) zero = true.
Proof.
  intros Ht Hms. unfold clock_seconds.
  assert (Hfin : isFinite (add (of_int (h * 3600 + m * 60 + s))
                   (div (of_int (ms * 1000000)) (of_int 1000000000))) = true)
    by (apply clock_seconds_finite; lia).
  split; [exact Hfin|].
  destruct (@of_int_small (h * 3600 + m * 60 + s) ltac:(lia)) as (m1 & E1 & Hm1).
  destruct (@of_int_small (ms * 1000000) ltac:(lia)) as (mn & En & Hmn).
  rewrite E1, En, of_int_billion in *.
  pose proof unit_scale_pos as Hu.
  unfold div in *.
  destruct (Z.eqb_spec (1000000000 * unit_scale) 0); [lia|].
  cbn [xorb] in *.
  assert (Hq : exists m2, mk false (mn * unit_scale) (1000000000 * unit_scale)
                          = Fin false m2 /\ 0 <= m2).
  { unfold mk; cbv zeta.
    pose proof (@round_mag_nonneg (mn * unit_scale) (1000000000 * unit_scale)
                  ltac:(nia) ltac:(lia)) as Hr.
    destruct (overflow_threshold <=? _) eqn:Eo.
    - unfold mk in Hfin. cbv zeta in Hfin. rewrite Eo in Hfin.
      cbn in Hfin. discriminate.
    - eauto. }
  destruct Hq as (m2 & E2 & Hm2). rewrite E2 in *.
  unfold add, sval in *.
  destruct (m1 + m2 =? 0); [reflexivity|].
  destruct (Z.ltb_spec (m1 + m2) 0); [lia|].
  unfold mk in *; cbv zeta in *.
  pose proof (@round_mag_nonneg (Z.abs (m1 + m2)) 1 ltac:(lia) ltac:(lia)) as Hr.
  destruct (overflow_threshold <=? _); [discriminate|].
  unfold geb, leb, zero, sval. apply Z.leb_le. exact Hr.
Qed.

Lemma field_digits n :
  0 <= n < 100 -> 0 <= n / 10 <= 9 /\ 0 <= n mod 10 <= 9.
Proof.
  intros Hn. pose proof (Z.mod_pos_bound n 10 ltac:(lia)).
  pose proof (Z.div_mod n 10 ltac:(lia)).
  split; [|lia].
  split; [apply Z.div_pos; lia|].
  assert (n / 10 < 10) by (apply Z.div_lt_upper_bound; lia). lia.
Qed.

Lemma two_digits_value n :
  0 <= n < 100 ->
  GoTime.isDigit (digit_char (n / 10)) = true /\
  GoTime.isDigit (digit_char (n mod 10)) = true /\
  GoTime.digit (digit_char (n / 10)) * 10 + GoTime.digit (digit_char (n mod 10))
  = n.
Proof.
  intros Hn. destruct (field_digits Hn) as [D1 D2].
  destruct (digit_char_value D1) as [I1 V1].
  destruct (digit_char_value D2) as [I2 V2].
  split; [exact I1|]. split; [exact I2|].
  rewrite V1, V2. pose proof (Z.div_mod n 10 ltac:(lia)). lia.
Qed.

Lemma three_digits_value ms :
  0 <= ms < 1000 ->
  GoTime.isDigit (digit_char ((ms / 100) mod 10)) = true /\
  GoTime.isDigit (digit_char ((ms / 10) mod 10)) = true /\
  GoTime.isDigit (digit_char (ms mod 10)) = true /\
  (GoTime.digit (digit_char ((ms / 100) mod 10)) * 10
   + GoTime.digit (digit_char ((ms / 10) mod 10))) * 10
  + GoTime.digit (digit_char (ms mod 10)) = ms.
Proof.
  intros Hms.
  assert (Df1 : 0 <= (ms / 100) mod 10 <= 9)
    by (pose proof (Z.mod_pos_bound (ms / 100) 10 ltac:(lia)); lia).
  assert (Df2 : 0 <= (ms / 10) mod 10 <= 9)
    by (pose proof (Z.mod_pos_bound (ms / 10) 10 ltac:(lia)); lia).
  assert (Df3 : 0 <= ms mod 10 <= 9)
    by (pose proof (Z.mod_pos_bound ms 10 ltac:(lia)); lia).
  destruct (digit_char_value Df1) as [If1 Vf1].
  destruct (digit_char_value Df2) as [If2 Vf2].
  destruct (digit_char_value Df3) as [If3 Vf3].
  repeat (split; [assumption|]).
  rewrite Vf1, Vf2, Vf3.
  pose proof (Z.div_mod ms 10 ltac:(lia)).
  pose proof (Z.div_mod (ms / 10) 10 ltac:(lia)).
  assert (ms / 10 / 10 = ms / 100) by (rewrite Z.div_div by lia; reflexivity).
  assert (0 <= ms / 100 < 10)
    by (split; [apply Z.div_pos; lia|apply Z.div_lt_upper_bound; lia]).
  rewrite (Z.mod_small (ms / 100) 10) by lia. lia.
Qed.

(** The Converter on the timestamp written from the four fields. *)
Lemma parseSRTTime_fields h m s ms :
  0 <= h < 100 -> 0 <= m < 100 -> 0 <= s < 100 -> 0 <= ms < 1000 ->
  parseSRTTime (srt_timestamp h m s ms)
  = (if (h <? 24) && (m <? 60) && (s <? 60)
     then Ok (clock_seconds h m s ms)
     else Err (ErrParseTime
                 (ReplaceFirstByte (srt_timestamp h m s ms) "," "."))).
Proof.
  intros Hh Hm Hs Hms.
  destruct (two_digits_value Hh) as (Ih1 & Ih2 & Eh).
  destruct (two_digits_value Hm) as (Im1 & Im2 & Em).
  destruct (two_digits_value Hs) as (Is1 & Is2 & Es).
  destruct (three_digits_value Hms) as (If1 & If2 & If3 & Ems).
  unfold srt_timestamp, two_digits. rewrite frac_digits_3.
  cbn [String.append].
  unfold parseSRTTime.
  destruct (digit_not_sign _ Ih1) as (_ & _ & C1).
  destruct (digit_not_sign _ Ih2) as (_ & _ & C2).
  destruct (digit_not_sign _ Im1) as (_ & _ & C3).
  destruct (digit_not_sign _ Im2) as (_ & _ & C4).
  destruct (digit_not_sign _ Is1) as (_ & _ & C5).
  destruct (digit_not_sign _ Is2) as (_ & _ & C6).
  cbn [ReplaceFirstByte]. rewrite C1, C2, C3, C4, C5, C6.
  change (Ascii.eqb ":" ",") with false. change (Ascii.eqb "," ",") with true.
  cbv iota.
  rewrite (@Parse_lexical _ _ _ _ _ _ _ _ _ "."%char (or_introl eq_refl)
             Ih1 Ih2 Im1 Im2 Is1 Is2 If1 If2 If3).
  cbv zeta. rewrite Eh, Em, Es, Ems.
  destruct (Z.leb_spec 24 h); destruct (Z.ltb_spec h 24); try lia;
    [reflexivity|].
  destruct (Z.leb_spec 60 m); destruct (Z.ltb_spec m 60); try lia;
    [reflexivity|].
  destruct (Z.leb_spec 60 s); destruct (Z.ltb_spec s 60); try lia;
    reflexivity.
Qed.

(** X11.  For every timestamp [HH:MM:SS,mmm] the pattern of the Scanner takes it,
    and the Converter returns the seconds of the clock fields when the hour
    is below 24 and minute and second are below 60, and an error
    otherwise. *)
Theorem parseSRTTime_on_timestamp h m s ms :
  0 <= h < 100 -> 0 <= m < 100 -> 0 <= s < 100 -> 0 <= ms < 1000 ->
  (forall rest,
     SrtPattern.match_timestamp (srt_timestamp h m s ms ++ rest)%string
     = Some (srt_timestamp h m s ms, rest)) /\
  parseSRTTime (srt_timestamp h m s ms)
  = (if (h <? 24) && (m <? 60) && (s <? 60)
     then Ok (clock_seconds h m s ms)
     else Err (ErrParseTime
                 (ReplaceFirstByte (srt_timestamp h m s ms) "," "."))) /\
  ((h <? 24) && (m <? 60) && (s <? 60) = true ->
   isFinite (clock_seconds h m s ms) = true /\
   geb (clock_seconds h m s ms) zero = true).
Proof.
  intros Hh Hm Hs Hms.
  split; [|split].
  - intros rest.
    destruct (two_digits_value Hh) as (Ih1 & Ih2 & _).
    destruct (two_digits_value Hm) as (Im1 & Im2 & _).
    destruct (two_digits_value Hs) as (Is1 & Is2 & _).
    destruct (three_digits_value Hms) as (If1 & If2 & If3 & _).
    unfold srt_timestamp, two_digits. rewrite frac_digits_3.
    cbn [String.append].
    unfold SrtPattern.match_timestamp, SrtPattern.isDigit.
    rewrite Ih1, Ih2, Im1, Im2, Is1, Is2, If1, If2, If3.
    change (Ascii.eqb ":" ":") with true. change (Ascii.eqb "," ",") with true.
    cbn [andb substring]. rewrite substring_0_0. reflexivity.
  - apply parseSRTTime_fields; assumption.
  - intros Hr. apply andb_true_iff in Hr as [Hr Hs60].
    apply andb_true_iff in Hr as [Hh24 Hm60].
    apply Z.ltb_lt in Hh24, Hm60, Hs60.
    apply clock_seconds_sign; lia.
Qed.

Lemma thousandth_of_thousand :
  round_mag (1000 * 1000000 * unit_scale * unit_scale)
            (1000000000 * unit_scale) = unit_scale.
Proof. vm_compute. reflexivity. Qed.

(** The fraction of a second: a value between zero and one that grows with
    the milliseconds. *)
Lemma fraction_of_second ms :
  0 <= ms < 1000 ->
  exists g,
    div (of_int (ms * 1000000)) (of_int 1000000000) = Fin false g /\
    g = round_mag (ms * 1000000 * unit_scale * unit_scale)
                  (1000000000 * unit_scale) /\
    0 <= g <= unit_scale.
Proof.
  intros Hms. pose proof unit_scale_pos as Hu.
  rewrite (@F64More.of_int_exact (ms * 1000000)), of_int_billion
    by (change (2 ^ 53) with 9007199254740992; lia).
  cbn [div]. destruct (Z.eqb_spec (1000000000 * unit_scale) 0); [lia|].
  cbn [xorb].
  assert (Hnum : 0 <= ms * 1000000 * unit_scale * unit_scale
                 <= 1000 * 1000000 * unit_scale * unit_scale) by nia.
  pose proof (@F64More.round_mag_mono_den _ _ (1000000000 * unit_scale)
                Hnum ltac:(lia)) as Hmono.
  pose proof (@round_mag_nonneg (ms * 1000000 * unit_scale * unit_scale)
                (1000000000 * unit_scale) ltac:(nia) ltac:(lia)) as H0.
  rewrite thousandth_of_thousand in Hmono.
  exists (round_mag (ms * 1000000 * unit_scale * unit_scale)
                    (1000000000 * unit_scale)).
  split; [|split; [reflexivity|lia]].
  unfold mk; cbv zeta.
  assert (unit_scale < overflow_threshold).
  { rewrite overflow_threshold_eq.
    assert (1 < 2 ^ 1024) by (apply Z.pow_gt_1; lia). nia. }
  destruct (Z.leb_spec overflow_threshold
              (round_mag (ms * 1000000 * unit_scale * unit_scale)
                         (1000000000 * unit_scale))); [lia|reflexivity].
Qed.

(** X12.  The conversion keeps the order of the timestamps: a timestamp that is
    not earlier converts to a time that is not smaller. *)
Theorem parseSRTTime_monotone h m s ms h' m' s' ms' :
  0 <= h < 24 -> 0 <= m < 60 -> 0 <= s < 60 -> 0 <= ms < 1000 ->
  0 <= h' < 24 -> 0 <= m' < 60 -> 0 <= s' < 60 -> 0 <= ms' < 1000 ->
  (h * 3600 + m * 60 + s) * 1000 + ms
  <= (h' * 3600 + m' * 60 + s') * 1000 + ms' ->
  exists a b,
    parseSRTTime (srt_timestamp h m s ms) = Ok a /\
    parseSRTTime (srt_timestamp h' m' s' ms') = Ok b /\
    leb a b = true.
Proof.
  intros Hh Hm Hs Hms Hh' Hm' Hs' Hms' Hle.
  pose proof unit_scale_pos as Hu.
  exists (clock_seconds h m s ms), (clock_seconds h' m' s' ms').
  split; [|split].
  - rewrite parseSRTTime_fields by lia.
    destruct (Z.ltb_spec h 24), (Z.ltb_spec m 60), (Z.ltb_spec s 60);
      try lia; reflexivity.
  - rewrite parseSRTTime_fields by lia.
    destruct (Z.ltb_spec h' 24), (Z.ltb_spec m' 60), (Z.ltb_spec s' 60);
      try lia; reflexivity.
  - unfold clock_seconds.
    set (T := h * 3600 + m * 60 + s) in *.
    set (T' := h' * 3600 + m' * 60 + s') in *.
    assert (HT : 0 <= T < 86400) by (subst T; lia).
    assert (HT' : 0 <= T' < 86400) by (subst T'; lia).
    rewrite (@F64More.of_int_exact T), (@F64More.of_int_exact T')
      by (change (2 ^ 53) with 9007199254740992; lia).
    destruct (fraction_of_second Hms) as (g & -> & Eg & Hg).
    destruct (fraction_of_second Hms') as (g' & -> & Eg' & Hg').
    change (add (Fin false (T * unit_scale)) (Fin false g))
      with (F64More.of_signed (sval false (T * unit_scale) + sval false g)
                              (false && false)).
    change (add (Fin false (T' * unit_scale)) (Fin false g'))
      with (F64More.of_signed (sval false (T' * unit_scale) + sval false g')
                              (false && false)).
    apply F64More.of_signed_mono. cbn [sval].
    destruct (Z.eq_dec T T') as [E|NE].
    + rewrite <- E in *.
      assert (ms <= ms') by lia.
      assert (g <= g').
      { subst g g'. apply F64More.round_mag_mono_den; [nia|lia]. }
      lia.
    + assert (T + 1 <= T') by lia. nia.
Qed.

End ConverterMore.

(* ================================================================== *)
(** * Searching in strings *)
(* ================================================================== *)

Section SearchFacts.
Import GoStr.
Local Open Scope string_scope.

Lemma len_app a b : len (a ++ b) = (len a + len b)%Z.
Proof. unfold len. rewrite length_append. lia. Qed.

Lemma len_nonneg s : (0 <= len s)%Z.
Proof. unfold len. lia. Qed.

Lemma index_from_range i s sub :
  index_from i s sub = (-1)%Z \/
  (i <= index_from i s sub <= i + len s)%Z.
Proof.
  revert i. induction s as [|c s IH]; intros i; cbn [index_from].
  - destruct (HasPrefix "" sub); [right; unfold len; cbn; lia|left; reflexivity].
  - destruct (HasPrefix (String c s) sub).
    + right. pose proof (len_nonneg (String c s)). lia.
    + destruct (IH (i + 1)%Z) as [E|E]; [left; exact E|right].
      unfold len in *. cbn [String.length]. lia.
Qed.

Lemma index_from_shift i s sub :
  index_from i s sub
  = if (0 <=? Index s sub)%Z then (i + Index s sub)%Z else (-1)%Z.
Proof.
  unfold Index. revert i.
  induction s as [|c s IH]; intros i; cbn [index_from].
  - destruct (HasPrefix "" sub); cbn; [f_equal; lia|reflexivity].
  - destruct (HasPrefix (String c s) sub); [cbn; f_equal; lia|].
    rewrite (IH (i + 1)%Z), (IH (0 + 1)%Z).
    destruct (Z.leb_spec 0 (index_from 0 s sub)) as [H|H].
    + destruct (Z.leb_spec 0 (0 + 1 + index_from 0 s sub)); lia.
    + reflexivity.
Qed.

(** Past a prefix with no occurrence starting in it, the search goes on in
    the rest. *)
Lemma index_from_clear a b sub i :
  clear_before a b sub = true ->
  index_from i (a ++ b) sub = index_from (i + len a) b sub.
Proof.
  revert i. induction a as [|c a IH]; intros i H.
  - cbn. f_equal. unfold len. cbn. lia.
  - cbn [clear_before] in H. apply andb_true_iff in H as [H1 H2].
    apply negb_true_iff in H1.
    change (String c a ++ b) with (String c (a ++ b)) in *.
    cbn [index_from]. rewrite H1, (IH _ H2).
    f_equal. unfold len. cbn [String.length]. lia.
Qed.

Lemma Index_at a b sub :
  clear_before a b sub = true -> HasPrefix b sub = true ->
  Index (a ++ b) sub = len a.
Proof.
  intros Hc Hp. unfold Index. rewrite (@index_from_clear _ _ _ _ Hc).
  destruct b; cbn [index_from]; rewrite Hp; lia.
Qed.

Lemma Index_none a b sub :
  clear_before a b sub = true -> Index b sub = (-1)%Z ->
  Index (a ++ b) sub = (-1)%Z.
Proof.
  intros Hc Hn. unfold Index. rewrite (@index_from_clear _ _ _ _ Hc).
  rewrite index_from_shift, Hn. reflexivity.
Qed.

(** An occurrence at the end of [a] bounds the first one. *)
Lemma Index_le a b sub :
  HasPrefix b sub = true -> (0 <= Index (a ++ b) sub <= len a)%Z.
Proof.
  intros Hp. unfold Index.
  assert (G : forall i, (i <= index_from i (a ++ b) sub <= i + len a)%Z).
  { induction a as [|c a IH]; intros i.
    - cbn [String.append]. destruct b; cbn [index_from]; rewrite Hp;
        unfold len; cbn; lia.
    - change (String c a ++ b) with (String c (a ++ b)).
      cbn [index_from].
      destruct (HasPrefix (String c (a ++ b)) sub).
      + pose proof (len_nonneg (String c a)). lia.
      + specialize (IH (i + 1)%Z). unfold len in *. cbn [String.length]. lia. }
  specialize (G 0%Z). lia.
Qed.

(** ** A byte that the searched text does not hold *)

Lemma HasPrefix_app_sep a x b sub :
  has_byte x sub = false ->
  HasPrefix (a ++ String x b) sub = HasPrefix a sub.
Proof.
  revert sub. induction a as [|c a IH]; intros sub Hx.
  - cbn [String.append]. destruct sub as [|p sub]; [reflexivity|].
    cbn [has_byte] in Hx. apply orb_false_iff in Hx as [Hx _].
    cbn [HasPrefix]. rewrite Hx. reflexivity.
  - change (String c a ++ String x b) with (String c (a ++ String x b)).
    destruct sub as [|p sub]; [reflexivity|].
    cbn [has_byte] in Hx. apply orb_false_iff in Hx as [_ Hx].
    cbn [HasPrefix]. rewrite (IH _ Hx). reflexivity.
Qed.

Lemma Contains_false_iff s sub : Contains s sub = false <-> Index s sub = (-1)%Z.
Proof.
  unfold Contains. destruct (index_from_range 0 s sub) as [E|E];
    fold (Index s sub) in E.
  - rewrite E. split; reflexivity.
  - split; intros H.
    + apply Z.leb_gt in H. lia.
    + lia.
Qed.

Lemma Index_cons c s sub :
  Index (String c s) sub
  = if HasPrefix (String c s) sub then 0%Z
    else if (0 <=? Index s sub)%Z then (1 + Index s sub)%Z else (-1)%Z.
Proof.
  unfold Index at 1. cbn [index_from].
  destruct (HasPrefix (String c s) sub); [reflexivity|].
  apply index_from_shift.
Qed.

Lemma Contains_cons c s sub :
  Contains (String c s) sub = HasPrefix (String c s) sub || Contains s sub.
Proof.
  unfold Contains. rewrite Index_cons.
  destruct (HasPrefix (String c s) sub); [reflexivity|].
  destruct (Z.leb_spec 0 (Index s sub)) as [H|H]; cbn [orb].
  - apply Z.leb_le. lia.
  - reflexivity.
Qed.

(** With no occurrence in [a], none starts in [a] in front of the byte. *)
Lemma clear_before_sep a x b sub :
  has_byte x sub = false -> sub <> "" ->
  Contains a sub = false ->
  clear_before a (String x b) sub = true.
Proof.
  intros Hx Hne. induction a as [|c a IH]; intros Hc; [reflexivity|].
  rewrite Contains_cons in Hc. apply orb_false_iff in Hc as [H1 H2].
  cbn [clear_before]. rewrite HasPrefix_app_sep by exact Hx.
  rewrite H1. cbn [negb andb]. apply IH, H2.
Qed.

Lemma Contains_app_sep a x b sub :
  has_byte x sub = false -> sub <> "" ->
  Contains (a ++ String x b) sub = Contains a sub || Contains b sub.
Proof.
  intros Hx Hne. induction a as [|c a IH].
  - cbn [String.append]. rewrite Contains_cons.
    destruct sub as [|p sub]; [contradiction|].
    cbn [has_byte] in Hx. apply orb_false_iff in Hx as [Hx _].
    cbn [HasPrefix]. rewrite Hx.
    unfold Contains at 2, Index. cbn [index_from HasPrefix]. reflexivity.
  - change (String c a ++ String x b) with (String c (a ++ String x b)).
    rewrite !Contains_cons, IH.
    change (String c (a ++ String x b)) with (String c a ++ String x b).
    rewrite HasPrefix_app_sep by exact Hx.
    apply orb_assoc.
Qed.

(** ** The last occurrence of a byte *)

Lemma HasPrefix_nil s : HasPrefix s "" = true.
Proof. destruct s; reflexivity. Qed.

Lemma last_index_none s sub i :
  Contains s sub = false -> last_index_from i s sub = (-1)%Z.
Proof.
  revert i. induction s as [|c s IH]; intros i H.
  - unfold Contains, Index in H. cbn [index_from last_index_from] in *; cbv zeta in *.
    destruct (HasPrefix "" sub); [discriminate|reflexivity].
  - rewrite Contains_cons in H. apply orb_false_iff in H as [H1 H2].
    cbn [last_index_from]; cbv zeta. rewrite (IH _ H2), H1. reflexivity.
Qed.

Lemma last_index_byte_range x s i :
  last_index_from i s (String x "") = (-1)%Z \/
  (i <= last_index_from i s (String x "") < i + len s)%Z.
Proof.
  revert i. induction s as [|c s IH]; intros i.
  - left. reflexivity.
  - cbn [last_index_from]; cbv zeta.
    assert (Hl : len (String c s) = (1 + len s)%Z)
      by (unfold len; cbn [String.length]; lia).
    pose proof (len_nonneg s).
    destruct (IH (i + 1)%Z) as [E|E].
    + rewrite E. change (0 <=? -1)%Z with false. cbv iota.
      destruct (HasPrefix (String c s) (String x "")); [right; lia|left; reflexivity].
    + destruct (Z.leb_spec 0 (last_index_from (i + 1) s (String x ""))).
      * right. lia.
      * destruct (HasPrefix (String c s) (String x "")); [right; lia|left; reflexivity].
Qed.

Lemma last_index_byte_ge a x b i :
  (0 <= i)%Z ->
  (i + len a <= last_index_from i (a ++ String x b) (String x "")
   < i + len a + 1 + len b)%Z.
Proof.
  revert i. induction a as [|c a IH]; intros i Hi.
  - cbn [String.append last_index_from HasPrefix]; cbv zeta.
    rewrite Ascii.eqb_refl, HasPrefix_nil. cbn [andb].
    change (len "") with 0%Z.
    destruct (last_index_byte_range x b (i + 1)) as [E|E].
    + rewrite E. change (0 <=? -1)%Z with false. cbv iota.
      pose proof (len_nonneg b). lia.
    + destruct (Z.leb_spec 0 (last_index_from (i + 1) b (String x ""))); lia.
  - change (String c a ++ String x b) with (String c (a ++ String x b)).
    cbn [last_index_from]; cbv zeta.
    assert (Hl : len (String c a) = (1 + len a)%Z)
      by (unfold len; cbn [String.length]; lia).
    specialize (IH (i + 1)%Z ltac:(lia)).
    pose proof (len_nonneg a).
    destruct (Z.leb_spec 0 (last_index_from (i + 1) (a ++ String x b)
                              (String x ""))); lia.
Qed.

Lemma LastIndex_byte_at a x b :
  Contains b (String x "") = false ->
  LastIndex (a ++ String x b) (String x "") = len a.
Proof.
  intros Hb. unfold LastIndex.
  assert (G : forall i, (0 <= i)%Z ->
             last_index_from i (a ++ String x b) (String x "") = (i + len a)%Z).
  { induction a as [|c a IH]; intros i Hi.
    - cbn [String.append last_index_from HasPrefix]; cbv zeta.
      rewrite (@last_index_none _ _ _ Hb), Ascii.eqb_refl, HasPrefix_nil.
      change (0 <=? -1)%Z with false. cbn [andb]. cbv iota.
      change (len "") with 0%Z. lia.
    - change (String c a ++ String x b) with (String c (a ++ String x b)).
      cbn [last_index_from]; cbv zeta. rewrite (IH (i + 1)%Z) by lia.
      assert (Hl : len (String c a) = (1 + len a)%Z)
        by (unfold len; cbn [String.length]; lia).
      pose proof (len_nonneg a).
      destruct (Z.leb_spec 0 (i + 1 + len a)); lia. }
  apply (G 0%Z). lia.
Qed.

(** ** Cutting a piece out *)

Lemma substring_middle a b c :
  substring (String.length a) (String.length b) (a ++ b ++ c) = b.
Proof.
  induction a as [|x a IH]; cbn [String.length String.append substring].
  - induction b as [|y b IHb]; cbn [String.length String.append substring].
    + apply substring_0_0.
    + rewrite IHb. reflexivity.
  - exact IH.
Qed.

Lemma length_substring_exact n m s :
  n + m <= String.length s -> String.length (substring n m s) = m.
Proof.
  revert n m. induction s as [|c s IH]; intros [|n] [|m] H;
    cbn [substring String.length] in *; try lia; try reflexivity.
  - rewrite IH by lia. reflexivity.
  - apply IH. lia.
  - apply IH. lia.
Qed.

Lemma slice_middle a b c :
  slice (a ++ b ++ c) (len a) (len a + len b) = Returns b.
Proof.
  unfold slice. rewrite !len_app.
  pose proof (len_nonneg a). pose proof (len_nonneg b). pose proof (len_nonneg c).
  destruct (Z.leb_spec 0 (len a)); [|lia].
  destruct (Z.leb_spec (len a) (len a + len b)); [|lia].
  destruct (Z.leb_spec (len a + len b) (len a + (len b + len c))); [|lia].
  cbn [andb]. f_equal.
  replace (len a + len b - len a)%Z with (len b) by lia.
  unfold len. rewrite !Nat2Z.id. apply substring_middle.
Qed.

End SearchFacts.

(* ================================================================== *)
(** * The vocabulary *)
(* ================================================================== *)

Section VocabularyFacts.
Import GoStr F64 F64Facts.
Local Open Scope string_scope.

Variable U : Unicode.
Variable offset : float64.

Lemma HasPrefix_iff s p : HasPrefix s p = true <-> exists post, s = p ++ post.
Proof.
  revert s. induction p as [|x p IH]; intros s.
  - split; [intros _; exists s; reflexivity|intros _; apply HasPrefix_nil].
  - destruct s as [|c s]; cbn [HasPrefix].
    + split; [discriminate|intros [post H]; discriminate].
    + rewrite andb_true_iff, IH. split.
      * intros [Hx [post ->]]. apply Ascii.eqb_eq in Hx. subst c.
        exists post. reflexivity.
      * intros [post H]. cbn [String.append] in H. injection H as -> ->.
        split; [apply Ascii.eqb_refl|exists post; reflexivity].
Qed.

Lemma Contains_iff s sub :
  Contains s sub = true <-> exists pre post, s = pre ++ sub ++ post.
Proof.
  induction s as [|c s IH].
  - unfold Contains, Index. cbn [index_from].
    destruct (HasPrefix "" sub) eqn:E.
    + split; [intros _|reflexivity].
      apply HasPrefix_iff in E as [post E]. exists "", post. exact E.
    + split; [discriminate|]. intros (pre & post & H).
      destruct pre; [|discriminate]. cbn [String.append] in H.
      assert (HasPrefix "" sub = true) by (apply HasPrefix_iff; eauto).
      congruence.
  - rewrite Contains_cons, orb_true_iff, HasPrefix_iff, IH. split.
    + intros [[post H]|(pre & post & H)].
      * exists "", post. exact H.
      * exists (String c pre), post. rewrite H. reflexivity.
    + intros (pre & post & H). destruct pre as [|x pre].
      * left. exists post. exact H.
      * right. cbn [String.append] in H. injection H as -> ->. eauto.
Qed.

Lemma Contains_trans text a b :
  Contains text a = true -> Contains a b = true -> Contains text b = true.
Proof.
  rewrite !Contains_iff. intros (p1 & q1 & ->) (p2 & q2 & ->).
  exists (p1 ++ p2), (q2 ++ q1). rewrite !append_assoc. reflexivity.
Qed.

(** Two scan states that differ at most in what was logged. *)
Definition same_intervals (st st' : scan) : Prop :=
  segments st = segments st' /\
  currentStart st = currentStart st' /\
  currentEnd st = currentEnd st' /\
  inSubtitleBlock st = inSubtitleBlock st' /\
  subtitleText st = subtitleText st'.

Section TwoVocabularies.

Variables swears swears' : list string.
Hypothesis same_matches :
  forall text, matches U swears text = matches U swears' text.

Lemma match_block_ext text start end_ segs log log' :
  fst (match_block U offset text start end_ swears segs log)
  = fst (match_block U offset text start end_ swears' segs log').
Proof.
  rewrite !match_block_spec, same_matches.
  destruct (_ || _); [reflexivity|].
  destruct (matches U swears' text); reflexivity.
Qed.

Lemma match_last_block_ext text start end_ segs log log' :
  fst (match_last_block U offset text start end_ swears segs log)
  = fst (match_last_block U offset text start end_ swears' segs log').
Proof.
  rewrite !match_last_block_spec, same_matches.
  destruct (matches U swears' text); [|reflexivity].
  destruct (_ && _); reflexivity.
Qed.

Lemma scan_line_ext st st' scanned :
  same_intervals st st' ->
  match scan_line U swears offset st scanned,
        scan_line U swears' offset st' scanned with
  | Ok a, Ok b => same_intervals a b
  | Err e, Err e' => e = e'
  | _, _ => False
  end.
Proof.
  destruct st as [segs cs ce blk txt lg], st' as [segs' cs' ce' blk' txt' lg'].
  intros (H1 & H2 & H3 & H4 & H5). cbn in H1, H2, H3, H4, H5. subst.
  unfold scan_line.
  cbn [segments currentStart currentEnd inSubtitleBlock subtitleText logged].
  destruct (String.eqb (TrimSpace scanned) "").
  - destruct blk'.
    + pose proof (match_block_ext (ToLower U txt') cs' ce' segs' lg lg') as E.
      destruct (match_block U offset (ToLower U txt') cs' ce' swears segs' lg).
      destruct (match_block U offset (ToLower U txt') cs' ce' swears' segs' lg').
      cbn [fst] in E. subst. repeat split.
    + repeat split.
  - destruct (SrtPattern.MatchString (TrimSpace scanned) && negb blk').
    + destruct (SrtPattern.FindStringSubmatch (TrimSpace scanned)) as [[m1 m2]|];
        [|repeat split].
      destruct (parseSRTTime m1); [|reflexivity].
      destruct (parseSRTTime m2); [|reflexivity].
      repeat split.
    + destruct blk'; repeat split.
Qed.

Lemma scan_lines_ext lines st st' :
  same_intervals st st' ->
  match scan_lines U swears offset st lines,
        scan_lines U swears' offset st' lines with
  | inr a, inr b => same_intervals a b
  | inl (e, _), inl (e', _) => e = e'
  | _, _ => False
  end.
Proof.
  revert st st'. induction lines as [|l lines IH]; intros st st' H.
  - exact H.
  - cbn [scan_lines]. pose proof (scan_line_ext l H) as Hl.
    destruct (scan_line U swears offset st l) as [a|e],
             (scan_line U swears' offset st' l) as [b|e'];
      try contradiction.
    + apply IH, Hl.
    + exact Hl.
Qed.

Lemma findSwearTimestamps_ext (srt : source) :
  fst (findSwearTimestamps U swears offset srt)
  = fst (findSwearTimestamps U swears' offset srt).
Proof.
  destruct srt as [|lines read_error]; [reflexivity|].
  unfold findSwearTimestamps.
  assert (H0 : same_intervals scan_init scan_init) by (repeat split).
  pose proof (scan_lines_ext lines H0) as H.
  destruct (scan_lines U swears offset scan_init lines) as [[e lg]|a],
           (scan_lines U swears' offset scan_init lines) as [[e' lg']|b];
    try contradiction.
  - cbn [fst]. congruence.
  - destruct read_error; [reflexivity|].
    destruct H as (H1 & H2 & H3 & H4 & H5).
    unfold finish. rewrite <- H4.
    destruct (inSubtitleBlock a).
    + pose proof (match_last_block_ext (ToLower U (subtitleText a))
                    (currentStart a) (currentEnd a) (segments a)
                    (logged a) (logged b)) as E.
      rewrite <- H1, <- H2, <- H3, <- H5.
      destruct (match_last_block U offset _ _ _ swears _ _).
      destruct (match_last_block U offset _ _ _ swears' _ _).
      cbn [fst] in *. congruence.
    + cbn [fst]. congruence.
Qed.

End TwoVocabularies.

(** X13.  The vocabulary counts only through the texts it matches: two
    vocabularies that match the same texts give the same intervals, or the
    same error. *)
Theorem findSwearTimestamps_same_matches swears swears' (srt : source) :
  (forall text, matches U swears text = matches U swears' text) ->
  fst (findSwearTimestamps U swears offset srt)
  = fst (findSwearTimestamps U swears' offset srt).
Proof. intros H. apply findSwearTimestamps_ext, H. Qed.

(** X14.  A term that contains another term of the vocabulary, both in lower
    case, adds no interval. *)
Theorem findSwearTimestamps_redundant_term (t t' : string) swears (srt : source) :
  In t' swears ->
  Contains (ToLower U t) (ToLower U t') = true ->
  fst (findSwearTimestamps U (t :: swears) offset srt)
  = fst (findSwearTimestamps U swears offset srt).
Proof.
  intros Hin Hsub. apply findSwearTimestamps_ext. intros text.
  rewrite matches_cons.
  destruct (Contains text (ToLower U t)) eqn:E; [|reflexivity].
  cbn [orb]. symmetry. unfold matches. apply existsb_exists.
  exists t'. split; [exact Hin|].
  apply (@Contains_trans _ _ _ E Hsub).
Qed.

End VocabularyFacts.

(* ================================================================== *)
(** * From the subtitle file to the merged intervals *)
(* ================================================================== *)

Section Pipeline.
Import GoStr F64 F64Facts.
Local Open Scope string_scope.

Variable U : Unicode.
Variable offset : float64.
Variable swears : list string.
Variable srt : sorter.

(** X15.  [processVideo] and the command-line [main] merge what the Extractor
    finds.  With an offset that is a number and a file in which no
    timestamp line ends before it starts, the merged intervals are not
    below zero, have [Start <= End], are strictly increasing and more than
    a second apart, cover every interval found, and are no more than the
    timestamp lines of the file. *)
Theorem mergeSegments_of_found_intervals lines read_error segs log :
  sort_contract srt ->
  isNaN offset = false ->
  (forall l m1 m2 a b,
     In l lines ->
     SrtPattern.FindStringSubmatch (TrimSpace l) = Some (m1, m2) ->
     parseSRTTime m1 = Ok a -> parseSRTTime m2 = Ok b ->
     leb a b = true) ->
  findSwearTimestamps U swears offset (File lines read_error) = (Ok segs, log) ->
  Forall not_negative (mergeSegments srt segs) /\
  Forall start_le_end (mergeSegments srt segs) /\
  StronglySorted start_lt (mergeSegments srt segs) /\
  Sorted gap (mergeSegments srt segs) /\
  (forall s, In s segs ->
     exists o, In o (mergeSegments srt segs) /\ covers o s) /\
  length (mergeSegments srt segs) <= length (timestamp_lines lines).
Proof.
  intros [Hperm Hsort] Hoff Hord H.
  apply scan_result_intervals in H as [Hall Hlen].
  (* what was found *)
  assert (Hfound : Forall (fun s => valid_segment s /\ start_le_end s /\
                                    not_negative s) segs).
  { eapply Forall_impl; [|exact Hall].
    intros s ((line & m1 & m2 & a & b & Hin & Hf & Ha & Hb & ->) & L1 & L2).
    cbn [Start End_] in L1, L2.
    pose proof (@parseSRTTime_finite _ _ Ha) as Fa.
    pose proof (@parseSRTTime_finite _ _ Hb) as Fb.
    split; [split; apply F64More.add_valid|]. split.
    - unfold start_le_end. cbn [Start End_].
      apply F64More.add_mono; try assumption.
      apply (Hord line m1 m2 a b Hin Hf Ha Hb).
    - split; unfold geb; cbn [Start End_];
        apply ltb_false_leb; try assumption; try reflexivity;
        apply add_finite_not_nan; assumption. }
  destruct segs as [|s0 tl].
  { cbn [mergeSegments]. repeat split; try constructor.
    - intros s [].
    - cbn [length]. lia. }
  destruct (@mergeSegments_sweeps_sorted srt (s0 :: tl) Hperm ltac:(discriminate))
    as (first & rest & Esrt & E).
  rewrite E.
  pose proof (Hperm (s0 :: tl)) as Hp. rewrite Esrt in Hp.
  pose proof (Permutation_Forall Hp Hfound) as Hsorted_found.
  assert (Hv : Forall valid_segment (first :: rest))
    by (eapply Forall_impl; [|exact Hsorted_found]; intros x Hx; apply Hx).
  assert (Hle : Forall start_le_end (first :: rest))
    by (eapply Forall_impl; [|exact Hsorted_found]; intros x Hx; apply Hx).
  assert (Hnn : Forall no_nan (first :: rest)).
  { eapply Forall_impl; [|exact Hle]. intros x Hx.
    apply (start_le_end_not_nan Hx). }
  inversion Hv as [|? ? Hv1 Hv2]; subst.
  inversion Hle as [|? ? Hle1 Hle2]; subst.
  pose proof (sweep_from_valid Hv1 Hv2) as Hov.
  pose proof (sweep_from_le Hle1 Hle2) as Hole.
  pose proof (sweep_from_gap Hle1 Hle2) as Hgap.
  split; [|split; [exact Hole|split; [|split; [exact Hgap|split]]]].
  - apply Forall_forall. intros o Ho.
    apply sweep_from_boundaries in Ho as [(a & Ha & Ea) (b & Hb & Eb)].
    rewrite Forall_forall in Hsorted_found.
    destruct (Hsorted_found _ Ha) as (_ & _ & [Na _]).
    destruct (Hsorted_found _ Hb) as (_ & _ & [_ Nb]).
    split; [rewrite Ea; exact Na|rewrite Eb; exact Nb].
  - apply gaps_strictly_ordered; assumption.
  - intros s Hs. apply sorted_sweep_covers.
    + exact Hnn.
    + rewrite <- Esrt. apply Hsort.
      eapply Forall_impl; [|exact Hfound]. intros x (_ & Hx & _).
      apply (start_le_end_not_nan Hx).
    + apply (Permutation_in _ Hp), Hs.
  - pose proof (sweep_from_length first rest) as Hl.
    pose proof (Permutation_length Hp) as Hpl. cbn [length] in *. lia.
Qed.

End Pipeline.

(* ================================================================== *)
(** * [getVolumeFilter] on generated commands *)
(* ================================================================== *)

Section VolumeFilterFacts.
Import GoStr Shape.
Local Open Scope string_scope.

Variable U : Unicode.

Lemma Quote_parts s :
  Quote U s = String dquote_char (quote_loop U 0 s ++ String dquote_char "").
Proof. reflexivity. Qed.

Lemma Index_prefix s sub : HasPrefix s sub = true -> Index s sub = 0%Z.
Proof. intros H. unfold Index. destruct s; cbn [index_from]; rewrite H; reflexivity. Qed.

Lemma Contains_nil_false sub : sub <> "" -> Contains "" sub = false.
Proof. destruct sub; [contradiction|reflexivity]. Qed.

Lemma Contains_Quote s sub :
  has_byte dquote_char sub = false -> sub <> "" ->
  Contains (Quote U s) sub = Contains (quote_loop U 0 s) sub.
Proof.
  intros Hx Hne. rewrite Quote_parts.
  change (String dquote_char (quote_loop U 0 s ++ String dquote_char ""))
    with ("" ++ String dquote_char (quote_loop U 0 s ++ String dquote_char "")).
  rewrite (@Contains_app_sep _ _ _ _ Hx Hne), (@Contains_app_sep _ _ _ _ Hx Hne).
  rewrite (@Contains_nil_false _ Hne). cbn [orb]. apply orb_false_r.
Qed.

(** The enable expression of a non-empty interval set starts with
    [between(] and ends with a closing parenthesis. *)
Lemma between_ends s : exists body, between s = body ++ ")".
Proof.
  unfold between.
  exists ("between(t," ++ FormatFloat 3 (Start s) ++ "," ++ FormatFloat 3 (End_ s)).
  rewrite !append_assoc. reflexivity.
Qed.

Lemma Join_ends e l sep :
  (forall x, In x (e :: l) -> exists body, x = body ++ ")") ->
  exists body, Join (e :: l) sep = body ++ ")".
Proof.
  revert e. induction l as [|e' l IH]; intros e H.
  - apply H. left. reflexivity.
  - destruct (IH e') as [body Hb]; [intros x Hx; apply H; right; exact Hx|].
    change (Join (e :: e' :: l) sep) with (e ++ sep ++ Join (e' :: l) sep).
    rewrite Hb. exists (e ++ sep ++ body). rewrite !append_assoc. reflexivity.
Qed.

Lemma enable_expr_shape s0 tl :
  let expr := Join (map between (s0 :: tl)) "+" in
  HasPrefix expr "between(" = true /\
  (forall rest, HasPrefix (expr ++ rest) "between(" = true) /\
  exists body, expr = body ++ ")".
Proof.
  cbv zeta. split; [|split].
  - cbn [map]. destruct (map between tl); reflexivity.
  - intros rest. cbn [map]. destruct (map between tl); reflexivity.
  - apply (@Join_ends (between s0) (map between tl) "+"). intros x Hx.
    change (In x (map between (s0 :: tl))) in Hx.
    apply in_map_iff in Hx as (s & <- & _). apply between_ends.
Qed.

Definition command_head (inputVideo : string) : string :=
  "ffmpeg -i " ++ Quote U inputVideo ++ " -af " ++ dquote ++ "volume=enable=".

Definition command_tail (outputVideo : string) : string :=
  "':volume=0" ++ dquote ++ " -c:v copy -c:a aac " ++ Quote U outputVideo.

Lemma command_form inputVideo outputVideo s0 tl :
  generateFFmpegCommand U inputVideo outputVideo (s0 :: tl)
  = command_head inputVideo
    ++ String "'" (Join (map between (s0 :: tl)) "+" ++ command_tail outputVideo).
Proof.
  unfold generateFFmpegCommand, command_head, command_tail.
  rewrite (@Quote_plain U _ (filter_plain (s0 :: tl))).
  rewrite !append_assoc. reflexivity.
Qed.

Lemma command_head_clear inputVideo :
  Contains (Quote U inputVideo) "between(" = false ->
  Contains (command_head inputVideo) "between(" = false.
Proof.
  intros H.
  assert (Hx : has_byte dquote_char "between(" = false) by reflexivity.
  assert (Hne : "between(" <> "") by discriminate.
  rewrite (@Contains_Quote _ _ Hx Hne) in H.
  unfold command_head. rewrite Quote_parts.
  change ("ffmpeg -i " ++ String dquote_char
            (quote_loop U 0 inputVideo ++ String dquote_char "")
          ++ " -af " ++ dquote ++ "volume=enable=")
    with ("ffmpeg -i " ++ String dquote_char
            ((quote_loop U 0 inputVideo ++ String dquote_char "")
             ++ " -af " ++ String dquote_char "volume=enable=")).
  rewrite (@Contains_app_sep _ _ _ _ Hx Hne).
  rewrite append_assoc.
  change (String dquote_char "" ++ " -af " ++ String dquote_char "volume=enable=")
    with (String dquote_char (" -af " ++ String dquote_char "volume=enable=")).
  rewrite (@Contains_app_sep _ _ _ _ Hx Hne), (@Contains_app_sep _ _ _ _ Hx Hne).
  rewrite H. reflexivity.
Qed.

Lemma command_tail_clear outputVideo :
  Contains (Quote U outputVideo) ")" = false ->
  Contains (command_tail outputVideo) ")" = false.
Proof.
  intros H.
  assert (Hx : has_byte dquote_char ")" = false) by reflexivity.
  assert (Hne : ")" <> "") by discriminate.
  rewrite (@Contains_Quote _ _ Hx Hne) in H.
  unfold command_tail. rewrite Quote_parts.
  change ("':volume=0" ++ dquote ++ " -c:v copy -c:a aac "
          ++ String dquote_char (quote_loop U 0 outputVideo ++ String dquote_char ""))
    with ("':volume=0" ++ String dquote_char (" -c:v copy -c:a aac "
          ++ String dquote_char (quote_loop U 0 outputVideo ++ String dquote_char ""))).
  rewrite !(@Contains_app_sep _ _ _ _ Hx Hne).
  rewrite H. reflexivity.
Qed.

Lemma getVolumeFilter_generated
      (inputVideo outputVideo : string) (segments : list Segment) :
  segments <> [] ->
  Contains (Quote U inputVideo) "between(" = false ->
  Contains (Quote U outputVideo) ")" = false ->
  getVolumeFilter (generateFFmpegCommand U inputVideo outputVideo segments)
  = Returns (Join (map between segments) "+").
Proof.
  intros Hne Hin Hout.
  destruct segments as [|s0 tl]; [contradiction|].
  rewrite command_form.
  destruct (enable_expr_shape s0 tl) as (Hpre & Hpre' & body & Hbody).
  set (expr := Join (map between (s0 :: tl)) "+") in *.
  set (A := command_head inputVideo).
  set (T := command_tail outputVideo).
  assert (Hx : has_byte "'" "between(" = false) by reflexivity.
  assert (Hsub : "between(" <> "") by discriminate.
  pose proof (@clear_before_sep _ "'" (expr ++ T) _ Hx Hsub (@command_head_clear _ Hin))
    as Hclear.
  fold A in Hclear.
  unfold getVolumeFilter. cbv zeta.
  (* the first [between(] *)
  assert (Hstart : Index (A ++ String "'" (expr ++ T)) "between(" = (len A + 1)%Z).
  { unfold Index. rewrite (@index_from_clear _ _ _ _ Hclear).
    cbn [index_from]. change (HasPrefix (String "'" (expr ++ T)) "between(") with false.
    cbv iota. rewrite index_from_shift.
    assert (E0 : Index (expr ++ T) "between(" = 0%Z).
    { apply Index_prefix, Hpre'. }
    rewrite E0. cbn. lia. }
  (* the last closing parenthesis *)
  assert (Hend : LastIndex (A ++ String "'" (expr ++ T)) ")"
                 = (len A + 1 + len body)%Z).
  { rewrite Hbody.
    replace (A ++ String "'" ((body ++ ")") ++ T))
      with ((A ++ String "'" body) ++ String ")" T).
    - rewrite (@LastIndex_byte_at _ _ _ (@command_tail_clear _ Hout)).
      rewrite len_app. unfold len. cbn [String.length]. lia.
    - rewrite !append_assoc. reflexivity. }
  rewrite Hstart, Hend.
  pose proof (len_nonneg A). pose proof (len_nonneg body).
  destruct (Z.eqb_spec (len A + 1) (-1)); [lia|].
  destruct (Z.eqb_spec (len A + 1 + len body) (-1)); [lia|].
  cbn [orb].
  replace (A ++ String "'" (expr ++ T)) with ((A ++ "'") ++ expr ++ T)
    by (rewrite append_assoc; reflexivity).
  replace (len A + 1)%Z with (len (A ++ "'"))
    by (rewrite len_app; reflexivity).
  replace (len (A ++ "'") + len body + 1)%Z with (len (A ++ "'") + len expr)%Z.
  - apply slice_middle.
  - rewrite Hbody, !len_app. unfold len. cbn [String.length]. lia.
Qed.

(** X16.  The enable expression comes back out of the command when the quoted
    input name holds no [between(] and the quoted output name no closing
    parenthesis. *)
Theorem getVolumeFilter_recovers_expression
        (inputVideo outputVideo : string) (segments : list Segment) :
  segments <> [] ->
  Contains (Quote U inputVideo) "between(" = false ->
  Contains (Quote U outputVideo) ")" = false ->
  getVolumeFilter (generateFFmpegCommand U inputVideo outputVideo segments)
  = Returns (Join (map between segments) "+").
Proof. apply getVolumeFilter_generated. Qed.

(** X17.  [getVolumeFilter] panics on exactly the commands in which the last
    closing parenthesis stands more than one byte in front of the first
    [between(]. *)
Theorem getVolumeFilter_panics_iff (cmd : string) :
  getVolumeFilter cmd = Panics <->
  (0 <= LastIndex cmd ")" /\ LastIndex cmd ")" + 1 < Index cmd "between(")%Z.
Proof.
  unfold getVolumeFilter, slice. cbv zeta.
  pose proof (index_from_range 0 cmd "between(") as Hi.
  pose proof (last_index_byte_range ")" cmd 0) as Hl.
  fold (Index cmd "between(") in Hi. fold (LastIndex cmd ")") in Hl.
  set (i := Index cmd "between(") in *. set (l := LastIndex cmd ")") in *.
  destruct (Z.eqb_spec i (-1)) as [Ei|Ei]; cbn [orb].
  { split; [discriminate|lia]. }
  destruct (Z.eqb_spec l (-1)) as [El|El].
  { split; [discriminate|lia]. }
  destruct (Z.leb_spec 0 i); [|lia].
  destruct (Z.leb_spec (l + 1) (len cmd)); [|lia].
  destruct (Z.leb_spec i (l + 1)); cbn [andb].
  - split; [discriminate|lia].
  - split; [lia|reflexivity].
Qed.

Lemma substring_all s : substring 0 (String.length s) s = s.
Proof. induction s as [|c s IH]; cbn [substring String.length]; [|rewrite IH]; reflexivity. Qed.

Lemma substring_over a b n m :
  n <= String.length a -> String.length a <= n + m ->
  substring n m (a ++ b)
  = substring n (String.length a - n) a ++ substring 0 (n + m - String.length a) b.
Proof.
  revert n m. induction a as [|x a IH]; intros n m Hn Hm.
  - cbn [String.length] in *. assert (n = 0) by lia. subst n.
    cbn [String.append String.length Nat.sub Nat.add substring].
    rewrite Nat.sub_0_r. reflexivity.
  - change (String x a ++ b) with (String x (a ++ b)).
    cbn [String.length] in *. destruct n as [|n].
    + destruct m as [|m]; [lia|].
      cbn [substring Nat.sub Nat.add]. rewrite (IH 0 m) by lia.
      cbn [Nat.add]. rewrite Nat.sub_0_r. reflexivity.
    + cbn [substring]. rewrite (IH n m) by lia.
      replace (S n + m - S (String.length a)) with (n + m - String.length a) by lia.
      reflexivity.
Qed.

Lemma slice_around a b c i j :
  (0 <= i <= len a)%Z -> (len a + len b <= j <= len (a ++ b ++ c))%Z ->
  exists pre post, slice (a ++ b ++ c) i j = Returns (pre ++ b ++ post).
Proof.
  intros Hi Hj. rewrite !len_app in Hj.
  pose proof (len_nonneg b) as Hb.
  unfold slice. rewrite !len_app.
  destruct (Z.leb_spec 0 i); [|lia].
  destruct (Z.leb_spec i j); [|lia].
  destruct (Z.leb_spec j (len a + (len b + len c))); [|lia].
  cbn [andb]. unfold len in *.
  rewrite (@substring_over a (b ++ c) (Z.to_nat i) (Z.to_nat (j - i))) by lia.
  rewrite (@substring_over b c 0 _) by lia.
  rewrite Nat.sub_0_r, substring_all.
  eexists. eexists. reflexivity.
Qed.

(** X18.  With at least one interval the extraction does not panic, whatever
    the file names are, and what it returns holds the whole enable
    expression. *)
Theorem getVolumeFilter_keeps_expression
        (inputVideo outputVideo : string) (segments : list Segment) :
  segments <> [] ->
  exists pre post,
    getVolumeFilter (generateFFmpegCommand U inputVideo outputVideo segments)
    = Returns (pre ++ Join (map between segments) "+" ++ post).
Proof.
  intros Hne. destruct segments as [|s0 tl]; [contradiction|].
  rewrite command_form.
  destruct (enable_expr_shape s0 tl) as (Hpre & Hpre' & body & Hbody).
  set (expr := Join (map between (s0 :: tl)) "+") in *.
  set (A := command_head inputVideo).
  set (T := command_tail outputVideo).
  replace (A ++ String "'" (expr ++ T)) with ((A ++ "'") ++ expr ++ T)
    by (rewrite append_assoc; reflexivity).
  pose proof (@Index_le (A ++ "'") (expr ++ T) "between(" (Hpre' T)) as Hstart.
  assert (Hend : (len (A ++ "'") + len body
                  <= LastIndex ((A ++ "'") ++ expr ++ T) ")"
                  < len (A ++ "'") + len body + 1 + len T)%Z).
  { rewrite Hbody.
    replace ((A ++ "'") ++ (body ++ ")") ++ T)
      with (((A ++ "'") ++ body) ++ String ")" T)
      by (rewrite !append_assoc; reflexivity).
    pose proof (@last_index_byte_ge ((A ++ "'") ++ body) ")" T 0 (Z.le_refl 0)) as H.
    rewrite len_app, !Z.add_0_l in H. exact H. }
  unfold getVolumeFilter. cbv zeta.
  pose proof (len_nonneg (A ++ "'")). pose proof (len_nonneg body).
  destruct (Z.eqb_spec (Index ((A ++ "'") ++ expr ++ T) "between(") (-1)); [lia|].
  destruct (Z.eqb_spec (LastIndex ((A ++ "'") ++ expr ++ T) ")") (-1)); [lia|].
  cbn [orb].
  assert (Hlen : len expr = (len body + 1)%Z).
  { rewrite Hbody, len_app. reflexivity. }
  apply slice_around; [lia|].
  rewrite (len_app (A ++ "'") (expr ++ T)), (len_app expr T). lia.
Qed.

Lemma getVolumeFilter_no_segments (inputVideo outputVideo : string) :
  Contains (Quote U inputVideo) "between(" = false ->
  Contains (Quote U outputVideo) "between(" = false ->
  getVolumeFilter (generateFFmpegCommand U inputVideo outputVideo [])
  = Returns "".
Proof.
  intros Hin Hout.
  assert (Hx : has_byte dquote_char "between(" = false) by reflexivity.
  assert (Hne : "between(" <> "") by discriminate.
  rewrite (@Contains_Quote _ _ Hx Hne) in Hin.
  rewrite (@Contains_Quote _ _ Hx Hne) in Hout.
  assert (E : Index (generateFFmpegCommand U inputVideo outputVideo []) "between("
              = (-1)%Z).
  { apply Contains_false_iff.
    unfold generateFFmpegCommand. rewrite !Quote_parts.
    change ("No segments to mute. Copying input to output: ffmpeg -i "
            ++ String dquote_char
              (quote_loop U 0 inputVideo ++ String dquote_char "")
            ++ " -c copy "
            ++ String dquote_char (quote_loop U 0 outputVideo ++ String dquote_char ""))
      with ("No segments to mute. Copying input to output: ffmpeg -i "
            ++ String dquote_char
              ((quote_loop U 0 inputVideo ++ String dquote_char "")
               ++ " -c copy "
               ++ String dquote_char (quote_loop U 0 outputVideo ++ String dquote_char ""))).
    rewrite (@Contains_app_sep _ _ _ _ Hx Hne).
    rewrite append_assoc.
    change (String dquote_char "" ++ " -c copy "
            ++ String dquote_char (quote_loop U 0 outputVideo ++ String dquote_char ""))
      with (String dquote_char (" -c copy "
            ++ String dquote_char (quote_loop U 0 outputVideo ++ String dquote_char ""))).
    rewrite !(@Contains_app_sep _ _ _ _ Hx Hne).
    rewrite Hin, Hout. reflexivity. }
  unfold getVolumeFilter. cbv zeta. rewrite E. reflexivity.
Qed.

(** X19.  Without intervals the command has no filter: when neither quoted
    file name holds [between(], the extraction gives the empty string. *)
Theorem getVolumeFilter_copy_command (inputVideo outputVideo : string) :
  Contains (Quote U inputVideo) "between(" = false ->
  Contains (Quote U outputVideo) "between(" = false ->
  getVolumeFilter (generateFFmpegCommand U inputVideo outputVideo [])
  = Returns "".
Proof. apply getVolumeFilter_no_segments. Qed.

(** ** [executeFFmpeg] *)

Section ExecuteFacts.

Variable notExist : string -> bool.
Variable Dir : string -> string.

Lemma generateFFmpegCommand_not_empty inputVideo outputVideo segments :
  generateFFmpegCommand U inputVideo outputVideo segments <> "".
Proof. destruct segments; discriminate. Qed.


(** X21.  When [executeFFmpeg] gives up after its first two checks, it leaves
    both buttons disabled and the spinner shown. *)
Theorem executeFFmpeg_refusal_leaves_buttons_disabled (app app' : App) :
  widgets app = true ->
  lastCommand app <> "" ->
  executeFFmpeg notExist Dir app = Returns (app', None) ->
  processBtnEnabled app' = false /\ executeBtnEnabled app' = false /\
  progressBarShown app' = true.
Proof.
  intros Hw Hcmd. unfold executeFFmpeg. rewrite Hw. cbn [negb].
  destruct (String.eqb_spec (lastCommand app) ""); [contradiction|].
  cbv zeta. cbn [log videoPath outputPath lastCommand].
  destruct (notExist _).
  { intros H. injection H as <-. repeat split. }
  destruct (notExist _).
  { intros H. injection H as <-. repeat split. }
  destruct (getVolumeFilter _) as [vf|]; [|discriminate].
  destruct (String.eqb vf ""); [|discriminate].
  intros H. injection H as <-. repeat split.
Qed.

(** X22.  The command made for an empty set of intervals is never run: with no
    [between(] in the quoted file names, [executeFFmpeg] returns before it
    starts FFmpeg. *)
Theorem executeFFmpeg_refuses_copy_command (app : App) :
  lastCommand app = generateFFmpegCommand U (videoPath app) (outputPath app) [] ->
  Contains (Quote U (videoPath app)) "between(" = false ->
  Contains (Quote U (outputPath app)) "between(" = false ->
  exists app', executeFFmpeg notExist Dir app = Returns (app', None).
Proof.
  intros Hcmd Hin Hout. unfold executeFFmpeg.
  destruct (widgets app); cbn [negb]; [|eauto].
  destruct (String.eqb (lastCommand app) ""); [eauto|].
  cbv zeta. cbn [log videoPath outputPath lastCommand].
  destruct (notExist _); [eauto|].
  destruct (notExist _); [eauto|].
  cbn [log lastCommand].
  rewrite Hcmd, (getVolumeFilter_no_segments _ _ Hin Hout).
  cbn [String.eqb]. eauto.
Qed.

End ExecuteFacts.

End VolumeFilterFacts.

(* ================================================================== *)
(** * Progress of the FFmpeg run *)
(* ================================================================== *)

Section ProgressFacts.
Import GoStr F64 F64Ops F64Facts F64More.
Local Open Scope string_scope.

Lemma leadingInt_pos u acc :
  GoTime.leadingInt (Z.pos acc) (DecimalString.NilEmpty.string_of_uint u)
  = (Z.pos (Pos.of_uint_acc u acc), "").
Proof.
  revert acc. induction u; intros acc;
    cbn [DecimalString.NilEmpty.string_of_uint GoTime.leadingInt Pos.of_uint_acc];
    try reflexivity;
    match goal with
    | |- context [GoTime.isDigit ?c] => change (GoTime.isDigit c) with true
    end; cbv iota;
    match goal with
    | |- GoTime.leadingInt ?x _ = (Z.pos (Pos.of_uint_acc _ ?a), _) =>
        replace x with (Z.pos a)
          by (match goal with
              | |- context [GoTime.digit ?c] =>
                  let v := eval vm_compute in (GoTime.digit c) in
                  change (GoTime.digit c) with v
              end; lia)
    end; apply IHu.
Qed.

Lemma leadingInt_uint u :
  GoTime.leadingInt 0 (DecimalString.NilEmpty.string_of_uint u)
  = (Z.of_N (Pos.of_uint u), "").
Proof.
  induction u;
    cbn [DecimalString.NilEmpty.string_of_uint GoTime.leadingInt Pos.of_uint];
    try reflexivity;
    match goal with
    | |- context [GoTime.isDigit ?c] => change (GoTime.isDigit c) with true
    end; cbv iota.
  - exact IHu.
  - apply (leadingInt_pos u 1).
  - apply (leadingInt_pos u 2).
  - apply (leadingInt_pos u 3).
  - apply (leadingInt_pos u 4).
  - apply (leadingInt_pos u 5).
  - apply (leadingInt_pos u 6).
  - apply (leadingInt_pos u 7).
  - apply (leadingInt_pos u 8).
  - apply (leadingInt_pos u 9).
Qed.

(** Reading the decimal digits of a number gives the number. *)
Lemma leadingInt_int_digits n :
  (0 <= n)%Z -> GoTime.leadingInt 0 (int_digits n) = (n, "").
Proof.
  intros Hn. unfold int_digits. rewrite leadingInt_uint.
  change (Pos.of_uint (N.to_uint (Z.to_N n)))
    with (N.of_uint (N.to_uint (Z.to_N n))).
  rewrite DecimalN.Unsigned.of_to, Z2N.id by exact Hn. reflexivity.
Qed.

Lemma CutPrefix_app p s : CutPrefix (p ++ s) p = Some s.
Proof.
  induction p as [|x p IH]; cbn [String.append CutPrefix].
  - destruct s; reflexivity.
  - rewrite Ascii.eqb_refl. exact IH.
Qed.

Lemma digits_prefix_digits s :
  Shape.is_digits s = true -> digits_prefix s = s.
Proof.
  induction s as [|c s IH]; [reflexivity|].
  cbn [Shape.is_digits digits_prefix]. intros H.
  apply andb_true_iff in H as [Hc Hs]. rewrite Hc, (IH Hs). reflexivity.
Qed.

Lemma digits_prefix_is_digits s : Shape.is_digits (digits_prefix s) = true.
Proof.
  induction s as [|c s IH]; [reflexivity|].
  cbn [digits_prefix]. destruct (GoTime.isDigit c) eqn:E; [|reflexivity].
  cbn [Shape.is_digits]. rewrite E, IH. reflexivity.
Qed.

(** What the pattern finds is a non-empty run of digits. *)
Lemma find_out_time_us_digits line ds :
  find_out_time_us line = Some ds ->
  Shape.is_digits ds = true /\ ds <> "".
Proof.
  induction line as [|c line IH]; cbn [find_out_time_us];
    (destruct (match_out_time_us _) as [d|] eqn:E; [|try discriminate]).
  1, 2: unfold match_out_time_us in E;
    destruct (CutPrefix _ _) as [rest|]; [|discriminate];
    pose proof (digits_prefix_is_digits rest) as Hd;
    destruct (digits_prefix rest); [discriminate|];
    injection E as <-; intros Heq; injection Heq as <-;
    split; [exact Hd|discriminate].
  exact IH.
Qed.

(** [ParseInt] on a non-empty run of digits: the number, when it fits 63
    bits. *)
Lemma ParseInt_digits ds :
  Shape.is_digits ds = true -> ds <> "" ->
  ParseInt ds
  = if (2 ^ 63 <=? fst (GoTime.leadingInt 0 ds))%Z then None
    else Some (fst (GoTime.leadingInt 0 ds)).
Proof.
  intros Hd Hne. destruct ds as [|c ds]; [contradiction|].
  pose proof Hd as Hd'. cbn [Shape.is_digits] in Hd'.
  apply andb_true_iff in Hd' as [Hc _].
  destruct (digit_not_sign _ Hc) as (Hm & Hp & _).
  unfold ParseInt. rewrite Hp, Hm, Hd. reflexivity.
Qed.

Lemma of_int_million : of_int 1000000 = Fin false (1000000 * unit_scale).
Proof. vm_compute. reflexivity. Qed.

Lemma of_int_hundred : of_int 100 = Fin false (100 * unit_scale).
Proof. vm_compute. reflexivity. Qed.

Lemma mk_below s num den B :
  (0 <= num -> 0 < den -> num / den <= B -> 2 * B + 1 < overflow_threshold ->
   exists m, mk s num den = Fin s m /\ 0 <= m <= 2 * B + 1)%Z.
Proof.
  intros Hn Hd HB Hov.
  pose proof (round_mag_upper Hn Hd) as Hup.
  pose proof (round_mag_nonneg Hn Hd) as Hlo.
  exists (round_mag num den). split; [|lia].
  unfold mk; cbv zeta.
  destruct (Z.leb_spec overflow_threshold (round_mag num den)) as [Hle|];
    [lia|reflexivity].
Qed.

(** The seconds of a 63-bit count of microseconds: finite and not below
    zero. *)
Lemma microseconds_to_seconds n :
  (0 <= n < 2 ^ 63)%Z ->
  exists m, div (of_int n) (of_int 1000000) = Fin false m /\ (0 <= m)%Z.
Proof.
  intros Hn. pose proof unit_scale_pos as Hu.
  assert (Hbig : (2 ^ 70 * unit_scale < overflow_threshold)%Z).
  { rewrite overflow_threshold_eq.
    apply Z.mul_lt_mono_pos_r; [exact Hu|].
    apply Z.pow_lt_mono_r; lia. }
  unfold of_int at 1.
  destruct (Z.ltb_spec n 0); [lia|]. rewrite Z.abs_eq by lia.
  destruct (@mk_below false (n * unit_scale) 1 (n * unit_scale))
    as (m1 & -> & Hm1).
  - lia.
  - lia.
  - rewrite Z.div_1_r. lia.
  - change (2 ^ 70)%Z with (2 ^ 63 * 128)%Z in Hbig. nia.
  - rewrite of_int_million. unfold div.
    destruct (Z.eqb_spec (1000000 * unit_scale) 0); [lia|].
    cbn [xorb].
    destruct (@mk_below false (m1 * unit_scale) (1000000 * unit_scale) m1)
      as (m2 & -> & Hm2).
    + nia.
    + lia.
    + apply Z.div_le_upper_bound; [lia|]. nia.
    + change (2 ^ 70)%Z with (2 ^ 63 * 128)%Z in Hbig. nia.
    + exists m2. split; [reflexivity|lia].
Qed.

(** X23.  A progress line [out_time_us=N] gives [N / 1000000.0] seconds when
    [N] fits 63 bits, and nothing otherwise. *)
Theorem parseFFmpegProgress_reads_microseconds (n : Z) :
  (0 <= n)%Z ->
  parseFFmpegProgress ("out_time_us=" ++ int_digits n)
  = if (n <? 2 ^ 63)%Z then (div (of_int n) (of_int 1000000), true)
    else (zero, false).
Proof.
  intros Hn. unfold parseFFmpegProgress.
  assert (Hc : Contains ("out_time_us=" ++ int_digits n) "out_time_us=" = true).
  { unfold Contains. rewrite Index_prefix; [reflexivity|].
    apply HasPrefix_iff. eauto. }
  rewrite Hc.
  assert (Hf : find_out_time_us ("out_time_us=" ++ int_digits n)
               = Some (int_digits n)).
  { assert (Hm : match_out_time_us ("out_time_us=" ++ int_digits n)
                   = Some (int_digits n)).
    { unfold match_out_time_us. rewrite CutPrefix_app.
      rewrite (digits_prefix_digits _ (int_digits_digits n)).
      pose proof (int_digits_nonempty n) as Hne.
      destruct (int_digits n); [contradiction|reflexivity]. }
    destruct ("out_time_us=" ++ int_digits n); cbn [find_out_time_us];
      rewrite Hm; reflexivity. }
  rewrite Hf, (ParseInt_digits (int_digits_digits n) (@int_digits_nonempty n)).
  rewrite (leadingInt_int_digits Hn). cbn [fst].
  destruct (Z.leb_spec (2 ^ 63) n), (Z.ltb_spec n (2 ^ 63)); try lia; reflexivity.
Qed.

Lemma parseFFmpegProgress_time_aux (line : string) :
  let (seconds, found) := parseFFmpegProgress line in
  if found
  then exists n, (0 <= n < 2 ^ 63)%Z /\
       seconds = div (of_int n) (of_int 1000000) /\
       isFinite seconds = true /\ geb seconds zero = true
  else seconds = zero.
Proof.
  unfold parseFFmpegProgress.
  destruct (Contains line "out_time_us="); [|reflexivity].
  destruct (find_out_time_us line) as [ds|] eqn:Ef; [|reflexivity].
  apply find_out_time_us_digits in Ef as [Hd Hne].
  rewrite (ParseInt_digits Hd Hne).
  pose proof (@leadingInt_bound ds 0 ltac:(lia)) as [Hlo _].
  destruct (Z.leb_spec (2 ^ 63) (fst (GoTime.leadingInt 0 ds))); [reflexivity|].
  exists (fst (GoTime.leadingInt 0 ds)). split; [lia|]. split; [reflexivity|].
  destruct (@microseconds_to_seconds (fst (GoTime.leadingInt 0 ds)) ltac:(lia))
    as (m & -> & Hm).
  split; [reflexivity|]. unfold geb. cbn [leb zero sval]. apply Z.leb_le. lia.
Qed.

(** X24.  Whatever the line, a time that is found is the quotient of a 63-bit
    count by a million, finite and not below zero; without one the time
    is zero. *)
Theorem parseFFmpegProgress_time (line : string) :
  let (seconds, found) := parseFFmpegProgress line in
  if found
  then exists n, (0 <= n < 2 ^ 63)%Z /\
       seconds = div (of_int n) (of_int 1000000) /\
       isFinite seconds = true /\ geb seconds zero = true
  else seconds = zero.
Proof. apply parseFFmpegProgress_time_aux. Qed.

Lemma mk_false_cases num den :
  (0 <= num -> 0 < den ->
   mk false num den = Inf false \/
   exists m, mk false num den = Fin false m /\ 0 <= m)%Z.
Proof.
  intros Hn Hd. pose proof (round_mag_nonneg Hn Hd).
  unfold mk; cbv zeta. destruct (_ <=? _)%Z; [left; reflexivity|right; eauto].
Qed.

Lemma hundredth_of_hundred :
  mk false (100 * unit_scale * unit_scale) (100 * unit_scale) = one.
Proof. vm_compute. reflexivity. Qed.

(** X25.  The values shown for a progress time: the percentage lies between 0
    and 100, the bar value between 0 and 1, the remaining time is not below
    zero, and the second clamp, of the bar value, changes nothing. *)
Theorem progress_update_in_range (line : string) (currentTime duration : float64) :
  parseFFmpegProgress line = (currentTime, true) ->
  valid duration = true ->
  gtb duration zero = true ->
  let '(percentage, progressValue, remainingTime) :=
    progress_update currentTime duration in
  geb percentage zero = true /\ leb percentage (of_int 100) = true /\
  geb progressValue zero = true /\ leb progressValue one = true /\
  progressValue = div percentage (of_int 100) /\
  geb remainingTime zero = true.
Proof.
  intros Hparse Hv Hpos. pose proof unit_scale_pos as Hu.
  pose proof (parseFFmpegProgress_time_aux line) as Ht.
  rewrite Hparse in Ht. destruct Ht as (n & Hn & Ht & _).
  destruct (microseconds_to_seconds Hn) as (m & Hm & Hm0).
  rewrite <- Ht in Hm. clear Hparse Ht. subst currentTime.
  (* the quotient by the duration *)
  assert (Hq : exists q, (0 <= q)%Z /\ div (Fin false m) duration = Fin false q
                         \/ div (Fin false m) duration = Inf false).
  { destruct duration as [|b|s d]; try discriminate.
    - destruct b; [discriminate|]. exists 0%Z. left. split; [lia|reflexivity].
    - cbn [valid] in Hv. apply valid_mag_spec in Hv as (Hd0 & _ & _).
      unfold gtb in Hpos. cbn [ltb zero sval] in Hpos. apply Z.ltb_lt in Hpos.
      destruct s; [cbn [sval] in Hpos; lia|]. cbn [sval] in Hpos.
      cbn [div]. destruct (Z.eqb_spec d 0); [lia|]. cbn [xorb].
      destruct (@mk_false_cases (m * unit_scale) d ltac:(nia) ltac:(lia))
        as [E|(q & E & Hq)]; rewrite E.
      + exists 0%Z. right. reflexivity.
      + exists q. left. split; [exact Hq|reflexivity]. }
  (* the percentage before the clamp *)
  assert (Hp : mul (div (Fin false m) duration) (of_int 100) = Inf false \/
               exists p, mul (div (Fin false m) duration) (of_int 100) = Fin false p
                         /\ (0 <= p)%Z).
  { rewrite of_int_hundred.
    destruct Hq as (q & [[Hq0 ->]| ->]).
    - cbn [mul xorb]. apply mk_false_cases; [nia|lia].
    - cbn [mul]. destruct (Z.eqb_spec (100 * unit_scale) 0); [lia|].
      left. reflexivity. }
  (* the remaining time *)
  assert (Hr : isNaN (sub duration (Fin false m)) = false).
  { destruct duration as [|b|s d]; try discriminate; [reflexivity|].
    unfold sub. cbn [neg]. apply add_finite_not_nan; reflexivity. }
  unfold progress_update. cbv zeta.
  set (raw := mul (div (Fin false m) duration) (of_int 100)) in *.
  set (rem := sub duration (Fin false m)) in *.
  (* the clamped percentage is finite, between 0 and 100 *)
  assert (Hpct : exists p,
             (if gtb raw (of_int 100) then of_int 100 else raw) = Fin false p /\
             (0 <= p <= 100 * unit_scale)%Z).
  { destruct (gtb raw (of_int 100)) eqn:Eg.
    - exists (100 * unit_scale)%Z. split; [apply of_int_hundred|lia].
    - unfold gtb in Eg. rewrite of_int_hundred in Eg.
      destruct Hp as [E|(p & E & Hp0)]; rewrite E in *.
      + discriminate.
      + cbn [ltb sval] in Eg. apply Z.ltb_ge in Eg. exists p. split; [reflexivity|lia]. }
  destruct Hpct as (p & -> & Hp0 & Hp100).
  rewrite of_int_hundred.
  assert (Hpv : leb (div (Fin false p) (Fin false (100 * unit_scale))) one = true).
  { cbn [div]. destruct (Z.eqb_spec (100 * unit_scale) 0); [lia|]. cbn [xorb].
    rewrite <- hundredth_of_hundred.
    apply (@mk_mono false (p * unit_scale) (100 * unit_scale * unit_scale)
                    (100 * unit_scale)); nia. }
  assert (Hpv0 : geb (div (Fin false p) (Fin false (100 * unit_scale))) zero = true).
  { cbn [div]. destruct (Z.eqb_spec (100 * unit_scale) 0); [lia|]. cbn [xorb].
    unfold geb.
    destruct (@mk_false_cases (p * unit_scale) (100 * unit_scale)
                ltac:(nia) ltac:(lia)) as [E|(v & E & Hv0)]; rewrite E.
    - reflexivity.
    - cbn [leb zero sval]. apply Z.leb_le. exact Hv0. }
  assert (Hnoclamp : gtb (div (Fin false p) (Fin false (100 * unit_scale))) one
                     = false).
  { unfold gtb. apply leb_true_ltb_false. exact Hpv. }
  rewrite Hnoclamp.
  repeat split.
  - unfold geb. cbn [leb zero sval]. apply Z.leb_le. lia.
  - cbn [leb sval]. apply Z.leb_le. lia.
  - exact Hpv0.
  - exact Hpv.
  - destruct (ltb rem zero) eqn:El; [reflexivity|].
    unfold geb. apply ltb_false_leb; [exact Hr|reflexivity|exact El].
Qed.

End ProgressFacts.

(* ================================================================== *)
(** * The automatic output name *)
(* ================================================================== *)

Section AutoOutputFacts.
Import GoStr Filepath.
Local Open Scope string_scope.

Lemma string_rev_app a b : string_rev (a ++ b) = string_rev b ++ string_rev a.
Proof.
  induction a as [|c a IH]; cbn [String.append string_rev].
  - rewrite append_nil_r. reflexivity.
  - rewrite IH, append_assoc. reflexivity.
Qed.

Lemma string_rev_involutive s : string_rev (string_rev s) = s.
Proof.
  induction s as [|c s IH]; [reflexivity|].
  cbn [string_rev]. rewrite string_rev_app, IH. reflexivity.
Qed.

Lemma ext_scan_spec r acc :
  ext_scan r acc = "" \/
  exists r1 r2,
    r = r1 ++ String "." r2 /\ plain_name r1 = true /\
    ext_scan r acc = String "." (string_rev r1 ++ acc).
Proof.
  revert acc. induction r as [|c r IH]; intros acc; [left; reflexivity|].
  cbn [ext_scan].
  destruct (isPathSeparator c) eqn:Es; [left; reflexivity|].
  destruct (Ascii.eqb_spec c ".") as [->|Hd].
  - right. exists "", r. repeat split.
  - destruct (IH (String c acc)) as [E|(r1 & r2 & -> & Hp & E)]; [left; exact E|].
    right. exists (String c r1), r2. split; [reflexivity|]. split.
    + cbn [plain_name]. rewrite Es, Hp.
      destruct (Ascii.eqb_spec c "."); [contradiction|reflexivity].
    + rewrite E. cbn [string_rev]. rewrite append_assoc. reflexivity.
Qed.

(** [Ext] cuts a path into a stem and the extension. *)
Lemma Ext_spec path :
  exists stem,
    path = stem ++ Ext path /\
    (Ext path = "" \/ exists e, Ext path = String "." e /\ plain_name e = true).
Proof.
  unfold Ext.
  destruct (ext_scan_spec (string_rev path) "") as [E|(r1 & r2 & Hr & Hp & E)].
  - rewrite E. exists path. rewrite append_nil_r. auto.
  - rewrite E, append_nil_r.
    exists (string_rev r2). split.
    + rewrite <- (string_rev_involutive path), Hr, string_rev_app.
      cbn [string_rev]. rewrite append_assoc. reflexivity.
    + right. exists (string_rev r1). split; [reflexivity|].
      clear - Hp. induction r1 as [|c r1 IH]; [reflexivity|].
      cbn [plain_name string_rev] in *.
      apply andb_true_iff in Hp as [Hc Hp].
      assert (G : forall a b, plain_name (a ++ b) = plain_name a && plain_name b).
      { induction a as [|x a IHa]; intros b; [reflexivity|].
        cbn [String.append plain_name]. rewrite IHa, andb_assoc. reflexivity. }
      rewrite G, (IH Hp). cbn [plain_name]. rewrite Hc. reflexivity.
Qed.

Lemma TrimSuffix_app stem suffix : TrimSuffix (stem ++ suffix) suffix = stem.
Proof.
  unfold TrimSuffix, HasSuffix.
  assert (H : HasPrefix (string_rev (stem ++ suffix)) (string_rev suffix) = true).
  { apply HasPrefix_iff. exists (string_rev stem). apply string_rev_app. }
  rewrite H, length_append.
  replace (String.length stem + String.length suffix - String.length suffix)
    with (String.length stem) by lia.
  apply (substring_middle "" stem suffix).
Qed.

Section WithLibrary.

Variable Dir : string -> string.
Variable Join : string -> string -> string.

(** X26.  With a video chosen and a label to show it, the output name is the
    video's file name with its extension replaced by [-CLEAN.mp4]; the
    extension is empty or starts at the last dot; the output name is never
    the video's file name. *)
Theorem generateAutoOutputPath_name (videoPath text outputPath : string) :
  videoPath <> "" ->
  exists stem,
    Base videoPath = stem ++ Ext (Base videoPath) /\
    (Ext (Base videoPath) = "" \/
     exists e, Ext (Base videoPath) = String "." e /\ plain_name e = true) /\
    generateAutoOutputPath Dir Join videoPath (Some text) outputPath
    = (Join (Dir videoPath) (stem ++ "-CLEAN.mp4"),
       Some ("Output: " ++ stem ++ "-CLEAN.mp4")) /\
    stem ++ "-CLEAN.mp4" <> Base videoPath.
Proof.
  intros Hne. destruct (Ext_spec (Base videoPath)) as (stem & Hs & He).
  exists stem. split; [exact Hs|]. split; [exact He|]. split.
  - unfold generateAutoOutputPath.
    destruct (String.eqb_spec videoPath ""); [contradiction|]. cbv zeta.
    assert (Ht : TrimSuffix (Base videoPath) (Ext (Base videoPath)) = stem).
    { rewrite Hs at 1. apply TrimSuffix_app. }
    rewrite Ht. reflexivity.
  - rewrite Hs at 1. intros E.
    assert (G : forall a b c, a ++ b = a ++ c -> b = c).
    { induction a as [|x a IH]; intros b c H; [exact H|].
      cbn [String.append] in H. injection H as H. apply IH, H. }
    apply G in E.
    destruct He as [He|(e & He & _)]; rewrite He in E; discriminate.
Qed.

End WithLibrary.

End AutoOutputFacts.

(* ================================================================== *)
(** * The vocabulary file *)
(* ================================================================== *)

Section SwearsFileFacts.
Import GoStr.
Local Open Scope string_scope.

Lemma TrimLeftSpace_done s : starts_with_space s = false -> TrimLeftSpace s = s.
Proof.
  destruct s as [|a [|b [|c s3]]]; cbn [starts_with_space TrimLeftSpace];
    intros H; try reflexivity.
  - rewrite orb_false_r in H. rewrite H. reflexivity.
  - apply orb_false_iff in H as [H1 H2]. rewrite orb_false_r in H2.
    rewrite H1, H2. reflexivity.
  - apply orb_false_iff in H as [H1 H2]. apply orb_false_iff in H2 as [H2 H3].
    rewrite H1, H2, H3. reflexivity.
Qed.

Lemma TrimLeftSpace_result_len n s :
  String.length s <= n ->
  starts_with_space (TrimLeftSpace s) = false /\
  exists x, s = x ++ TrimLeftSpace s.
Proof.
  revert s. induction n as [|n IH]; intros s Hn.
  - destruct s; [|cbn in Hn; lia]. split; [reflexivity|exists ""; reflexivity].
  - destruct s as [|a s1]; [split; [reflexivity|exists ""; reflexivity]|].
    cbn [String.length] in Hn.
    cbn [TrimLeftSpace].
    destruct (isAsciiSpace a) eqn:Ea.
    { destruct (IH s1 ltac:(lia)) as [H1 [x Hx]]. split; [exact H1|].
      exists (String a x). cbn [String.append]. rewrite <- Hx. reflexivity. }
    destruct s1 as [|b s2].
    { split; [cbn [starts_with_space]; rewrite Ea; reflexivity|].
      exists "". reflexivity. }
    cbn [String.length] in Hn.
    destruct (isSpace2 a b) eqn:E2.
    { destruct (IH s2 ltac:(lia)) as [H1 [x Hx]]. split; [exact H1|].
      exists (String a (String b x)). cbn [String.append]. rewrite <- Hx.
      reflexivity. }
    destruct s2 as [|c s3].
    { split; [cbn [starts_with_space]; rewrite Ea, E2; reflexivity|].
      exists "". reflexivity. }
    cbn [String.length] in Hn.
    destruct (isSpace3 a b c) eqn:E3.
    { destruct (IH s3 ltac:(lia)) as [H1 [x Hx]]. split; [exact H1|].
      exists (String a (String b (String c x))). cbn [String.append].
      rewrite <- Hx. reflexivity. }
    split; [cbn [starts_with_space]; rewrite Ea, E2, E3; reflexivity|].
    exists "". reflexivity.
Qed.

Lemma TrimLeftSpace_result s :
  starts_with_space (TrimLeftSpace s) = false /\
  exists x, s = x ++ TrimLeftSpace s.
Proof. apply (@TrimLeftSpace_result_len (String.length s)). lia. Qed.

(** The same for the loop from the end. *)
Definition rev_starts_with_space (r : string) : bool :=
  match r with
  | EmptyString => false
  | String a r1 =>
      isAsciiSpace a ||
      match r1 with
      | EmptyString => false
      | String b r2 =>
          isSpace2 b a ||
          match r2 with
          | EmptyString => false
          | String c _ => isSpace3 c b a
          end
      end
  end.

Lemma trim_left_rev_done r : rev_starts_with_space r = false -> trim_left_rev r = r.
Proof.
  destruct r as [|a [|b [|c r3]]]; cbn [rev_starts_with_space trim_left_rev];
    intros H; try reflexivity.
  - rewrite orb_false_r in H. rewrite H. reflexivity.
  - apply orb_false_iff in H as [H1 H2]. rewrite orb_false_r in H2.
    rewrite H1, H2. reflexivity.
  - apply orb_false_iff in H as [H1 H2]. apply orb_false_iff in H2 as [H2 H3].
    rewrite H1, H2, H3. reflexivity.
Qed.

Lemma trim_left_rev_result_len n r :
  String.length r <= n ->
  rev_starts_with_space (trim_left_rev r) = false /\
  exists x, r = x ++ trim_left_rev r.
Proof.
  revert r. induction n as [|n IH]; intros r Hn.
  - destruct r; [|cbn in Hn; lia]. split; [reflexivity|exists ""; reflexivity].
  - destruct r as [|a r1]; [split; [reflexivity|exists ""; reflexivity]|].
    cbn [String.length] in Hn.
    cbn [trim_left_rev].
    destruct (isAsciiSpace a) eqn:Ea.
    { destruct (IH r1 ltac:(lia)) as [H1 [x Hx]]. split; [exact H1|].
      exists (String a x). cbn [String.append]. rewrite <- Hx. reflexivity. }
    destruct r1 as [|b r2].
    { split; [cbn [rev_starts_with_space]; rewrite Ea; reflexivity|].
      exists "". reflexivity. }
    cbn [String.length] in Hn.
    destruct (isSpace2 b a) eqn:E2.
    { destruct (IH r2 ltac:(lia)) as [H1 [x Hx]]. split; [exact H1|].
      exists (String a (String b x)). cbn [String.append]. rewrite <- Hx.
      reflexivity. }
    destruct r2 as [|c r3].
    { split; [cbn [rev_starts_with_space]; rewrite Ea, E2; reflexivity|].
      exists "". reflexivity. }
    cbn [String.length] in Hn.
    destruct (isSpace3 c b a) eqn:E3.
    { destruct (IH r3 ltac:(lia)) as [H1 [x Hx]]. split; [exact H1|].
      exists (String a (String b (String c x))). cbn [String.append].
      rewrite <- Hx. reflexivity. }
    split; [cbn [rev_starts_with_space]; rewrite Ea, E2, E3; reflexivity|].
    exists "". reflexivity.
Qed.

Lemma trim_left_rev_result r :
  rev_starts_with_space (trim_left_rev r) = false /\
  exists x, r = x ++ trim_left_rev r.
Proof. apply (@trim_left_rev_result_len (String.length r)). lia. Qed.

Lemma starts_with_space_prefix p q :
  starts_with_space (p ++ q) = false -> starts_with_space p = false.
Proof.
  destruct p as [|a [|b [|c p3]]]; cbn [String.append starts_with_space];
    intros H; try reflexivity.
  - apply orb_false_iff in H as [H _]. rewrite H. reflexivity.
  - apply orb_false_iff in H as [H1 H2]. apply orb_false_iff in H2 as [H2 _].
    rewrite H1, H2. reflexivity.
  - exact H.
Qed.

(** What [TrimSpace] returns has white space at neither end, and
    [TrimSpace] leaves it as it is. *)
Lemma TrimSpace_trimmed s :
  starts_with_space (TrimSpace s) = false /\
  ends_with_space (TrimSpace s) = false /\
  TrimSpace (TrimSpace s) = TrimSpace s.
Proof.
  unfold TrimSpace, TrimRightSpace.
  destruct (TrimLeftSpace_result s) as [Ht _].
  set (t := TrimLeftSpace s) in *.
  destruct (trim_left_rev_result (string_rev t)) as [Hr [x Hx]].
  set (r' := trim_left_rev (string_rev t)) in *.
  assert (Hpre : t = string_rev r' ++ string_rev x).
  { rewrite <- (string_rev_involutive t), Hx, string_rev_app. reflexivity. }
  assert (Hu : starts_with_space (string_rev r') = false).
  { apply (@starts_with_space_prefix _ (string_rev x)). rewrite <- Hpre. exact Ht. }
  split; [exact Hu|]. split.
  - unfold ends_with_space. rewrite string_rev_involutive. exact Hr.
  - rewrite (TrimLeftSpace_done _ Hu), string_rev_involutive.
    rewrite (trim_left_rev_done _ Hr). reflexivity.
Qed.

Lemma readSwears_loop lines acc :
  fold_left
    (fun swears scanned =>
       let swear := TrimSpace scanned in
       if String.eqb swear "" then swears else (swears ++ [swear])%list)
    lines acc
  = (acc ++ filter (fun t => negb (String.eqb t "")) (map TrimSpace lines))%list.
Proof.
  revert acc. induction lines as [|l lines IH]; intros acc;
    cbn [fold_left map filter].
  - rewrite app_nil_r. reflexivity.
  - cbv zeta. rewrite IH.
    destruct (String.eqb (TrimSpace l) ""); cbn [negb]; [reflexivity|].
    rewrite <- app_assoc. reflexivity.
Qed.

(** X27.  The terms read from a vocabulary file are the lines of the file that
    are not blank, in their order, each without white space at its ends:
    none is empty, and trimming one again changes nothing. *)
Theorem readSwearsFromFile_terms (lines : list string) (swears : list string) :
  readSwearsFromFile (File lines false) = inr swears ->
  swears = filter (fun t => negb (String.eqb t "")) (map TrimSpace lines) /\
  Forall (fun t => t <> "" /\
                   starts_with_space t = false /\ ends_with_space t = false /\
                   TrimSpace t = t) swears.
Proof.
  unfold readSwearsFromFile. cbv zeta. rewrite readSwears_loop. cbn [app].
  intros H. injection H as <-. split; [reflexivity|].
  apply Forall_forall. intros t Ht.
  apply filter_In in Ht as [Hin Hne].
  apply in_map_iff in Hin as (l & <- & _).
  destruct (TrimSpace_trimmed l) as (H1 & H2 & H3).
  split; [|auto].
  destruct (String.eqb_spec (TrimSpace l) ""); [discriminate|assumption].
Qed.

End SwearsFileFacts.

(* ================================================================== *)
(** * Instances of the further properties *)
(* ================================================================== *)

Section FurtherExamples.
Import GoStr F64 F64Ops F64Facts.
Local Open Scope string_scope.

Lemma merge_example_no_nan : Forall no_nan merge_example.
Proof. repeat (constructor; try (split; vm_compute; reflexivity)). Qed.

Lemma mergeSegments_boundaries_from_input_witness :
  length (mergeSegments insertionSort merge_example) <= length merge_example /\
  forall o, In o (mergeSegments insertionSort merge_example) ->
    (exists a, In a merge_example /\ Start o = Start a) /\
    (exists b, In b merge_example /\ End_ o = End_ b).
Proof.
  exact (@mergeSegments_boundaries_from_input insertionSort merge_example
           insertionSort_perm).
Defined.

Lemma mergeSegments_covers_input_witness :
  exists o, In o (mergeSegments insertionSort merge_example) /\
            covers o (seg 25 10 3 1).
Proof.
  exact (@mergeSegments_covers_input insertionSort merge_example
           insertionSort_contract merge_example_no_nan
           (seg 25 10 3 1) (or_intror (or_introl eq_refl))).
Defined.

(** An SRT file of two blocks. *)
Definition two_blocks : list string :=
  ["1"; "00:00:05,000 --> 00:00:06,000"; "What the fuck"; "";
   "2"; "00:00:07,000 --> 00:00:08,500"; "Hello there"; ""].

Example two_blocks_found :
  findSwearTimestamps no_tables ["fuck"] minus_half (File two_blocks false)
  = (Ok [seg 45 10 55 10], []).
Proof. vm_compute. reflexivity. Qed.

Lemma findSwearTimestamps_vocabulary_order_witness :
  findSwearTimestamps no_tables ["fuck"; "hello"] minus_half (File two_blocks false)
  = findSwearTimestamps no_tables ["hello"; "fuck"] minus_half (File two_blocks false).
Proof.
  exact (@findSwearTimestamps_vocabulary_order no_tables minus_half
           ["fuck"; "hello"] ["hello"; "fuck"] (File two_blocks false)
           (perm_swap "hello" "fuck" [])).
Defined.

Lemma findSwearTimestamps_intervals_witness :
  Forall (fun s => from_timestamp_line minus_half two_blocks s /\
                   ltb (Start s) zero = false /\ ltb (End_ s) zero = false)
         [seg 45 10 55 10] /\
  length [seg 45 10 55 10] <= length (timestamp_lines two_blocks).
Proof.
  exact (@findSwearTimestamps_intervals no_tables minus_half ["fuck"]
           two_blocks false [seg 45 10 55 10] [] two_blocks_found).
Defined.

Lemma findSwearTimestamps_starts_alike_witness :
  no_nan_start [seg 45 10 55 10] \/ all_nan_start [seg 45 10 55 10].
Proof.
  exact (@findSwearTimestamps_starts_alike no_tables minus_half ["fuck"]
           two_blocks false [seg 45 10 55 10] [] two_blocks_found).
Defined.

Lemma findSwearTimestamps_not_negative_witness :
  Forall not_negative [seg 45 10 55 10].
Proof.
  exact (@findSwearTimestamps_not_negative no_tables minus_half ["fuck"]
           two_blocks false [seg 45 10 55 10] [] eq_refl two_blocks_found).
Defined.

(** The timestamp lines of [two_blocks] convert, and end after they
    start. *)
Lemma two_blocks_timestamps l m1 m2 :
  In l two_blocks ->
  SrtPattern.FindStringSubmatch (TrimSpace l) = Some (m1, m2) ->
  (m1 = "00:00:05,000" /\ m2 = "00:00:06,000") \/
  (m1 = "00:00:07,000" /\ m2 = "00:00:08,500").
Proof.
  intros Hin Hf. unfold two_blocks in Hin. cbn [In] in Hin.
  repeat (destruct Hin as [<-|Hin];
          [vm_compute in Hf; try discriminate;
           injection Hf as <- <-; auto|]).
  contradiction.
Qed.

Lemma two_blocks_convert l m1 m2 :
  In l two_blocks ->
  SrtPattern.FindStringSubmatch (TrimSpace l) = Some (m1, m2) ->
  (exists a, parseSRTTime m1 = Ok a) /\ (exists b, parseSRTTime m2 = Ok b).
Proof.
  intros Hin Hf.
  destruct (@two_blocks_timestamps l m1 m2 Hin Hf) as [[-> ->]|[-> ->]];
    split; eexists; vm_compute; reflexivity.
Qed.

Lemma Ok_inj (A : Type) (x y : A) : Ok x = Ok y -> x = y.
Proof. intros H. injection H as H. exact H. Qed.

Lemma two_blocks_ordered l m1 m2 a b :
  In l two_blocks ->
  SrtPattern.FindStringSubmatch (TrimSpace l) = Some (m1, m2) ->
  parseSRTTime m1 = Ok a -> parseSRTTime m2 = Ok b ->
  leb a b = true.
Proof.
  intros Hin Hf Ha Hb.
  assert (E5 : parseSRTTime "00:00:05,000" = Ok (of_int 5))
    by (vm_compute; reflexivity).
  assert (E6 : parseSRTTime "00:00:06,000" = Ok (of_int 6))
    by (vm_compute; reflexivity).
  assert (E7 : parseSRTTime "00:00:07,000" = Ok (of_int 7))
    by (vm_compute; reflexivity).
  assert (E8 : parseSRTTime "00:00:08,500" = Ok (of_ratio 85 10))
    by (vm_compute; reflexivity).
  destruct (@two_blocks_timestamps l m1 m2 Hin Hf) as [[-> ->]|[-> ->]].
  - rewrite E5 in Ha. rewrite E6 in Hb.
    apply Ok_inj in Ha, Hb. subst a b. vm_compute. reflexivity.
  - rewrite E7 in Ha. rewrite E8 in Hb.
    apply Ok_inj in Ha, Hb. subst a b. vm_compute. reflexivity.
Qed.

Lemma findSwearTimestamps_feeds_merger_witness :
  Forall valid_segment [seg 45 10 55 10] /\
  Forall start_le_end [seg 45 10 55 10].
Proof.
  exact (@findSwearTimestamps_feeds_merger no_tables minus_half ["fuck"]
           two_blocks false [seg 45 10 55 10] [] eq_refl
           two_blocks_ordered two_blocks_found).
Defined.

Lemma mergeSegments_of_found_intervals_witness :
  Forall not_negative (mergeSegments insertionSort [seg 45 10 55 10]) /\
  Forall start_le_end (mergeSegments insertionSort [seg 45 10 55 10]) /\
  StronglySorted start_lt (mergeSegments insertionSort [seg 45 10 55 10]) /\
  Sorted gap (mergeSegments insertionSort [seg 45 10 55 10]) /\
  (forall s, In s [seg 45 10 55 10] ->
     exists o, In o (mergeSegments insertionSort [seg 45 10 55 10]) /\
               covers o s) /\
  length (mergeSegments insertionSort [seg 45 10 55 10])
  <= length (timestamp_lines two_blocks).
Proof.
  exact (@mergeSegments_of_found_intervals no_tables minus_half ["fuck"]
           insertionSort two_blocks false [seg 45 10 55 10] []
           insertionSort_contract eq_refl two_blocks_ordered two_blocks_found).
Defined.

Lemma findSwearTimestamps_succeeds_witness :
  exists segs log,
    findSwearTimestamps no_tables ["fuck"] minus_half (File two_blocks false)
    = (Ok segs, log).
Proof.
  exact (@findSwearTimestamps_succeeds no_tables minus_half ["fuck"]
           two_blocks two_blocks_convert).
Defined.

Lemma findSwearTimestamps_skips_preamble_witness :
  findSwearTimestamps no_tables ["fuck"] minus_half
                      (File (["WEBVTT"; ""] ++ two_blocks) false)
  = findSwearTimestamps no_tables ["fuck"] minus_half (File two_blocks false).
Proof.
  apply (@findSwearTimestamps_skips_preamble no_tables minus_half ["fuck"]
           ["WEBVTT"; ""] two_blocks false).
  repeat constructor.
Defined.

Lemma parseSRTTime_on_timestamp_witness :
  parseSRTTime (srt_timestamp 0 1 23 456) = Ok (clock_seconds 0 1 23 456).
Proof.
  exact (proj1 (proj2 (@parseSRTTime_on_timestamp 0 1 23 456
           (conj (Z.le_refl 0) eq_refl) (conj (Zle_0_pos 1) eq_refl)
           (conj (Zle_0_pos 23) eq_refl) (conj (Zle_0_pos 456) eq_refl)))).
Defined.

Lemma parseSRTTime_monotone_witness :
  exists a b,
    parseSRTTime (srt_timestamp 0 0 5 0) = Ok a /\
    parseSRTTime (srt_timestamp 0 0 6 500) = Ok b /\
    leb a b = true.
Proof.
  apply (@parseSRTTime_monotone 0 0 5 0 0 0 6 500); lia.
Defined.

Lemma findSwearTimestamps_same_matches_witness :
  fst (findSwearTimestamps no_tables ["fuck"; "hello"] minus_half
                           (File two_blocks false))
  = fst (findSwearTimestamps no_tables ["hello"; "fuck"; "hello"] minus_half
                             (File two_blocks false)).
Proof.
  apply (@findSwearTimestamps_same_matches no_tables minus_half
           ["fuck"; "hello"] ["hello"; "fuck"; "hello"] (File two_blocks false)).
  intros text. unfold matches. cbn [existsb].
  destruct (Contains text (ToLower no_tables "fuck")),
           (Contains text (ToLower no_tables "hello")); reflexivity.
Defined.

Lemma findSwearTimestamps_redundant_term_witness :
  fst (findSwearTimestamps no_tables ["Fucking"; "shit"; "fuck"] minus_half
                           (File two_blocks false))
  = fst (findSwearTimestamps no_tables ["shit"; "fuck"] minus_half
                             (File two_blocks false)).
Proof.
  exact (@findSwearTimestamps_redundant_term no_tables minus_half
           "Fucking" "fuck" ["shit"; "fuck"] (File two_blocks false)
           (or_intror (or_introl eq_refl)) eq_refl).
Defined.

Lemma nan_offset_blank_line_matters_witness :
  scan_line no_tables ["fuck"] NaN open_block ""
  = Ok (mkScan (segments open_block ++ [mkSegment NaN NaN])%list
               (currentStart open_block) (currentEnd open_block) false ""
               (logged open_block)) /\
  finish no_tables ["fuck"] NaN open_block
  = (segments open_block,
     (logged open_block
      ++ [warning NaN (currentStart open_block) (currentEnd open_block)])%list).
Proof.
  exact (@nan_offset_blank_line_matters no_tables NaN ["fuck"] open_block
           eq_refl eq_refl eq_refl).
Defined.

Lemma getVolumeFilter_recovers_expression_witness :
  getVolumeFilter (generateFFmpegCommand no_tables "in.mp4" "out.mp4" one_to_two)
  = Returns (Join (map between one_to_two) "+").
Proof.
  exact (@getVolumeFilter_recovers_expression no_tables "in.mp4" "out.mp4"
           one_to_two one_to_two_nonempty eq_refl eq_refl).
Defined.

Lemma getVolumeFilter_keeps_expression_witness :
  exists pre post,
    getVolumeFilter (generateFFmpegCommand no_tables "a).mp4" "b(1).mp4" one_to_two)
    = Returns (pre ++ Join (map between one_to_two) "+" ++ post).
Proof.
  exact (@getVolumeFilter_keeps_expression no_tables "a).mp4" "b(1).mp4"
           one_to_two one_to_two_nonempty).
Defined.

Lemma getVolumeFilter_copy_command_witness :
  getVolumeFilter (generateFFmpegCommand no_tables "in.mp4" "out (1).mp4" [])
  = Returns "".
Proof.
  exact (@getVolumeFilter_copy_command no_tables "in.mp4" "out (1).mp4"
           eq_refl eq_refl).
Defined.

(** The application with a command for [one_to_two], before Execute. *)
Definition ready_app : App :=
  mkApp "in.mp4" "out.mp4"
        (generateFFmpegCommand no_tables "in.mp4" "out.mp4" one_to_two)
        true "" 0 false true true.


(** The same application when the video file is gone. *)
Definition refused_app : App :=
  Eval vm_compute in
    match executeFFmpeg (fun _ => true) (fun _ => ".") ready_app with
    | Returns (app', _) => app'
    | Panics => ready_app
    end.

Lemma executeFFmpeg_refusal_leaves_buttons_disabled_witness :
  processBtnEnabled refused_app = false /\
  executeBtnEnabled refused_app = false /\
  progressBarShown refused_app = true.
Proof.
  apply (@executeFFmpeg_refusal_leaves_buttons_disabled (fun _ => true)
           (fun _ => ".") ready_app refused_app).
  - reflexivity.
  - discriminate.
  - vm_compute. reflexivity.
Defined.

Lemma executeFFmpeg_refuses_copy_command_witness :
  exists app',
    executeFFmpeg (fun _ => false) (fun _ => ".")
      (mkApp "in.mp4" "out.mp4"
             (generateFFmpegCommand no_tables "in.mp4" "out.mp4" [])
             true "" 0 false true true)
    = Returns (app', None).
Proof.
  exact (@executeFFmpeg_refuses_copy_command no_tables (fun _ => false)
           (fun _ => ".")
           (mkApp "in.mp4" "out.mp4"
                  (generateFFmpegCommand no_tables "in.mp4" "out.mp4" [])
                  true "" 0 false true true)
           eq_refl eq_refl eq_refl).
Defined.

Lemma parseFFmpegProgress_reads_microseconds_witness :
  parseFFmpegProgress ("out_time_us=" ++ int_digits 1500000)
  = if (1500000 <? 2 ^ 63)%Z
    then (div (of_int 1500000) (of_int 1000000), true)
    else (zero, false).
Proof.
  exact (@parseFFmpegProgress_reads_microseconds 1500000 (Zle_0_pos 1500000)).
Defined.

Lemma progress_update_in_range_witness :
  let '(percentage, progressValue, remainingTime) :=
    progress_update (div (of_int 30000000) (of_int 1000000)) (of_int 120) in
  geb percentage zero = true /\ leb percentage (of_int 100) = true /\
  geb progressValue zero = true /\ leb progressValue one = true /\
  progressValue = div percentage (of_int 100) /\
  geb remainingTime zero = true.
Proof.
  apply (@progress_update_in_range "out_time_us=30000000"
           (div (of_int 30000000) (of_int 1000000)) (of_int 120)).
  - vm_compute. reflexivity.
  - vm_compute. reflexivity.
  - vm_compute. reflexivity.
Defined.

Lemma generateAutoOutputPath_name_witness :
  exists stem,
    Filepath.Base "/videos/My Movie.2019.mkv"
    = stem ++ Filepath.Ext (Filepath.Base "/videos/My Movie.2019.mkv") /\
    (Filepath.Ext (Filepath.Base "/videos/My Movie.2019.mkv") = "" \/
     exists e, Filepath.Ext (Filepath.Base "/videos/My Movie.2019.mkv")
               = String "." e /\ Filepath.plain_name e = true) /\
    generateAutoOutputPath (fun _ => "/videos") (fun d f => d ++ "/" ++ f)
                           "/videos/My Movie.2019.mkv" (Some "") ""
    = ((fun d f => d ++ "/" ++ f) ((fun _ => "/videos") "/videos/My Movie.2019.mkv")
                                  (stem ++ "-CLEAN.mp4"),
       Some ("Output: " ++ stem ++ "-CLEAN.mp4")) /\
    stem ++ "-CLEAN.mp4" <> Filepath.Base "/videos/My Movie.2019.mkv".
Proof.
  apply (@generateAutoOutputPath_name (fun _ => "/videos")
           (fun d f => d ++ "/" ++ f) "/videos/My Movie.2019.mkv" "" "").
  discriminate.
Defined.

Lemma readSwearsFromFile_terms_witness :
  ["fuck"; "god damn"]
  = filter (fun t => negb (String.eqb t "")) (map TrimSpace [" fuck "; ""; "god damn"])
  /\
  Forall (fun t => t <> "" /\
                   starts_with_space t = false /\ ends_with_space t = false /\
                   TrimSpace t = t) ["fuck"; "god damn"].
Proof.
  exact (@readSwearsFromFile_terms [" fuck "; ""; "god damn"] ["fuck"; "god damn"]
           eq_refl).
Defined.

End FurtherExamples.
